(** * Helixer annotation import: a shallow embedding of [annotations.py]

    The Python classes of [annotations.py] are rendered as records and
    functions.  Identifiers are strings and coordinates are integers.  The
    transcripts of a locus are a finite map; its features, whose order of
    insertion shows when they are iterated, are an association list.  Every
    method that mutates an object or raises is a function in a small
    state-and-exception monad over the world the method works in: the id
    makers of the genome, one locus, and the log.  Generators are rendered
    by the list of values they yield together with the way they stop. *)

From Stdlib Require Import Ascii String ZArith QArith.
From stdpp Require Import gmap strings list pretty sorting.
Local Open Scope string_scope.
Local Open Scope list_scope.
Local Open Scope Z_scope.

(** ** Exceptions and the state monad *)

(** The Python exceptions the embedded code can raise.  [RuntimeError] is
    what a [StopIteration] escaping a generator body becomes (PEP 479).
    Two more outcomes belong to the model only: [Unmodelled] marks a run
    that leaves the modelled fragment (a back-reference to a [SuperLoci]
    other than the one under study, a gene or transcript record without
    id), and [OutOfFuel] a loop that used up the rounds granted to it. *)
Inductive exn :=
  | KeyError | ValueError | IndexError | AttributeError
  | AssertionError | RuntimeError | Unmodelled | OutOfFuel.

Inductive result (A : Type) :=
  | Ok (a : A)
  | Raise (e : exn).
Arguments Ok {A} a.
Arguments Raise {A} e.

(** A computation over a mutable state [S]: the state is returned in both
    cases, because a Python exception does not undo earlier assignments. *)
Definition M (S A : Type) : Type := S -> result A * S.

Global Instance M_ret {S} : MRet (M S) := fun A a s => (Ok a, s).
Global Instance M_bind {S} : MBind (M S) := fun A B k m s =>
  match m s with
  | (Ok a, s') => k a s'
  | (Raise e, s') => (Raise e, s')
  end.
Definition raise {S A} (e : exn) : M S A := fun s => (Raise e, s).
Definition get {S} : M S S := fun s => (Ok s, s).
Definition put {S} (s : S) : M S unit := fun _ => (Ok tt, s).
Definition modify {S} (f : S -> S) : M S unit := fun s => (Ok tt, f s).
Definition of_option {S A} (e : exn) (o : option A) : M S A :=
  match o with Some a => mret a | None => raise e end.

(** [for x in xs: body x] *)
Fixpoint for_each {S A} (xs : list A) (body : A -> M S unit) : M S unit :=
  match xs with
  | [] => mret tt
  | x :: xs' => body x;; for_each xs' body
  end.

(** How a generator stops: by running to its end, or by an exception. *)
Inductive outcome :=
  | Finished
  | Failed (e : exn).

(** ** FeatureDecoder: the vocabulary of feature types *)

Module FeatureDecoder.
Definition error_buffer : Z := 2000.
Definition gene := "gene".
Definition super_gene := "super_gene".
Definition ncRNA_gene := "ncRNA_gene".
Definition pseudogene := "pseudogene".
Definition gene_level := [gene; super_gene; ncRNA_gene; pseudogene].

Definition mRNA := "mRNA".
Definition tRNA := "tRNA".
Definition rRNA := "rRNA".
Definition miRNA := "miRNA".
Definition snoRNA := "snoRNA".
Definition snRNA := "snRNA".
Definition SRP_RNA := "SRP_RNA".
Definition lnc_RNA := "lnc_RNA".
Definition pre_miRNA := "pre_miRNA".
Definition RNase_MRP_RNA := "RNase_MRP_RNA".
Definition transcript := "transcript".
Definition primary_transcript := "primary_transcript".
Definition pseudogenic_transcript := "pseudogenic_transcript".
Definition transcribed :=
  [mRNA; transcript; tRNA; primary_transcript; rRNA; miRNA; snoRNA; snRNA;
   SRP_RNA; lnc_RNA; pre_miRNA; RNase_MRP_RNA; pseudogenic_transcript].

Definition exon := "exon".
Definition intron := "intron".
Definition sub_transcribed := [exon; intron].

Definition cds := "CDS".
Definition five_prime_UTR := "five_prime_UTR".
Definition three_prime_UTR := "three_prime_UTR".
Definition coding_info := [cds; five_prime_UTR; three_prime_UTR].

Definition TSS := "TSS".
Definition TTS := "TTS".
Definition start_codon := "start_codon".
Definition stop_codon := "stop_codon".
Definition donor_splice_site := "donor_splice_site".
Definition acceptor_splice_site := "acceptor_splice_site".
Definition trans_donor_splice_site := "trans_donor_splice_site".
Definition trans_acceptor_splice_site := "trans_acceptor_splice_site".
Definition point_annotations :=
  [TSS; TTS; start_codon; stop_codon; donor_splice_site; acceptor_splice_site;
   trans_donor_splice_site; trans_acceptor_splice_site].

Definition region := "region".
Definition chromosome := "chromosome".
Definition supercontig := "supercontig".
Definition regions := [region; chromosome; supercontig].

Definition match_ := "match".
Definition cDNA_match := "cDNA_match".
Definition ignorable := [match_; cDNA_match].

Definition error := "error".
Definition status_coding := "status_coding".
Definition status_intron := "status_intron".
Definition status_five_prime_UTR := "status_five_prime_UTR".
Definition status_three_prime_UTR := "status_three_prime_UTR".
Definition status_intergenic := "status_intergenic".
Definition statuses :=
  [status_coding; status_intron; status_five_prime_UTR;
   status_three_prime_UTR; status_intergenic].

Definition on_sequence :=
  (sub_transcribed ++ coding_info ++ point_annotations)%list.
Definition known :=
  (gene_level ++ transcribed ++ sub_transcribed ++ coding_info ++
   point_annotations ++ regions ++ ignorable ++ [error] ++ statuses)%list.
End FeatureDecoder.

(** ** IDMaker *)

(** [n] copies of the character 0. *)
Fixpoint zeros (n : nat) : string :=
  match n with
  | O => ""
  | S n' => String "0"%char (zeros n')
  end.

(** The format specification [{:0w}] applied to the decimal numeral [s] of a
    non-negative integer: padded on the left with zeros up to width [w],
    never truncated. *)
Definition zero_pad (w : nat) (s : string) : string :=
  zeros (w - String.length s) +:+ s.

Record IDMaker := mkIDMaker {
  _counter : nat;
  prefix : string;
  _seen : gset string;
  _width : nat
}.

(** [IDMaker(prefix, width)] *)
Definition IDMaker_init (prefix : string) (width : nat) : IDMaker :=
  {| _counter := 0; prefix := prefix; _seen := ∅; _width := width |}.

(** [IDMaker._fmt_id]: the prefix, then the counter padded with zeros. *)
Definition _fmt_id (self : IDMaker) : string :=
  prefix self +:+ zero_pad (_width self) (pretty (_counter self)).

(** [IDMaker._new_id]: the formatted id is recorded and returned, and the
    counter moves on. *)
Definition _new_id (self : IDMaker) : string * IDMaker :=
  let new_id := _fmt_id self in
  (new_id,
   {| _counter := S (_counter self); prefix := prefix self;
      _seen := {[ new_id ]} ∪ _seen self; _width := _width self |}).

(** [IDMaker.next_unique_id].  The suggestion is an optional string, so
    [str(suggestion)] is the suggestion itself. *)
Definition next_unique_id (suggestion : option string) (self : IDMaker)
  : string * IDMaker :=
  match suggestion with
  | Some s =>
      if decide (s ∈ _seen self) then _new_id self
      else (s, {| _counter := _counter self; prefix := prefix self;
                  _seen := {[ s ]} ∪ _seen self; _width := _width self |})
  | None => _new_id self
  end.

(** The ids returned by a sequence of calls on one instance. *)
Fixpoint issue (calls : list (option string)) (self : IDMaker) : list string :=
  match calls with
  | [] => []
  | suggestion :: calls' =>
      let '(new_id, self') := next_unique_id suggestion self in
      new_id :: issue calls' self'
  end.

(** ** Records read from a GFF file *)

(** Modelled from the spec: the record type of the reader
    ([dustdas.gffhelper]), which is not part of the sources; section 6 gives
    its shape.  [ID] is the result of [get_ID()] (absent when the record
    declares none), [Parent] that of [get_Parent()], and [score] that of
    [float(entry.score)], absent when the conversion raises [ValueError]. *)
Module GFFObject.
Record t := mk {
  seqid : string;
  source : string;
  type : string;
  start : Z;
  end_ : Z;
  score : option Q;
  strand : string;
  phase : string;
  ID : option string;
  Parent : list string
}.
End GFFObject.

(** [AnnotatedGenome.useful_gff_entries], over the records of the file in
    reading order. *)
Fixpoint useful_gff_entries (reader : list GFFObject.t)
  : list GFFObject.t * outcome :=
  let skipable := (FeatureDecoder.regions ++ FeatureDecoder.ignorable)%list in
  match reader with
  | [] => ([], Finished)
  | entry :: reader' =>
      if decide (GFFObject.type entry ∈ FeatureDecoder.known) then
        if decide (GFFObject.type entry ∈ skipable) then
          useful_gff_entries reader'
        else
          let '(entries, stop) := useful_gff_entries reader' in
          (entry :: entries, stop)
      else ([], Failed ValueError)
  end.

(** The [for entry in reader] loop of [group_gff_by_gene] with the group
    under construction; [stop] is how the reader ends once [entries] are
    consumed. *)
Fixpoint group_loop (gene_group : list GFFObject.t)
    (entries : list GFFObject.t) (stop : outcome)
  : list (list GFFObject.t) * outcome :=
  match entries with
  | [] =>
      match stop with
      | Finished => ([gene_group], Finished)
      | Failed e => ([], Failed e)
      end
  | entry :: entries' =>
      if decide (GFFObject.type entry = "gene") then
        let '(groups, stop') := group_loop [entry] entries' stop in
        (gene_group :: groups, stop')
      else group_loop (gene_group ++ [entry])%list entries' stop
  end.

(** [AnnotatedGenome.group_gff_by_gene].  [next(reader)] on an exhausted
    reader raises [StopIteration] inside the generator body, which reaches
    the caller as [RuntimeError]. *)
Definition group_gff_by_gene (gff_file : list GFFObject.t)
  : list (list GFFObject.t) * outcome :=
  match useful_gff_entries gff_file with
  | ([], Finished) => ([], Failed RuntimeError)
  | ([], Failed e) => ([], Failed e)
  | (first :: entries, stop) => group_loop [first] entries stop
  end.

(** ** The entity graph *)

Global Instance Q_eq_dec : EqDecision Q.
Proof. solve_decision. Defined.

Module Transcribed.
Record t := mk {
  id : string;
  type : string;
  is_partial : bool;
  is_reconstructed : bool;
  is_type_in_question : bool;
  super_loci : option nat;
  features : list string
}.

(** [Transcribed()] *)
Definition init : t :=
  {| id := ""; type := ""; is_partial := false; is_reconstructed := false;
     is_type_in_question := false; super_loci := None; features := [] |}.

Definition set_id (v : string) (self : t) : t :=
  {| id := v; type := type self; is_partial := is_partial self;
     is_reconstructed := is_reconstructed self;
     is_type_in_question := is_type_in_question self;
     super_loci := super_loci self; features := features self |}.

Definition set_features (v : list string) (self : t) : t :=
  {| id := id self; type := type self; is_partial := is_partial self;
     is_reconstructed := is_reconstructed self;
     is_type_in_question := is_type_in_question self;
     super_loci := super_loci self; features := v |}.

Definition link_to_feature (feature_id : string) (self : t) : t :=
  set_features (features self ++ [feature_id])%list self.

(** [list.index]: position of the first occurrence. *)
Fixpoint index (x : string) (l : list string) : option nat :=
  match l with
  | [] => None
  | y :: l' => if decide (x = y) then Some O else S <$> index x l'
  end.

(** [self.features.pop(self.features.index(feature_id))]; [ValueError]
    when the id is not in the list. *)
Definition remove_feature (feature_id : string) (self : t) : result t :=
  match index feature_id (features self) with
  | Some i => Ok (set_features (delete i (features self)) self)
  | None => Raise ValueError
  end.
End Transcribed.

Module StructuredFeature.
(** The attributes of a feature.  [super_loci] is the back-reference to the
    owning locus, an object address or [None]; the class-level [spec] list
    is the same for every instance and is left out. *)
Record t := mk {
  id : string;
  type : string;
  is_partial : bool;
  is_reconstructed : bool;
  is_type_in_question : bool;
  start : Z;
  end_ : Z;
  seqid : string;
  strand : string;
  frame : string;
  score : Q;
  source : string;
  transcripts : list string;
  super_loci : option nat
}.

(** [StructuredFeature()] *)
Definition init : t :=
  {| id := ""; type := ""; is_partial := false; is_reconstructed := false;
     is_type_in_question := false; start := -1; end_ := -1; seqid := "";
     strand := "."; frame := "."; score := (-1)%Q; source := "";
     transcripts := []; super_loci := None |}.

Definition set_type (v : string) (self : t) : t :=
  {| id := id self; type := v; is_partial := is_partial self;
     is_reconstructed := is_reconstructed self;
     is_type_in_question := is_type_in_question self;
     start := start self; end_ := end_ self; seqid := seqid self;
     strand := strand self; frame := frame self; score := score self;
     source := source self; transcripts := transcripts self;
     super_loci := super_loci self |}.

Definition set_span (s e : Z) (self : t) : t :=
  {| id := id self; type := type self; is_partial := is_partial self;
     is_reconstructed := is_reconstructed self;
     is_type_in_question := is_type_in_question self;
     start := s; end_ := e; seqid := seqid self;
     strand := strand self; frame := frame self; score := score self;
     source := source self; transcripts := transcripts self;
     super_loci := super_loci self |}.

Definition set_id (v : string) (self : t) : t :=
  {| id := v; type := type self; is_partial := is_partial self;
     is_reconstructed := is_reconstructed self;
     is_type_in_question := is_type_in_question self;
     start := start self; end_ := end_ self; seqid := seqid self;
     strand := strand self; frame := frame self; score := score self;
     source := source self; transcripts := transcripts self;
     super_loci := super_loci self |}.

Definition set_super_loci (v : option nat) (self : t) : t :=
  {| id := id self; type := type self; is_partial := is_partial self;
     is_reconstructed := is_reconstructed self;
     is_type_in_question := is_type_in_question self;
     start := start self; end_ := end_ self; seqid := seqid self;
     strand := strand self; frame := frame self; score := score self;
     source := source self; transcripts := transcripts self;
     super_loci := v |}.

Definition set_frame (v : string) (self : t) : t :=
  {| id := id self; type := type self; is_partial := is_partial self;
     is_reconstructed := is_reconstructed self;
     is_type_in_question := is_type_in_question self;
     start := start self; end_ := end_ self; seqid := seqid self;
     strand := strand self; frame := v; score := score self;
     source := source self; transcripts := transcripts self;
     super_loci := super_loci self |}.

Definition set_transcripts (v : list string) (self : t) : t :=
  {| id := id self; type := type self; is_partial := is_partial self;
     is_reconstructed := is_reconstructed self;
     is_type_in_question := is_type_in_question self;
     start := start self; end_ := end_ self; seqid := seqid self;
     strand := strand self; frame := frame self; score := score self;
     source := source self; transcripts := v;
     super_loci := super_loci self |}.

Global Instance eq_dec : EqDecision t.
Proof. solve_decision. Defined.

Definition py_start (self : t) : Z := start self - 1.
Definition py_end (self : t) : Z := end_ self.

Definition fully_overlaps (self other : t) : bool :=
  bool_decide (type self = type other) &&
  bool_decide (start self = start other) &&
  bool_decide (end_ self = end_ other) &&
  bool_decide (seqid self = seqid other) &&
  bool_decide (strand self = strand other) &&
  bool_decide (frame self = frame other) &&
  bool_decide (super_loci self = super_loci other).

Definition is_contained_in (self other : t) : bool :=
  bool_decide (seqid self = seqid other) &&
  bool_decide (strand self = strand other) &&
  bool_decide (frame self = frame other) &&
  (bool_decide (start other <= start self) &&
   bool_decide (end_ self <= end_ other)) &&
  bool_decide (super_loci self = super_loci other).

Definition is_plus_strand (self : t) : result bool :=
  if decide (strand self = "+") then Ok true
  else if decide (strand self = "-") then Ok false
  else Raise ValueError.

Definition upstream (self : t) : result Z :=
  match is_plus_strand self with
  | Ok true => Ok (start self)
  | Ok false => Ok (end_ self)
  | Raise e => Raise e
  end.

Definition downstream (self : t) : result Z :=
  match is_plus_strand self with
  | Ok true => Ok (end_ self)
  | Ok false => Ok (start self)
  | Raise e => Raise e
  end.
End StructuredFeature.

(** A Python [dict] with string keys whose iteration order matters: the
    entries in insertion order, at most one per key. *)
Definition dict (V : Type) : Type := list (string * V).

Fixpoint dict_get {V} (k : string) (d : dict V) : option V :=
  match d with
  | [] => None
  | (k', v) :: d' => if decide (k = k') then Some v else dict_get k d'
  end.

(** [d[k] = v]: an existing key keeps its place, a new key goes last. *)
Fixpoint dict_set {V} (k : string) (v : V) (d : dict V) : dict V :=
  match d with
  | [] => [(k, v)]
  | (k', v') :: d' =>
      if decide (k = k') then (k, v) :: d' else (k', v') :: dict_set k v d'
  end.

Fixpoint dict_pop {V} (k : string) (d : dict V) : dict V :=
  match d with
  | [] => []
  | (k', v') :: d' =>
      if decide (k = k') then d' else (k', v') :: dict_pop k d'
  end.

Definition dict_keys {V} (d : dict V) : list string := d.*1.
Definition dict_values {V} (d : dict V) : list V := d.*2.

Module SuperLoci.
(** [addr] stands for the identity of the object, against which the
    back-references of features and transcripts are compared.
    [_dummy_transcript] holds the id under which the cached dummy
    transcript is stored in [transcripts]: the cached object and the entry
    of the dictionary are one and the same object. *)
Record t := mk {
  addr : nat;
  id : string;
  type : string;
  is_partial : bool;
  is_reconstructed : bool;
  is_type_in_question : bool;
  transcripts : gmap string Transcribed.t;
  features : dict StructuredFeature.t;
  ids : list string;
  _dummy_transcript : option string
}.

Definition set_transcripts (v : gmap string Transcribed.t) (self : t) : t :=
  {| addr := addr self; id := id self; type := type self;
     is_partial := is_partial self; is_reconstructed := is_reconstructed self;
     is_type_in_question := is_type_in_question self;
     transcripts := v; features := features self; ids := ids self;
     _dummy_transcript := _dummy_transcript self |}.

Definition set_features (v : dict StructuredFeature.t) (self : t) : t :=
  {| addr := addr self; id := id self; type := type self;
     is_partial := is_partial self; is_reconstructed := is_reconstructed self;
     is_type_in_question := is_type_in_question self;
     transcripts := transcripts self; features := v; ids := ids self;
     _dummy_transcript := _dummy_transcript self |}.

Definition set_dummy (v : option string) (self : t) : t :=
  {| addr := addr self; id := id self; type := type self;
     is_partial := is_partial self; is_reconstructed := is_reconstructed self;
     is_type_in_question := is_type_in_question self;
     transcripts := transcripts self; features := features self;
     ids := ids self; _dummy_transcript := v |}.

Definition exons (self : t) : list StructuredFeature.t :=
  filter (fun f => StructuredFeature.type f = FeatureDecoder.exon)
         (dict_values (features self)).

Definition coding_info_features (self : t) : list StructuredFeature.t :=
  filter (fun f => StructuredFeature.type f ∈ FeatureDecoder.coding_info)
         (dict_values (features self)).
End SuperLoci.

(** ** The world: one genome with the locus under study *)

(** The two id makers and the species name of the [AnnotatedGenome], the
    one [SuperLoci] the methods below work on, and the records handed to
    [logging] (level and message). *)
Record World := mkWorld {
  feature_ider : IDMaker;
  transcript_ider : IDMaker;
  species : string;
  locus : SuperLoci.t;
  log : list (string * string)
}.

Definition set_locus (sl : SuperLoci.t) (w : World) : World :=
  {| feature_ider := feature_ider w; transcript_ider := transcript_ider w;
     species := species w; locus := sl; log := log w |}.

Definition set_feature_ider (m : IDMaker) (w : World) : World :=
  {| feature_ider := m; transcript_ider := transcript_ider w;
     species := species w; locus := locus w; log := log w |}.

Definition set_transcript_ider (m : IDMaker) (w : World) : World :=
  {| feature_ider := feature_ider w; transcript_ider := m;
     species := species w; locus := locus w; log := log w |}.

Definition logging (level msg : string) : M World unit :=
  modify (fun w =>
    {| feature_ider := feature_ider w; transcript_ider := transcript_ider w;
       species := species w; locus := locus w;
       log := (log w ++ [(level, msg)])%list |}).

(** [genome.feature_ider.next_unique_id(suggestion)] *)
Definition feature_next_unique_id (suggestion : option string)
  : M World string :=
  fun w => let '(new_id, m) := next_unique_id suggestion (feature_ider w) in
           (Ok new_id, set_feature_ider m w).

(** [genome.transcript_ider.next_unique_id(suggestion)] *)
Definition transcript_next_unique_id (suggestion : option string)
  : M World string :=
  fun w => let '(new_id, m) := next_unique_id suggestion (transcript_ider w) in
           (Ok new_id, set_transcript_ider m w).

(** Following a [super_loci] back-reference: [None] has no attributes, and
    only the locus of the world can be reached. *)
Definition deref (r : option nat) : M World SuperLoci.t :=
  fun w => match r with
           | None => (Raise AttributeError, w)
           | Some a =>
               if decide (a = SuperLoci.addr (locus w)) then (Ok (locus w), w)
               else (Raise Unmodelled, w)
           end.

(** The transcript object stored under [k] is replaced by its mutated
    state. *)
Definition store_transcript (k : string) (tr : Transcribed.t) : M World unit :=
  modify (fun w =>
    set_locus (SuperLoci.set_transcripts
                 (<[k := tr]> (SuperLoci.transcripts (locus w))) (locus w)) w).

Definition store_features (d : dict StructuredFeature.t) : M World unit :=
  modify (fun w => set_locus (SuperLoci.set_features d (locus w)) w).

(** [SuperLoci.dummy_transcript], returning the id of the dummy transcript. *)
Definition dummy_transcript : M World string :=
  w ← get;
  match SuperLoci._dummy_transcript (locus w) with
  | Some d => mret d
  | None =>
      new_id ← transcript_next_unique_id None;
      modify (fun w =>
        set_locus (SuperLoci.set_dummy (Some new_id) (locus w)) w);;
      store_transcript new_id (Transcribed.set_id new_id Transcribed.init);;
      mret new_id
  end.

(** ** Methods of StructuredFeature that touch the locus *)

(** State of a method call: the feature [self] and the world around it. *)
Definition St : Type := StructuredFeature.t * World.

Definition the_self : M St StructuredFeature.t := fun s => (Ok s.1, s).
Definition update_self (f : StructuredFeature.t -> StructuredFeature.t)
  : M St unit := fun s => (Ok tt, (f s.1, s.2)).
Definition world {A} (m : M World A) : M St A :=
  fun s => let '(r, w') := m s.2 in (r, (s.1, w')).
Definition of_result {S A} (r : result A) : M S A := fun s => (r, s).

(** A method run on an object that is not (yet) stored in the locus. *)
Definition with_object {A} (obj : StructuredFeature.t) (m : M St A)
  : M World (A * StructuredFeature.t) :=
  fun w => let '(r, s') := m (obj, w) in
           (match r with Ok a => Ok (a, s'.1) | Raise e => Raise e end, s'.2).

(** A method run on the feature stored under key [k]: the object in the
    dictionary carries the mutations afterwards. *)
Definition with_feature {A} (k : string) (m : M St A) : M World A :=
  fun w => match dict_get k (SuperLoci.features (locus w)) with
           | None => (Raise KeyError, w)
           | Some f =>
               let '(r, s') := m (f, w) in
               (r, set_locus
                     (SuperLoci.set_features
                        (dict_set k s'.1 (SuperLoci.features (locus s'.2)))
                        (locus s'.2)) s'.2)
           end.

(** [transcript_id] may be [None], as [add_data] passes it for an
    unresolved parent; no transcript is stored under [None]. *)
Definition link_to_transcript_and_back (transcript_id : option string)
  : M St unit :=
  self ← the_self;
  sl ← world (deref (StructuredFeature.super_loci self));
  match transcript_id with
  | None => raise KeyError
  | Some k =>
      transcript ← of_option KeyError (SuperLoci.transcripts sl !! k);
      world (store_transcript k
               (Transcribed.link_to_feature (StructuredFeature.id self)
                                            transcript));;
      update_self (fun self =>
        StructuredFeature.set_transcripts
          (StructuredFeature.transcripts self ++ [k])%list self)
  end.

Definition de_link_from_transcript (transcript_id : string) : M St unit :=
  self ← the_self;
  sl ← world (deref (StructuredFeature.super_loci self));
  transcript ← of_option KeyError (SuperLoci.transcripts sl !! transcript_id);
  transcript' ← of_result
    (Transcribed.remove_feature (StructuredFeature.id self) transcript);
  world (store_transcript transcript_id transcript');;
  i ← of_option ValueError
        (Transcribed.index transcript_id (StructuredFeature.transcripts self));
  update_self (fun self =>
    StructuredFeature.set_transcripts
      (delete i (StructuredFeature.transcripts self)) self).

Definition show_id (o : option string) : string := default "None" o.

(** The double-quote character of the log messages. *)
Definition dquote : string := String (Ascii.ascii_of_nat 34) EmptyString.

(** [StructuredFeature.add_data(super_loci, gff_entry)], with the locus of
    the world as [super_loci]. *)
Definition add_data (gff_entry : GFFObject.t) : M St unit :=
  let gffkey_error := FeatureDecoder.error in
  let fid := GFFObject.ID gff_entry in
  new_id ← world (feature_next_unique_id fid);
  w ← world get;
  update_self (fun self =>
    {| StructuredFeature.id := new_id;
       StructuredFeature.type := GFFObject.type gff_entry;
       StructuredFeature.is_partial := StructuredFeature.is_partial self;
       StructuredFeature.is_reconstructed :=
         StructuredFeature.is_reconstructed self;
       StructuredFeature.is_type_in_question :=
         StructuredFeature.is_type_in_question self;
       StructuredFeature.start := GFFObject.start gff_entry;
       StructuredFeature.end_ := GFFObject.end_ gff_entry;
       StructuredFeature.seqid := GFFObject.seqid gff_entry;
       StructuredFeature.strand := GFFObject.strand gff_entry;
       StructuredFeature.frame := StructuredFeature.frame self;
       StructuredFeature.score :=
         default (StructuredFeature.score self) (GFFObject.score gff_entry);
       StructuredFeature.source := StructuredFeature.source self;
       StructuredFeature.transcripts := StructuredFeature.transcripts self;
       StructuredFeature.super_loci := Some (SuperLoci.addr (locus w)) |});;
  let new_transcripts := GFFObject.Parent gff_entry in
  let tag := species w +:+ ":" +:+ GFFObject.seqid gff_entry +:+ ":" +:+
             show_id fid +:+ ":" +:+ new_id in
  match new_transcripts with
  | [] =>
      update_self (StructuredFeature.set_type gffkey_error);;
      world (logging "WARNING" (tag +:+ " - No Parents listed"))
  | _ => mret tt
  end;;
  for_each new_transcripts (fun transcript_id =>
    self ← the_self;
    w ← world get;
    new_t_id ←
      match SuperLoci.transcripts (locus w) !! transcript_id with
      | Some transcript =>
          world (store_transcript transcript_id
                   (Transcribed.link_to_feature (StructuredFeature.id self)
                                                transcript));;
          mret (Some transcript_id)
      | None =>
          if decide (transcript_id = SuperLoci.id (locus w)) then
            d ← world dummy_transcript;
            world (logging "INFO"
              (tag +:+ " - Parent gene instead of transcript, recreating"));;
            w ← world get;
            match SuperLoci.transcripts (locus w) !! d with
            | Some transcript =>
                world (store_transcript d
                  (Transcribed.link_to_feature (StructuredFeature.id self)
                                               transcript))
            | None => mret tt
            end;;
            mret (Some d)
          else
            update_self (StructuredFeature.set_type gffkey_error);;
            world (logging "WARNING"
              (tag +:+ " - Parent: " +:+ dquote +:+ transcript_id +:+
               dquote +:+ " not found at loci"));;
            mret None
      end;
    link_to_transcript_and_back new_t_id).

(** [StructuredFeature.clone]: a new object with a fresh id, linked to the
    transcripts of [self] when [copy_transcripts] is set, every other
    attribute copied. *)
Definition clone (self : StructuredFeature.t) (copy_transcripts : bool)
  : M World StructuredFeature.t :=
  let new :=
    StructuredFeature.set_super_loci (StructuredFeature.super_loci self)
                                     StructuredFeature.init in
  deref (StructuredFeature.super_loci self);;
  new_id ← feature_next_unique_id None;
  let new := StructuredFeature.set_id new_id new in
  linked ← with_object new
    (if copy_transcripts then
       for_each (StructuredFeature.transcripts self)
                (fun transcript => link_to_transcript_and_back (Some transcript))
     else mret tt);
  let new := linked.2 in
  mret {| StructuredFeature.id := StructuredFeature.id new;
          StructuredFeature.type := StructuredFeature.type self;
          StructuredFeature.is_partial := StructuredFeature.is_partial self;
          StructuredFeature.is_reconstructed :=
            StructuredFeature.is_reconstructed self;
          StructuredFeature.is_type_in_question :=
            StructuredFeature.is_type_in_question self;
          StructuredFeature.start := StructuredFeature.start self;
          StructuredFeature.end_ := StructuredFeature.end_ self;
          StructuredFeature.seqid := StructuredFeature.seqid self;
          StructuredFeature.strand := StructuredFeature.strand self;
          StructuredFeature.frame := StructuredFeature.frame self;
          StructuredFeature.score := StructuredFeature.score self;
          StructuredFeature.source := StructuredFeature.source self;
          StructuredFeature.transcripts := StructuredFeature.transcripts new;
          StructuredFeature.super_loci := StructuredFeature.super_loci new |}.

(** [StructuredFeature.reconstruct_exon] *)
Definition reconstruct_exon (self : StructuredFeature.t)
  : M World StructuredFeature.t :=
  exon ← clone self true;
  mret (StructuredFeature.set_type FeatureDecoder.exon exon).

(** [StructuredFeature.merge], between the features stored under
    [self_key] and [other_key]. *)
Definition merge (self_key other_key : string) : M World unit :=
  (if decide (self_key = other_key) then raise AssertionError else mret tt);;
  w ← get;
  other ← of_option KeyError (dict_get other_key (SuperLoci.features (locus w)));
  for_each (StructuredFeature.transcripts other) (fun transcript_id =>
    with_feature self_key (link_to_transcript_and_back (Some transcript_id));;
    with_feature other_key (de_link_from_transcript transcript_id)).

(** ** Structural normalisation of a locus *)

(** [sorted(features.keys())] *)
Definition sorted_keys (w : World) : list string :=
  merge_sort String.le (dict_keys (SuperLoci.features (locus w))).

(** The [for j in range(i + 1, len(feature_keys))] loop of
    [collapse_identical_features]; [feature_key] is [feature_keys[i]] and
    [o_keys] are the keys at the indices [j]. *)
Fixpoint collapse_against (feature_key : string) (o_keys : list string)
  : M World unit :=
  match o_keys with
  | [] => mret tt
  | o_key :: o_keys' =>
      w ← get;
      feature ← of_option KeyError
        (dict_get feature_key (SuperLoci.features (locus w)));
      other ← of_option KeyError
        (dict_get o_key (SuperLoci.features (locus w)));
      (if StructuredFeature.fully_overlaps feature other then
         merge feature_key o_key;;
         w ← get;
         match dict_get o_key (SuperLoci.features (locus w)) with
         | Some _ =>
             store_features (dict_pop o_key (SuperLoci.features (locus w)))
         | None => raise KeyError
         end;;
         logging "DEBUG"
           ("removing " +:+ o_key +:+ " from " +:+ SuperLoci.id (locus w) +:+
            " as it overlaps " +:+ StructuredFeature.id feature)
       else mret tt);;
      collapse_against feature_key o_keys'
  end.

(** The [while i < len(features) - 1] loop.  Every round advances [i] and
    never adds a feature, so [fuel] rounds suffice when [fuel] is at least
    the number of features. *)
Fixpoint collapse_loop (fuel : nat) (i : nat) : M World unit :=
  fun w =>
  if decide (Z.of_nat i <
             Z.of_nat (length (SuperLoci.features (locus w))) - 1) then
    match fuel with
    | O => (Raise OutOfFuel, w)
    | S fuel' =>
        let feature_keys := sorted_keys w in
        (feature_key ← of_option IndexError (feature_keys !! i);
         of_option KeyError
           (dict_get feature_key (SuperLoci.features (locus w)));;
         collapse_against feature_key (drop (S i) feature_keys);;
         collapse_loop fuel' (S i)) w
    end
  else (Ok tt, w).

(** [SuperLoci.collapse_identical_features] *)
Definition collapse_identical_features : M World unit :=
  fun w => collapse_loop (length (SuperLoci.features (locus w))) 0 w.

(** The first loop of [maybe_reconstruct_exons], collecting [new_exons]. *)
Fixpoint collect_new_exons (exons coding_info : list StructuredFeature.t)
  : M World (list StructuredFeature.t) :=
  match coding_info with
  | [] => mret []
  | f :: coding_info' =>
      if existsb (fun exon => StructuredFeature.is_contained_in f exon) exons
      then collect_new_exons exons coding_info'
      else
        e ← reconstruct_exon f;
        new_exons ← collect_new_exons exons coding_info';
        mret (e :: new_exons)
  end.

(** [SuperLoci.maybe_reconstruct_exons] *)
Definition maybe_reconstruct_exons : M World unit :=
  w ← get;
  let exons := SuperLoci.exons (locus w) in
  let coding_info := SuperLoci.coding_info_features (locus w) in
  new_exons ← collect_new_exons exons coding_info;
  for_each new_exons (fun e =>
    w ← get;
    store_features
      (dict_set (StructuredFeature.id e) e (SuperLoci.features (locus w)))).

(** ** Interval partitioning of a transcript's features *)

(** Modelled from the spec: an [Interval] of the [intervaltree] package,
    which is not part of the sources: a half-open range from 0 (section 4.5)
    with the feature it stands for. *)
Record Interval := mkInterval {
  begin : Z;
  end_ : Z;
  data : StructuredFeature.t
}.

Global Instance Interval_eq_dec : EqDecision Interval.
Proof. solve_decision. Defined.

(** Modelled from the spec: [Interval.is_null] of [intervaltree]; an
    interval holds at least one position. *)
Definition is_null (iv : Interval) : bool := bool_decide (end_ iv <= begin iv).

(** Modelled from the spec: [tree[begin:end] = data] of [intervaltree], on
    a tree given by the list of its intervals.  The tree is a set (each
    interval is stored once) and refuses null intervals. *)
Definition tree_add (iv : Interval) (tree : list Interval)
  : result (list Interval) :=
  if decide (iv ∈ tree) then Ok tree
  else if is_null iv then Raise ValueError
  else Ok (tree ++ [iv])%list.

(** Modelled from the spec: the boundary points of the tree (section 4.5),
    that is, the begins and ends of its intervals, in ascending order. *)
Definition boundaries (tree : list Interval) : list Z :=
  merge_sort Z.le (remove_dups ((begin <$> tree) ++ (end_ <$> tree))%list).

(** Modelled from the spec: [tree[point]] of [intervaltree], the intervals
    that contain the point. *)
Definition tree_at (point : Z) (tree : list Interval) : list Interval :=
  filter (fun iv => begin iv <= point < end_ iv) tree.

(** Modelled from the spec: [IntervalTree.split_overlaps] of the
    [intervaltree] package, which is not part of the sources; section 4.5
    describes it as splitting every overlapping interval at all contained
    boundary points.  Every interval is cut at each boundary of the tree
    that lies inside it: between two neighbouring boundaries, each interval
    that covers the lower one leaves a piece carrying its data.  A tree
    that is empty or has only two boundaries is left as it is. *)
Definition split_overlaps (tree : list Interval) : list Interval :=
  match tree with
  | [] => tree
  | _ =>
      let bounds := boundaries tree in
      if decide (length bounds = 2%nat) then tree
      else
        remove_dups
          (flat_map
             (fun b : Z * Z =>
                (fun iv => mkInterval b.1 b.2 (data iv)) <$> tree_at b.1 tree)
             (zip bounds (tail bounds)))
  end.

(** Modelled from the spec: the order of [Interval], by which [sorted]
    yields the ascending coordinate order of section 4.5: by [begin], then
    [end]; two intervals of the same extent whose data are features compare
    equal. *)
Definition extent_le (a b : Interval) : Prop :=
  begin a < begin b \/ (begin a = begin b /\ end_ a <= end_ b).

Global Instance extent_le_dec : RelDecision extent_le.
Proof. intros a b. unfold extent_le. apply _. Defined.

(** [sorted] is stable: an interval goes in front of the first one that is
    not strictly below it. *)
Fixpoint sorted_insert (a : Interval) (l : list Interval) : list Interval :=
  match l with
  | [] => [a]
  | b :: l' =>
      if decide (extent_le a b) then a :: b :: l' else b :: sorted_insert a l'
  end.

Definition sorted_intervals (l : list Interval) : list Interval :=
  foldr sorted_insert [] l.

(** The loop of [organize_and_split_features] over the sorted intervals,
    with the cluster [out] under construction. *)
Fixpoint cluster_loop (out : list Interval) (intervals : list Interval)
  : result (list (list Interval)) :=
  match intervals with
  | [] => Ok [out]
  | interval :: intervals' =>
      match last out with
      | None => Raise IndexError
      | Some out_last =>
          if decide (begin out_last = begin interval) then
            cluster_loop (out ++ [interval])%list intervals'
          else
            match cluster_loop [interval] intervals' with
            | Ok clusters => Ok (out :: clusters)
            | Raise e => Raise e
            end
      end
  end.

(** Filling the tree: [for f in features: tree[f.py_start:f.py_end] = f]. *)
Fixpoint fill_tree (features : list StructuredFeature.t)
    (tree : list Interval) : result (list Interval) :=
  match features with
  | [] => Ok tree
  | f :: features' =>
      match tree_add (mkInterval (StructuredFeature.py_start f)
                                 (StructuredFeature.py_end f) f) tree with
      | Ok tree' => fill_tree features' tree'
      | Raise e => Raise e
      end
  end.

(** [[self.super_loci.features[f] for f in self.features]] *)
Fixpoint lookup_features (features : dict StructuredFeature.t)
    (ids : list string) : result (list StructuredFeature.t) :=
  match ids with
  | [] => Ok []
  | f :: ids' =>
      match dict_get f features with
      | None => Raise KeyError
      | Some x =>
          match lookup_features features ids' with
          | Ok xs => Ok (x :: xs)
          | Raise e => Raise e
          end
      end
  end.

(** The tree of [organize_and_split_features] after [split_overlaps]. *)
Definition split_tree (sl : SuperLoci.t) (features : list string)
  : result (list Interval) :=
  match lookup_features (SuperLoci.features sl) features with
  | Raise e => Raise e
  | Ok fs =>
      match fill_tree fs [] with
      | Raise e => Raise e
      | Ok tree => Ok (split_overlaps tree)
      end
  end.

(** The clusters yielded from the intervals of the tree, listed in the
    order [enumeration] in which the tree hands them to [sorted]. *)
Definition clusters_of (enumeration : list Interval)
  : result (list (list Interval)) :=
  match sorted_intervals enumeration with
  | [] => Raise RuntimeError
  | first :: intervals => cluster_loop [first] intervals
  end.

(** [TranscriptInterpreter.organize_and_split_features], for the interpreter
    whose [features] attribute is the list [features] of ids.  The tree
    stores a set, so the order in which it is iterated is not determined:
    [o] is a possible result when it arises from some enumeration of the
    tree. *)
Definition organize_and_split_features (sl : SuperLoci.t)
    (features : list string) (o : result (list (list Interval))) : Prop :=
  match split_tree sl features with
  | Raise e => o = Raise e
  | Ok tree => exists enumeration, enumeration ≡ₚ tree /\ o = clusters_of enumeration
  end.

(** Coordinates of an interval, inclusive and from 1. *)
Definition upstream_from_interval (self : StructuredFeature.t)
    (interval : Interval) : result Z :=
  match StructuredFeature.is_plus_strand self with
  | Ok true => Ok (begin interval + 1)
  | Ok false => Ok (end_ interval)
  | Raise e => Raise e
  end.

Definition downstream_from_interval (self : StructuredFeature.t)
    (interval : Interval) : result Z :=
  match StructuredFeature.is_plus_strand self with
  | Ok true => Ok (end_ interval)
  | Ok false => Ok (begin interval + 1)
  | Raise e => Raise e
  end.

(** ** The transcript status machine *)

(** [TranscriptInterpreter.get_status]: the pair [(current, pre_intron)]. *)
Definition get_status (last_seen pre_intron : string)
  : result (string * string) :=
  if decide (last_seen ∈ FeatureDecoder.statuses) then
    Ok (last_seen, pre_intron)
  else if decide (last_seen = FeatureDecoder.TSS) then
    Ok (FeatureDecoder.status_five_prime_UTR,
        FeatureDecoder.status_five_prime_UTR)
  else if decide (last_seen = FeatureDecoder.start_codon) then
    Ok (FeatureDecoder.status_coding, FeatureDecoder.status_coding)
  else if decide (last_seen = FeatureDecoder.stop_codon) then
    Ok (FeatureDecoder.status_three_prime_UTR,
        FeatureDecoder.status_three_prime_UTR)
  else if decide (last_seen = FeatureDecoder.TTS) then
    Ok (FeatureDecoder.status_intergenic, FeatureDecoder.status_intergenic)
  else if decide (last_seen = FeatureDecoder.donor_splice_site) then
    Ok (FeatureDecoder.status_intron, pre_intron)
  else if decide (last_seen = FeatureDecoder.acceptor_splice_site) then
    Ok (pre_intron, pre_intron)
  else Raise ValueError.

(** [TranscriptInterpreter.possible_types] *)
Definition possible_types (intervals : list Interval) : result (list string) :=
  let cds := FeatureDecoder.cds in
  let five_prime := FeatureDecoder.five_prime_UTR in
  let exon := FeatureDecoder.exon in
  let three_prime := FeatureDecoder.three_prime_UTR in
  let observed_types := (fun x => StructuredFeature.type (data x)) <$> intervals in
  let set_o_types : gset string := list_to_set observed_types in
  if decide (length intervals ∉ [1%nat; 2%nat]) then Raise ValueError
  else if decide (set_o_types = {[ exon; five_prime ]} \/
                  set_o_types = {[ five_prime ]}) then Ok [five_prime]
  else if decide (set_o_types = {[ exon; three_prime ]} \/
                  set_o_types = {[ three_prime ]}) then Ok [three_prime]
  else if decide (set_o_types = {[ exon ]}) then Ok [five_prime; three_prime]
  else if decide (set_o_types = {[ cds; exon ]} \/
                  set_o_types = {[ cds ]}) then Ok [cds]
  else Raise ValueError.

(** The two kinds of Python value that meet in the status test of
    [interpret_transition]: a string, and the pair [get_status] returns. *)
Inductive pyobj :=
  | PyStr (s : string)
  | PyPair (a b : string).

(** Python's [==] on these values: a tuple never equals a string. *)
Definition py_eq (x y : pyobj) : bool :=
  match x, y with
  | PyStr s, PyStr t => bool_decide (s = t)
  | PyPair a b, PyPair c d => bool_decide (a = c) && bool_decide (b = d)
  | _, _ => false
  end.

(** The branch of [interpret_transition] under the test
    [status_in == five_prime_UTR].  In the start codon case the assertion
    reads the attribute [begin] of a [StructuredFeature], which has none,
    so the evaluation stops there with [AttributeError]. *)
Definition five_prime_transition (before_types after_types : list string)
    (ivals_before ivals_after : list Interval) (sign : Z)
  : M World (list StructuredFeature.t) :=
  if decide (FeatureDecoder.five_prime_UTR ∈ before_types /\
             FeatureDecoder.cds ∈ after_types) then
    cds_template ← of_option IndexError (data <$> head ivals_after);
    before ← of_option IndexError (data <$> head ivals_before);
    raise AttributeError
  else if decide (FeatureDecoder.five_prime_UTR ∈ before_types /\
                  FeatureDecoder.five_prime_UTR ∈ after_types) then
    donor_template ← of_option IndexError (data <$> head ivals_before);
    acceptor_template ← of_option IndexError (data <$> head ivals_after);
    d ← of_result (StructuredFeature.downstream donor_template);
    u ← of_result (StructuredFeature.upstream acceptor_template);
    (if decide (d * sign < u * sign) then mret tt else raise AssertionError);;
    donor ← clone donor_template true;
    dd ← of_result (StructuredFeature.downstream donor);
    let donor :=
      StructuredFeature.set_span (dd + 1 * sign) (dd + 1 * sign) donor in
    acceptor ← clone acceptor_template true;
    au ← of_result (StructuredFeature.upstream acceptor);
    let acceptor :=
      StructuredFeature.set_span (au - 1 * sign) (au - 1 * sign) acceptor in
    mret [donor; acceptor]
  else raise ValueError.

(** [TranscriptInterpreter.interpret_transition]; the result is the list
    held by the one-element tuple the method returns.  [status_in] is bound
    to the whole pair returned by [get_status]. *)
Definition interpret_transition (last_feature : StructuredFeature.t)
    (pre_intron_status : string) (ivals_before ivals_after : list Interval)
    (plus_strand : bool) : M World (list StructuredFeature.t) :=
  st ← of_result (get_status (StructuredFeature.type last_feature)
                             pre_intron_status);
  let status_in := PyPair st.1 st.2 in
  let sign := if plus_strand then 1 else -1 in
  before_types ← of_result (possible_types ivals_before);
  after_types ← of_result (possible_types ivals_after);
  let new_features := [] in
  if py_eq status_in (PyStr FeatureDecoder.five_prime_UTR) then
    five_prime_transition before_types after_types ivals_before ivals_after sign
  else mret new_features.

(** ** Building a locus from a group of records *)

(** [SuperLoci.one_parent] *)
Definition one_parent (entry : GFFObject.t) : result string :=
  match GFFObject.Parent entry with
  | [parent] => Ok parent
  | _ => Raise AssertionError
  end.

(** [SuperLoci.add_gff_entry].  The ids of genes and transcripts are
    strings: a gene or transcript record without id is outside the model. *)
Definition add_gff_entry (entry : GFFObject.t) : M World unit :=
  if decide (GFFObject.type entry = FeatureDecoder.gene) then
    gene_id ← of_option Unmodelled (GFFObject.ID entry);
    modify (fun w =>
      let sl := locus w in
      set_locus
        {| SuperLoci.addr := SuperLoci.addr sl; SuperLoci.id := gene_id;
           SuperLoci.type := FeatureDecoder.gene;
           SuperLoci.is_partial := SuperLoci.is_partial sl;
           SuperLoci.is_reconstructed := SuperLoci.is_reconstructed sl;
           SuperLoci.is_type_in_question := SuperLoci.is_type_in_question sl;
           SuperLoci.transcripts := SuperLoci.transcripts sl;
           SuperLoci.features := SuperLoci.features sl;
           SuperLoci.ids := (SuperLoci.ids sl ++ [gene_id])%list;
           SuperLoci._dummy_transcript := SuperLoci._dummy_transcript sl |} w)
  else if decide (GFFObject.type entry ∈ FeatureDecoder.transcribed) then
    parent ← of_result (one_parent entry);
    w ← get;
    (if decide (parent = SuperLoci.id (locus w)) then mret tt
     else raise AssertionError);;
    transcript_id ← of_option Unmodelled (GFFObject.ID entry);
    store_transcript transcript_id
      {| Transcribed.id := transcript_id;
         Transcribed.type := GFFObject.type entry;
         Transcribed.is_partial := false;
         Transcribed.is_reconstructed := false;
         Transcribed.is_type_in_question := false;
         Transcribed.super_loci := Some (SuperLoci.addr (locus w));
         Transcribed.features := [] |}
  else if decide (GFFObject.type entry ∈ FeatureDecoder.on_sequence) then
    added ← with_object StructuredFeature.init (add_data entry);
    let feature := added.2 in
    w ← get;
    store_features
      (dict_set (StructuredFeature.id feature) feature
                (SuperLoci.features (locus w)))
  else mret tt.

(** [SuperLoci._mark_erroneous] *)
Definition _mark_erroneous (entry : GFFObject.t) : M World unit :=
  (if decide (GFFObject.type entry ∈ FeatureDecoder.gene_level) then mret tt
   else raise AssertionError);;
  new_id ← feature_next_unique_id None;
  let feature :=
    StructuredFeature.set_id new_id
      (StructuredFeature.set_type FeatureDecoder.error
         (StructuredFeature.set_span (GFFObject.start entry)
            (GFFObject.end_ entry) StructuredFeature.init)) in
  w ← get;
  logging "WARNING"
    (species w +:+ ":" +:+ GFFObject.seqid entry +:+ ", " +:+
     pretty (GFFObject.start entry) +:+ "-" +:+ pretty (GFFObject.end_ entry) +:+
     ":" +:+ SuperLoci.id (locus w) +:+ " by " +:+ GFFObject.source entry +:+
     ", No valid features found - marking erroneous");;
  store_features (dict_set new_id feature (SuperLoci.features (locus w))).

(** [SuperLoci.check_and_fix_structure] *)
Definition check_and_fix_structure (entries : list GFFObject.t)
  : M World unit :=
  w ← get;
  match SuperLoci.features (locus w) with
  | [] => entry ← of_option IndexError (head entries); _mark_erroneous entry
  | _ => mret tt
  end;;
  collapse_identical_features;;
  maybe_reconstruct_exons.

(** [SuperLoci.add_gff_entry_group] *)
Definition add_gff_entry_group (entries : list GFFObject.t) : M World unit :=
  for_each entries add_gff_entry;;
  check_and_fix_structure entries.

(** [SuperLoci(genome)]: a new, empty locus, the object at address [a]. *)
Definition SuperLoci_init (a : nat) : SuperLoci.t :=
  {| SuperLoci.addr := a; SuperLoci.id := ""; SuperLoci.type := "";
     SuperLoci.is_partial := false; SuperLoci.is_reconstructed := false;
     SuperLoci.is_type_in_question := false; SuperLoci.transcripts := ∅;
     SuperLoci.features := []; SuperLoci.ids := [];
     SuperLoci._dummy_transcript := None |}.

(** [AnnotatedGenome()] holding one new locus. *)
Definition World_init (species : string) (a : nat) : World :=
  {| feature_ider := IDMaker_init "ftr" 6;
     transcript_ider := IDMaker_init "trx" 6;
     species := species; locus := SuperLoci_init a; log := [] |}.

(** ** Vocabulary of the statements *)

(** Every coding-info feature of the locus lies within one of its exons. *)
Definition exons_cover_coding_info (sl : SuperLoci.t) : bool :=
  forallb
    (fun f => existsb (fun exon => StructuredFeature.is_contained_in f exon)
                      (SuperLoci.exons sl))
    (SuperLoci.coding_info_features sl).

(** Two intervals have the same extent, or no position in common. *)
Definition same_or_disjoint (a b : Interval) : Prop :=
  (begin a = begin b /\ end_ a = end_ b) \/
  end_ a <= begin b \/ end_ b <= begin a.

(** A feature without its links: what [fully_overlaps] and
    [is_contained_in] can see of it, and more. *)
Definition core (f : StructuredFeature.t) : StructuredFeature.t :=
  StructuredFeature.set_transcripts [] f.

(** [fully_overlaps] between the features stored under two keys. *)
Definition ov (d : dict StructuredFeature.t) (a b : string) : bool :=
  match dict_get a d, dict_get b d with
  | Some fa, Some fb => StructuredFeature.fully_overlaps fa fb
  | _, _ => false
  end.

(** [d'] is [d] without the keys [removed], up to the links of the
    features that stay. *)
Definition evolves (removed : list string) (d d' : dict StructuredFeature.t)
  : Prop :=
  dict_keys d' = filter (fun x => x ∉ removed) (dict_keys d) /\
  forall x, x ∉ removed -> core <$> dict_get x d' = core <$> dict_get x d.

(** No two features of the dictionary fully overlap. *)
Definition overlap_free (d : dict StructuredFeature.t) : Prop :=
  forall a b, a <> b -> ov d a b = false.

(** The features under the keys [ks] fully overlap no other feature. *)
Definition settled (d : dict StructuredFeature.t) (ks : list string) : Prop :=
  forall ka kb, ka ∈ ks -> kb <> ka -> ov d ka kb = false.

(** The bases an interval covers, inclusive and from 1: its ends as
    [upstream_from_interval] and [downstream_from_interval] give them on the
    plus strand. *)
Definition bases (iv : Interval) : Z * Z := (begin iv + 1, end_ iv).

(** The computation never stops for want of fuel. *)
Definition fuel_free {S A} (m : M S A) : Prop :=
  forall s, (m s).1 <> Raise OutOfFuel.

(** The ids an id maker can still synthesize: its prefix followed by the
    padded numeral of a number from its counter on. *)
Definition ids_to_come (m : IDMaker) (x : string) : Prop :=
  exists j, (_counter m <= j)%nat /\
            x = prefix m +:+ zero_pad (_width m) (pretty j).

(** Type and span of the features of a result. *)
Definition summary (r : result (list StructuredFeature.t))
  : result (list (string * Z * Z)) :=
  match r with
  | Ok fs => Ok ((fun f => (StructuredFeature.type f, StructuredFeature.start f,
                            StructuredFeature.end_ f)) <$> fs)
  | Raise e => Raise e
  end.

(** ** Sample inputs *)

(** A record on the plus strand of [chr1]. *)
Definition gff_record (type : string) (ID : option string)
    (Parent : list string) (start end_ : Z) (phase : string) : GFFObject.t :=
  {| GFFObject.seqid := "chr1"; GFFObject.source := "src";
     GFFObject.type := type; GFFObject.start := start;
     GFFObject.end_ := end_; GFFObject.score := None;
     GFFObject.strand := "+"; GFFObject.phase := phase;
     GFFObject.ID := ID; GFFObject.Parent := Parent |}.

(** A gene with one transcript, the same exon given twice and the same CDS
    given twice. *)
Definition duplicated_group : list GFFObject.t :=
  [gff_record "gene" (Some "g1") [] 1 300 ".";
   gff_record "mRNA" (Some "t1") ["g1"] 1 300 ".";
   gff_record "exon" (Some "a") ["t1"] 1 100 ".";
   gff_record "exon" (Some "b") ["t1"] 1 100 ".";
   gff_record "CDS" (Some "c1") ["t1"] 200 300 "0";
   gff_record "CDS" None ["t1"] 200 300 "0"].

(** The locus after the records of [duplicated_group] are added, before
    its structure is checked. *)
Definition duplicated_world : World :=
  (for_each duplicated_group add_gff_entry (World_init "sp" 0)).2.

(** A feature of the locus at address 0, on the plus strand of [chr1],
    linked to the transcript [t1]. *)
Definition sample_feature (id type : string) (start end_ : Z)
    (frame : string) : StructuredFeature.t :=
  {| StructuredFeature.id := id; StructuredFeature.type := type;
     StructuredFeature.is_partial := false;
     StructuredFeature.is_reconstructed := false;
     StructuredFeature.is_type_in_question := false;
     StructuredFeature.start := start; StructuredFeature.end_ := end_;
     StructuredFeature.seqid := "chr1"; StructuredFeature.strand := "+";
     StructuredFeature.frame := frame; StructuredFeature.score := (-1)%Q;
     StructuredFeature.source := ""; StructuredFeature.transcripts := ["t1"];
     StructuredFeature.super_loci := Some 0%nat |}.

(** A locus with the transcript [t1] and the given features, each stored
    under its id. *)
Definition sample_locus (features : list StructuredFeature.t) : SuperLoci.t :=
  {| SuperLoci.addr := 0; SuperLoci.id := "g1"; SuperLoci.type := "gene";
     SuperLoci.is_partial := false; SuperLoci.is_reconstructed := false;
     SuperLoci.is_type_in_question := false;
     SuperLoci.transcripts :=
       {[ "t1" := {| Transcribed.id := "t1"; Transcribed.type := "mRNA";
                     Transcribed.is_partial := false;
                     Transcribed.is_reconstructed := false;
                     Transcribed.is_type_in_question := false;
                     Transcribed.super_loci := Some 0%nat;
                     Transcribed.features :=
                       StructuredFeature.id <$> features |} ]};
     SuperLoci.features := (fun f => (StructuredFeature.id f, f)) <$> features;
     SuperLoci.ids := ["g1"]; SuperLoci._dummy_transcript := None |}.

(** Two CDS features spanning 1-100 and 50-150. *)
Definition cds_1_100 : StructuredFeature.t :=
  sample_feature "c1" FeatureDecoder.cds 1 100 "0".
Definition cds_50_150 : StructuredFeature.t :=
  sample_feature "c2" FeatureDecoder.cds 50 150 "0".

(** A world around [sample_locus], with new id makers. *)
Definition sample_world (features : list StructuredFeature.t) : World :=
  {| feature_ider := IDMaker_init "ftr" 6;
     transcript_ider := IDMaker_init "trx" 6;
     species := "sp"; locus := sample_locus features; log := [] |}.

(** A gene and its transcript. *)
Definition gene_and_transcript : list GFFObject.t :=
  [gff_record "gene" (Some "g1") [] 1 300 ".";
   gff_record "mRNA" (Some "t1") ["g1"] 1 300 "."].

(** The locus after the records of [gene_and_transcript] are added. *)
Definition one_transcript_world : World :=
  (for_each gene_and_transcript add_gff_entry (World_init "sp" 0)).2.

(** An exon of the transcript [t1]. *)
Definition exon_of_t1 : GFFObject.t :=
  gff_record "exon" (Some "e1") ["t1"] 1 100 ".".

(** An exon whose parent [t2] is neither a transcript of the locus nor the
    gene. *)
Definition orphan_exon : GFFObject.t :=
  gff_record "exon" (Some "e0") ["t2"] 1 100 ".".

(** A gene whose first exon is an orphan and whose second exon is sound. *)
Definition orphan_group : list GFFObject.t :=
  gene_and_transcript ++ [orphan_exon; exon_of_t1].

(** A gene followed by a pseudogene, each with a transcript. *)
Definition pseudogene_stream : list GFFObject.t :=
  [gff_record "gene" (Some "g1") [] 1 300 ".";
   gff_record "mRNA" (Some "t1") ["g1"] 1 300 ".";
   gff_record "pseudogene" (Some "p1") [] 500 800 ".";
   gff_record "pseudogenic_transcript" (Some "pt1") ["p1"] 500 800 "."].

(** A gene whose exon carries an id of the form the feature id maker
    synthesizes, with a 5'UTR inside that exon and a CDS outside of it. *)
Definition clashing_group : list GFFObject.t :=
  gene_and_transcript ++
  [gff_record "exon" (Some "ftr000000") ["t1"] 1 100 ".";
   gff_record "five_prime_UTR" (Some "u1") ["t1"] 10 20 ".";
   gff_record "CDS" (Some "c1") ["t1"] 200 300 "0"].

(** Features around the start of a transcript: the TSS emitted last, a
    5'UTR on bases 1-10, a second 5'UTR next to it and one after a gap, a
    CDS next to the first 5'UTR and one after a gap. *)
Definition tss_1 : StructuredFeature.t :=
  sample_feature "s1" FeatureDecoder.TSS 1 1 ".".
Definition utr_1_10 : StructuredFeature.t :=
  sample_feature "u1" FeatureDecoder.five_prime_UTR 1 10 ".".
Definition utr_11_20 : StructuredFeature.t :=
  sample_feature "u2" FeatureDecoder.five_prime_UTR 11 20 ".".
Definition utr_21_30 : StructuredFeature.t :=
  sample_feature "u3" FeatureDecoder.five_prime_UTR 21 30 ".".
Definition cds_11_30 : StructuredFeature.t :=
  sample_feature "c1" FeatureDecoder.cds 11 30 "0".
Definition cds_21_30 : StructuredFeature.t :=
  sample_feature "c2" FeatureDecoder.cds 21 30 "0".

(** An acceptor splice site emitted last, with which [get_status] restores
    the status from before the intron. *)
Definition acceptor_10 : StructuredFeature.t :=
  sample_feature "a1" FeatureDecoder.acceptor_splice_site 10 10 ".".

(** The interval the partitioner stores for a feature. *)
Definition interval_of (f : StructuredFeature.t) : Interval :=
  mkInterval (StructuredFeature.py_start f) (StructuredFeature.py_end f) f.

Definition start_world : World :=
  sample_world [utr_1_10; utr_11_20; utr_21_30; cds_11_30; cds_21_30].

(** ** Further methods of the interpreter and of the sequence tools *)

(** The id maker after a sequence of calls of [next_unique_id]. *)
Fixpoint run_calls (calls : list (option string)) (self : IDMaker) : IDMaker :=
  match calls with
  | [] => self
  | suggestion :: calls' => run_calls calls' (next_unique_id suggestion self).2
  end.

(** [print(...)]: the line goes to the log of the world, under the level
    [stdout]. *)
Definition print (line : string) : M World unit := logging "stdout" line.

(** [TranscriptStatus()] *)
Module TranscriptStatus.
Record t := mk {
  genic : bool;
  in_intron : bool;
  seen_start : bool;
  seen_stop : bool
}.

Definition init : t :=
  {| genic := true; in_intron := false; seen_start := false;
     seen_stop := false |}.
End TranscriptStatus.

(** The attributes of a [TranscriptInterpreter]: [super_loci] is the
    reference to the locus of the transcript, [transcript] the id of the
    transcript it was made for, and [features] the list of ids that
    [organize_and_split_features] looks up in the locus.  The attribute
    [gffkey] is the vocabulary [FeatureDecoder], the same for all. *)
Module TranscriptInterpreter.
Record t := mk {
  status : TranscriptStatus.t;
  super_loci : option nat;
  transcript : string;
  features : list string
}.

(** [TranscriptInterpreter(transcript)]: reading [genome] from the locus of
    a transcript without locus stops with [AttributeError]; [features]
    starts empty, and no method of the class assigns it or adds to it. *)
Definition init (transcript : Transcribed.t) : result t :=
  match Transcribed.super_loci transcript with
  | None => Raise AttributeError
  | Some a =>
      Ok {| status := TranscriptStatus.init; super_loci := Some a;
            transcript := Transcribed.id transcript; features := [] |}
  end.
End TranscriptInterpreter.

(** [TranscriptInterpreter.interpret_first_pos]: the new features and the
    status before the first intron.  The list [new_features] holds the
    object [feature0], so it shows the span assigned to [feature0] at the
    end.  In the CDS case [cds_feature] is an interval of the tree, and an
    [Interval] has no method [clone], so the call [cds_feature.clone()]
    stops the evaluation with [AttributeError]. *)
Definition interpret_first_pos (intervals : list Interval) (plus_strand : bool)
  : M World (list StructuredFeature.t * string) :=
  i0 ← of_option IndexError (head intervals);
  at_ ← of_result (upstream_from_interval (data i0) i0);
  print ("at " +:+ pretty at_);;
  possible ← of_result (possible_types intervals);
  if decide (FeatureDecoder.five_prime_UTR ∈ possible) then
    feature0 ← clone (data i0) true;
    let feature0 := StructuredFeature.set_type FeatureDecoder.TSS feature0 in
    let pre_intron_status := FeatureDecoder.five_prime_UTR in
    let feature0 := StructuredFeature.set_span at_ at_ feature0 in
    mret ([feature0], pre_intron_status)
  else if decide (FeatureDecoder.cds ∈ possible) then
    cds_feature ← of_option IndexError
      (head (filter (fun x => StructuredFeature.type (data x) =
                                FeatureDecoder.cds) intervals));
    raise AttributeError
  else raise ValueError.

(** Python's [sequence[start:stop]] for integers [start] and [stop]: a
    negative index counts from the end, and both are clamped to the
    sequence. *)
Definition py_slice {A} (sequence : list A) (start stop : Z) : list A :=
  let len := Z.of_nat (length sequence) in
  let clamp i := if decide (i < 0) then Z.max (i + len) 0 else Z.min i len in
  let a := clamp start in
  let b := clamp stop in
  take (Z.to_nat (b - a)) (drop (Z.to_nat a) sequence).

(** [range(n)] *)
Definition py_range (n : Z) : list Z := seqZ 0 n.

(** [gen_mers] of [helixer_prep.py], over a sequence of any kind of
    characters: the values the generator yields. *)
Definition gen_mers {A} (sequence : list A) (k : Z) : list (list A) :=
  (fun i => py_slice sequence i (i + k))
    <$> py_range (Z.of_nat (length sequence) - k).

(** [itertools.product(alphabet, repeat=k)], each tuple joined to a
    string. *)
Fixpoint product_mers (alphabet : list ascii) (k : nat) : list string :=
  match k with
  | O => [""]
  | S k' =>
      flat_map (fun c => String c <$> product_mers alphabet k') alphabet
  end.

(** [MerCounter]: the field [counts]; [amb] is the key of the ambiguous
    mers. *)
Module MerCounter.
Definition amb : string := "ambiguous_mers".

(** [MerCounter(k).counts] *)
Definition init (k : nat) : dict Z :=
  dict_set amb 0
    (foldl (fun counts mer => dict_set mer 0 counts) []
           (product_mers ["a"; "t"; "c"; "g"]%char k)).



End MerCounter.

(** The values [add_paired_dictionaries] of [helixer_prep.py] works on:
    integers, and dictionaries of such values under integer or string
    keys. *)
Inductive pykey :=
  | KInt (n : Z)
  | KStr (s : string).

Global Instance pykey_eq_dec : EqDecision pykey.
Proof. solve_decision. Defined.

#[warnings="-register-all"] Inductive pyval :=
  | PInt (n : Z)
  | PDict (items : list (pykey * pyval)).

(** [d[key]] *)
Fixpoint lookup_item (key : pykey) (d : list (pykey * pyval)) : option pyval :=
  match d with
  | [] => None
  | (key', v) :: d' =>
      if decide (key = key') then Some v else lookup_item key d'
  end.

(** [d[key] = v] *)
Fixpoint set_item (key : pykey) (v : pyval) (d : list (pykey * pyval))
  : list (pykey * pyval) :=
  match d with
  | [] => [(key, v)]
  | (key', v') :: d' =>
      if decide (key = key') then (key, v) :: d'
      else (key', v') :: set_item key v d'
  end.

(** [add_paired_dictionaries(add_to, add_from)] for a dictionary [add_to]
    and a value [add_from]; [None] stands for the [TypeError] of Python:
    iterating over an integer, or adding a dictionary to an integer. *)
Fixpoint add_paired (add_from : pyval) (add_to : list (pykey * pyval))
  : option (list (pykey * pyval)) :=
  match add_from with
  | PInt _ => None
  | PDict items =>
      (fix go (items : list (pykey * pyval)) (add_to : list (pykey * pyval))
         : option (list (pykey * pyval)) :=
         match items with
         | [] => Some add_to
         | (key, v) :: items' =>
             match lookup_item key add_to with
             | None => go items' (set_item key v add_to)
             | Some (PDict sub) =>
                 match add_paired v sub with
                 | Some merged => go items' (set_item key (PDict merged) add_to)
                 | None => None
                 end
             | Some (PInt n) =>
                 match v with
                 | PInt m => go items' (set_item key (PInt (n + m)) add_to)
                 | PDict _ => None
                 end
             end
         end) items add_to
  end.

(** [add_paired_dictionaries] on two dictionaries. *)
Definition add_paired_dictionaries (add_to add_from : list (pykey * pyval))
  : option (list (pykey * pyval)) :=
  add_paired (PDict add_from) add_to.

(** What [add_paired_dictionaries] makes of the two values found under one
    key. *)
Definition paired (to from : option pyval) : option (option pyval) :=
  match to, from with
  | _, None => Some to
  | None, Some v => Some (Some v)
  | Some (PDict sub), Some v => (fun merged => Some (PDict merged)) <$> add_paired v sub
  | Some (PInt n), Some (PInt m) => Some (Some (PInt (n + m)))
  | Some (PInt _), Some (PDict _) => None
  end.

(** * Properties of the embedding *)


(** ** Reasoning in the state monad *)

Lemma bind_Ok_inv {S A B} (m : M S A) (k : A -> M S B) s b s' :
  (m ≫= k) s = (Ok b, s') ->
  exists a s1, m s = (Ok a, s1) /\ k a s1 = (Ok b, s').
Proof.
  unfold mbind, M_bind. destruct (m s) as [[a|e] s1]; intros H.
  - eauto.
  - discriminate.
Qed.

Lemma of_option_Ok_inv {S A} e (o : option A) (s s' : S) a :
  of_option e o s = (Ok a, s') -> o = Some a /\ s' = s.
Proof.
  destruct o; unfold of_option, raise, mret, M_ret; intros H; by simplify_eq.
Qed.

(** Splits a successful run of [x ← m; k] in the hypotheses into the run of
    [m] and the run of [k]. *)
Tactic Notation "bind_inv" hyp(H) "as" ident(a) ident(s) ident(H1) :=
  apply bind_Ok_inv in H as (a & s & H1 & H).

(** Unfolds the monadic plumbing of the methods. *)
Ltac unfold_monad :=
  unfold store_transcript, store_features, logging, of_option, of_result,
    the_self, world, update_self, deref, raise, get, put, modify,
    mbind, M_bind, mret, M_ret in *.

Local Abbreviation feats w := (SuperLoci.features (locus w)).

(** ** Lists and strings *)

Lemma filter_all {A} (P : A -> Prop) `{forall x, Decision (P x)} (l : list A) :
  Forall P l -> filter P l = l.
Proof.
  induction 1 as [|x l Hx Hl IH]; [done|].
  rewrite filter_cons_True by done. by f_equal.
Qed.

Lemma filter_ext_in {A} (P Q : A -> Prop) `{forall x, Decision (P x)}
    `{forall x, Decision (Q x)} (l : list A) :
  (forall x, x ∈ l -> P x <-> Q x) -> filter P l = filter Q l.
Proof.
  induction l as [|x l IH]; intros HPQ; [done|].
  assert (filter P l = filter Q l) as IH'.
  { apply IH. intros y Hy. apply HPQ. by apply list_elem_of_further. }
  destruct (decide (P x)) as [HP|HP].
  - rewrite !filter_cons_True; [by f_equal | | done].
    apply HPQ; [apply list_elem_of_here | done].
  - rewrite !filter_cons_False; [done | | done].
    intros HQ. apply HP, HPQ; [apply list_elem_of_here | done].
Qed.

Lemma StronglySorted_filter {A} (R : relation A) (P : A -> Prop)
    `{forall x, Decision (P x)} (l : list A) :
  StronglySorted R l -> StronglySorted R (filter P l).
Proof.
  induction 1 as [|x l Hl IH Hx]; [constructor|].
  destruct (decide (P x)).
  - rewrite filter_cons_True by done. constructor; [done|].
    apply Forall_forall. intros y Hy. apply list_elem_of_filter in Hy as [_ Hy].
    rewrite Forall_forall in Hx. auto.
  - by rewrite filter_cons_False.
Qed.

Lemma string_app_nil (t : string) : "" +:+ t = t.
Proof. reflexivity. Qed.

Lemma string_app_cons c (s t : string) :
  String c s +:+ t = String c (s +:+ t).
Proof. reflexivity. Qed.

Lemma string_app_length (s t : string) :
  String.length (s +:+ t) = (String.length s + String.length t)%nat.
Proof.
  induction s as [|c s IH]; [done|].
  rewrite string_app_cons. simpl. by rewrite IH.
Qed.

Lemma string_app_assoc (s t u : string) : (s +:+ t) +:+ u = s +:+ (t +:+ u).
Proof.
  induction s as [|c s IH]; [done|].
  by rewrite !string_app_cons, IH.
Qed.

(** ** IDMaker *)

Lemma zeros_add a b : zeros (a + b) = zeros a +:+ zeros b.
Proof.
  induction a as [|a IH]; simpl; [done|].
  by rewrite string_app_cons, IH.
Qed.

Lemma zeros_length n : String.length (zeros n) = n.
Proof. induction n as [|n IH]; simpl; [done|]. by rewrite IH. Qed.

(** The numeral of a positive number starts with a digit other than 0. *)
Lemma pretty_N_go_head x s :
  (0 < x)%N ->
  exists c rest, pretty_N_go x s = String c rest /\ c <> "0"%char.
Proof.
  revert s. induction (N.lt_wf_0 x) as [x _ IH]; intros s Hx.
  rewrite pretty_N_go_step by done.
  destruct (decide (x `div` 10 = 0)%N) as [Hdiv|Hdiv].
  - rewrite Hdiv, pretty_N_go_0. eexists _, _. split; [done|].
    apply N.div_small_iff in Hdiv; [|done].
    rewrite N.mod_small by done.
    assert (x = 1 \/ x = 2 \/ x = 3 \/ x = 4 \/ x = 5 \/ x = 6 \/ x = 7 \/
            x = 8 \/ x = 9)%N as Hcases by lia.
    repeat (destruct Hcases as [->|Hcases]; [done|]). by subst.
  - apply IH.
    + apply N.div_lt; lia.
    + apply N.neq_0_lt_0. done.
Qed.

Lemma pretty_nat_head (n : nat) :
  (0 < n)%nat ->
  exists c rest, pretty n = String c rest /\ c <> "0"%char.
Proof.
  intros Hn. unfold pretty, pretty_nat, pretty, pretty_N.
  rewrite decide_False by lia. apply pretty_N_go_head. lia.
Qed.

Lemma pretty_nat_nonempty (n : nat) : (0 < String.length (pretty n))%nat.
Proof.
  destruct n as [|n]; [simpl; lia|].
  destruct (pretty_nat_head (S n)) as (c & rest & -> & _); [lia|]. simpl. lia.
Qed.

(** Padding with zeros keeps numerals apart. *)
Lemma zero_pad_inj w (a b : nat) :
  zero_pad w (pretty a) = zero_pad w (pretty b) -> a = b.
Proof.
  assert (forall (a b : nat) ka kb, (ka < kb)%nat ->
            zeros ka +:+ pretty a = zeros kb +:+ pretty b -> False) as Hlt.
  { clear a b. intros a b ka kb Hk Heq.
    replace kb with (ka + S (kb - ka - 1))%nat in Heq by lia.
    rewrite zeros_add, string_app_assoc in Heq.
    apply (inj (String.app (zeros ka))) in Heq.
    simpl in Heq. rewrite string_app_cons in Heq.
    destruct a as [|a].
    - change (pretty 0%nat) with "0" in Heq.
      injection Heq as Heq.
      pose proof (pretty_nat_nonempty b) as Hb.
      apply (f_equal String.length) in Heq.
      rewrite string_app_length in Heq. simpl in Heq. lia.
    - destruct (pretty_nat_head (S a)) as (c & rest & Hc & Hne); [lia|].
      rewrite Hc in Heq. injection Heq as Heq _. done. }
  unfold zero_pad. intros Heq.
  destruct (lt_eq_lt_dec (w - String.length (pretty a))
                         (w - String.length (pretty b))) as [[Hk|Hk]|Hk].
  - exfalso. by eapply Hlt.
  - rewrite Hk in Heq. apply (inj (String.app _)) in Heq.
    by apply (inj pretty) in Heq.
  - exfalso. symmetry in Heq. by eapply Hlt.
Qed.

Lemma fmt_id_inj m1 m2 :
  prefix m1 = prefix m2 -> _width m1 = _width m2 ->
  _fmt_id m1 = _fmt_id m2 -> _counter m1 = _counter m2.
Proof.
  unfold _fmt_id. intros -> -> Heq.
  apply (inj (String.app _)) in Heq. by eapply zero_pad_inj.
Qed.

Lemma ids_to_come_now m : ids_to_come m (_fmt_id m).
Proof. exists (_counter m). done. Qed.

Lemma ids_to_come_next m x :
  ids_to_come (_new_id m).2 x -> ids_to_come m x /\ x <> _fmt_id m.
Proof.
  intros (j & Hj & ->). simpl in *. split.
  - exists j. split; [lia|done].
  - unfold _fmt_id. intros Heq.
    apply (inj (String.app _)) in Heq. apply zero_pad_inj in Heq. lia.
Qed.

(** A suggestion that was not issued before is returned as it is, and
    recorded. *)
Lemma next_unique_id_new_suggestion s m :
  s ∉ _seen m ->
  next_unique_id (Some s) m =
    (s, {| _counter := _counter m; prefix := prefix m;
           _seen := {[ s ]} ∪ _seen m; _width := _width m |}).
Proof. intros Hs. unfold next_unique_id. by rewrite decide_False. Qed.

(** Every id that is returned is recorded as seen. *)
Lemma next_unique_id_recorded suggestion m :
  (next_unique_id suggestion m).1 ∈ _seen (next_unique_id suggestion m).2.
Proof.
  unfold next_unique_id, _new_id.
  destruct suggestion as [s|]; [case_decide|]; simpl; set_solver.
Qed.

Lemma issue_synthesized_elem n : forall m x,
  x ∈ issue (replicate n None) m ->
  exists j, (_counter m <= j)%nat /\
            x = prefix m +:+ zero_pad (_width m) (pretty j).
Proof.
  induction n as [|n IH]; intros m x; simpl; [by intros ?%elem_of_nil|].
  intros Hx. apply elem_of_cons in Hx as [->|Hx].
  - exists (_counter m). done.
  - apply IH in Hx as (j & Hj & ->). simpl in *. exists j. split; [lia|done].
Qed.

(** The ids synthesized by one id maker are pairwise distinct. *)
Lemma issue_synthesized_NoDup n : forall m, NoDup (issue (replicate n None) m).
Proof.
  induction n as [|n IH]; intros m; simpl; [constructor|].
  constructor; [|apply IH].
  intros Hin. apply issue_synthesized_elem in Hin as (j & Hj & Heq).
  simpl in *. unfold _fmt_id in Heq.
  apply (inj (String.app _)) in Heq. apply zero_pad_inj in Heq. lia.
Qed.

(** C1: an id maker with prefix [ftr] is asked for an id with the
    suggestion [ftr000000], then for one without suggestion.  It returns
    the suggestion, and then synthesizes the very same id again. *)
Theorem next_unique_id_repeats_suggested_id :
  issue [Some "ftr000000"; None] (IDMaker_init "ftr" 6) =
    ["ftr000000"; "ftr000000"] /\
  ~ NoDup (issue [Some "ftr000000"; None] (IDMaker_init "ftr" 6)).
Proof.
  split; [reflexivity|].
  intros Hnd. apply NoDup_cons in Hnd as [Hnd _].
  apply Hnd. apply list_elem_of_here.
Qed.

(** ** Grouping the records of a file *)

Lemma skipable_known ty :
  ty ∈ FeatureDecoder.regions ++ FeatureDecoder.ignorable ->
  ty ∈ FeatureDecoder.known.
Proof.
  unfold FeatureDecoder.known. rewrite !elem_of_app. tauto.
Qed.

Lemma useful_gff_entries_all_skipped gff_file :
  Forall (fun entry => GFFObject.type entry ∈
                         FeatureDecoder.regions ++ FeatureDecoder.ignorable)
         gff_file ->
  useful_gff_entries gff_file = ([], Finished).
Proof.
  induction 1 as [|entry gff_file Hskip _ IH]; simpl; [done|].
  rewrite decide_True by (by apply skipable_known).
  by rewrite decide_True.
Qed.

Lemma useful_gff_entries_all_useful gff_file :
  Forall (fun entry => GFFObject.type entry ∈ FeatureDecoder.known /\
                       GFFObject.type entry ∉
                         FeatureDecoder.regions ++ FeatureDecoder.ignorable)
         gff_file ->
  useful_gff_entries gff_file = (gff_file, Finished).
Proof.
  induction 1 as [|entry gff_file [Hknown Hskip] _ IH]; simpl; [done|].
  rewrite decide_True by done. rewrite decide_False by done.
  by rewrite IH.
Qed.

(** What the grouping loop does: it cuts the records in front of every
    record of type [gene], and nowhere else. *)
Lemma group_loop_cuts entries : forall gene_group,
  exists groups,
    group_loop gene_group entries Finished = (groups, Finished) /\
    concat groups = gene_group ++ entries /\
    (exists rest, groups = (gene_group ++ rest) :: tail groups /\
       Forall (fun entry => GFFObject.type entry <> "gene") rest) /\
    Forall (fun g => exists entry rest,
              g = entry :: rest /\ GFFObject.type entry = "gene" /\
              Forall (fun entry => GFFObject.type entry <> "gene") rest)
           (tail groups).
Proof.
  induction entries as [|entry entries IH]; intros gene_group; simpl.
  - exists [gene_group]. simpl. rewrite !app_nil_r.
    split; [done|]. split; [done|]. split; [|constructor].
    exists []. by rewrite app_nil_r.
  - destruct (decide (GFFObject.type entry = "gene")) as [Hgene|Hgene].
    + destruct (IH [entry]) as (groups & -> & Hcat & (rest & Hhead & Hrest) & Htail).
      exists (gene_group :: groups). simpl. rewrite Hcat.
      split; [done|]. split; [done|]. split.
      * exists []. by rewrite app_nil_r.
      * rewrite Hhead. constructor; [|done].
        exists entry, rest. done.
    + destruct (IH (gene_group ++ [entry]))
        as (groups & -> & Hcat & (rest & Hhead & Hrest) & Htail).
      exists groups. split; [done|].
      split; [by rewrite Hcat, <- app_assoc|]. split; [|done].
      exists (entry :: rest). rewrite Hhead at 1.
      rewrite <- app_assoc. split; [done|]. by constructor.
Qed.

(** On a stream of useful records, [group_gff_by_gene] yields groups that
    make up the stream in its order; the first group starts with the first
    record whatever its type, every later group starts with a record of
    type [gene], and no other record of a group has that type. *)
Lemma group_gff_by_gene_cuts_at_gene first entries :
  Forall (fun entry => GFFObject.type entry ∈ FeatureDecoder.known /\
                       GFFObject.type entry ∉
                         FeatureDecoder.regions ++ FeatureDecoder.ignorable)
         (first :: entries) ->
  exists groups,
    group_gff_by_gene (first :: entries) = (groups, Finished) /\
    concat groups = first :: entries /\
    (exists rest, groups = (first :: rest) :: tail groups /\
       Forall (fun entry => GFFObject.type entry <> "gene") rest) /\
    Forall (fun g => exists entry rest,
              g = entry :: rest /\ GFFObject.type entry = "gene" /\
              Forall (fun entry => GFFObject.type entry <> "gene") rest)
           (tail groups).
Proof.
  intros Huseful. unfold group_gff_by_gene.
  rewrite useful_gff_entries_all_useful by done.
  apply (group_loop_cuts entries [first]).
Qed.

(** C10: on a file without a single useful record, that is, an empty file or
    one whose records are all of a region or ignorable type,
    [group_gff_by_gene] yields no group and stops with an exception at its
    first step. *)
Theorem group_gff_by_gene_nothing_useful gff_file :
  Forall (fun entry => GFFObject.type entry ∈
                         FeatureDecoder.regions ++ FeatureDecoder.ignorable)
         gff_file ->
  group_gff_by_gene gff_file = ([], Failed RuntimeError).
Proof.
  intros Hskip. unfold group_gff_by_gene.
  by rewrite useful_gff_entries_all_skipped.
Qed.

Lemma group_gff_by_gene_nothing_useful_witness :
  group_gff_by_gene
    [gff_record "region" None [] 1 5000 "."; gff_record "match" None [] 7 9 "."]
  = ([], Failed RuntimeError).
Proof.
  apply group_gff_by_gene_nothing_useful.
  repeat constructor; apply (bool_decide_unpack _); vm_compute; exact I.
Defined.

(** C3: in [pseudogene_stream] a pseudogene follows a gene.  The records are
    all useful, and [group_gff_by_gene] yields them as one single group: the
    pseudogene does not start a group of its own. *)
Theorem group_gff_by_gene_pseudogene_absorbed :
  Forall (fun entry => GFFObject.type entry ∈ FeatureDecoder.known /\
                       GFFObject.type entry ∉
                         FeatureDecoder.regions ++ FeatureDecoder.ignorable)
         pseudogene_stream /\
  (GFFObject.type <$> pseudogene_stream) !! 2%nat =
    Some FeatureDecoder.pseudogene /\
  FeatureDecoder.pseudogene ∈ FeatureDecoder.gene_level /\
  group_gff_by_gene pseudogene_stream = ([pseudogene_stream], Finished).
Proof.
  split; [|split; [|split]]; try reflexivity.
  - repeat constructor; apply (bool_decide_unpack _); vm_compute; exact I.
  - apply (bool_decide_unpack _); vm_compute; exact I.
Qed.

(** ** Adding the data of a record to a feature *)

(** C9: when the one parent a record declares is a transcript of the locus,
    [add_data] ends normally, the id of the feature is put twice at the end
    of the feature list of that transcript, and the id of the transcript
    once at the end of the transcript list of the feature. *)
Theorem add_data_links_feature_twice self w gff_entry parent transcript :
  GFFObject.Parent gff_entry = [parent] ->
  SuperLoci.transcripts (locus w) !! parent = Some transcript ->
  exists self' w',
    add_data gff_entry (self, w) = (Ok tt, (self', w')) /\
    Transcribed.features <$> SuperLoci.transcripts (locus w') !! parent =
      Some (Transcribed.features transcript ++
            [StructuredFeature.id self'; StructuredFeature.id self']) /\
    StructuredFeature.transcripts self' =
      StructuredFeature.transcripts self ++ [parent].
Proof.
  intros Hparent Htr. unfold add_data. rewrite Hparent.
  unfold feature_next_unique_id, link_to_transcript_and_back. simpl.
  unfold_monad. simpl.
  destruct (next_unique_id (GFFObject.ID gff_entry) (feature_ider w))
    as [new_id m] eqn:Hid. simpl.
  rewrite Htr. simpl.
  rewrite decide_True by done. simpl.
  rewrite lookup_insert_eq. simpl.
  eexists _, _. split; [reflexivity|]. simpl. split; [|done].
  rewrite lookup_insert_eq. simpl. by rewrite <- app_assoc.
Qed.

Lemma add_data_links_feature_twice_witness :
  exists self' w',
    add_data exon_of_t1 (StructuredFeature.init, one_transcript_world)
      = (Ok tt, (self', w')) /\
    Transcribed.features <$> SuperLoci.transcripts (locus w') !! "t1" =
      Some ([] ++ [StructuredFeature.id self'; StructuredFeature.id self']) /\
    StructuredFeature.transcripts self' = [] ++ ["t1"].
Proof.
  apply (add_data_links_feature_twice StructuredFeature.init
           one_transcript_world exon_of_t1 "t1"
           {| Transcribed.id := "t1"; Transcribed.type := "mRNA";
              Transcribed.is_partial := false;
              Transcribed.is_reconstructed := false;
              Transcribed.is_type_in_question := false;
              Transcribed.super_loci := Some 0%nat;
              Transcribed.features := [] |});
    [reflexivity | vm_compute; reflexivity].
Defined.

(** Whatever else the record declares, a first parent that is neither a
    transcript of the locus nor the locus itself makes [add_data] stop with
    [KeyError]. *)
Lemma add_data_unresolved_parent self w gff_entry parent parents :
  GFFObject.Parent gff_entry = parent :: parents ->
  SuperLoci.transcripts (locus w) !! parent = None ->
  parent <> SuperLoci.id (locus w) ->
  (add_data gff_entry (self, w)).1 = Raise KeyError.
Proof.
  intros Hparent Htr Hid. unfold add_data. rewrite Hparent.
  unfold feature_next_unique_id, link_to_transcript_and_back. simpl.
  unfold_monad. simpl.
  destruct (next_unique_id (GFFObject.ID gff_entry) (feature_ider w))
    as [new_id m] eqn:Hnew. simpl.
  rewrite Htr. simpl.
  rewrite decide_False by done. simpl.
  by rewrite decide_True.
Qed.

(** C2: the record [orphan_exon] names the parent [t2], which is neither a
    transcript of the locus nor the gene.  [add_data] marks the feature as
    an error, leaves it without links and logs a warning, but then does not
    return: it stops with [KeyError].  Within its group the exception ends
    the work on the locus, whose exon after the orphan is never added. *)
Theorem add_data_unresolved_parent_raises :
  (let r := add_data orphan_exon (StructuredFeature.init, one_transcript_world) in
   r.1 = Raise KeyError /\
   StructuredFeature.type r.2.1 = FeatureDecoder.error /\
   StructuredFeature.transcripts r.2.1 = [] /\
   (log r.2.2).*1 = ["WARNING"]) /\
  (let g := add_gff_entry_group orphan_group (World_init "sp" 0) in
   g.1 = Raise KeyError /\ SuperLoci.features (locus g.2) = []).
Proof. vm_compute. repeat split; reflexivity. Qed.

(** ** Dictionaries *)

Section dict_facts.
Context {V : Type}.
Implicit Types (d : dict V) (k x : string) (v : V).

Lemma dict_get_set k v d x :
  dict_get x (dict_set k v d) = if decide (x = k) then Some v else dict_get x d.
Proof.
  induction d as [|[k' v'] d IH]; simpl.
  - by repeat case_decide.
  - destruct (decide (k = k')) as [->|Hk]; simpl.
    + by repeat case_decide.
    + rewrite IH. repeat case_decide; by simplify_eq.
Qed.

Lemma dict_get_Some_keys k d v : dict_get k d = Some v -> k ∈ dict_keys d.
Proof.
  induction d as [|[k' v'] d IH]; simpl; [done|].
  destruct (decide (k = k')); subst.
  - intros _. apply list_elem_of_here.
  - intros Hg. apply list_elem_of_further. auto.
Qed.

Lemma dict_get_None_keys k d : dict_get k d = None <-> k ∉ dict_keys d.
Proof.
  induction d as [|[k' v'] d IH]; simpl.
  - split; [intros _; apply not_elem_of_nil | done].
  - rewrite not_elem_of_cons. destruct (decide (k = k')); subst.
    + split; [done | intros [? _]; done].
    + rewrite IH. tauto.
Qed.

Lemma dict_keys_is_Some k d : k ∈ dict_keys d -> is_Some (dict_get k d).
Proof.
  intros Hk. destruct (dict_get k d) eqn:E; [eauto|].
  apply dict_get_None_keys in E. done.
Qed.

Lemma dict_keys_set_present k v d :
  k ∈ dict_keys d -> dict_keys (dict_set k v d) = dict_keys d.
Proof.
  induction d as [|[k' v'] d IH]; simpl.
  - intros Hin. by apply elem_of_nil in Hin.
  - intros Hin. destruct (decide (k = k')); subst; simpl; [done|].
    f_equal. apply IH. apply elem_of_cons in Hin as [?|?]; done.
Qed.

Lemma dict_keys_pop k d :
  NoDup (dict_keys d) ->
  dict_keys (dict_pop k d) = filter (fun x => x ∉ [k]) (dict_keys d).
Proof.
  induction d as [|[k' v'] d IH]; simpl; [done|].
  intros Hnd. apply NoDup_cons in Hnd as [Hk' Hnd].
  destruct (decide (k = k')); subst.
  - rewrite filter_cons_False by (intros Hn; apply Hn, list_elem_of_here).
    symmetry. apply filter_all, Forall_forall.
    intros x Hx Hin. apply list_elem_of_singleton in Hin. by subst.
  - rewrite filter_cons_True.
    + simpl. f_equal. by apply IH.
    + intros Hin. apply list_elem_of_singleton in Hin. by subst.
Qed.

Lemma dict_get_pop_ne k d x :
  x <> k -> dict_get x (dict_pop k d) = dict_get x d.
Proof.
  intros Hx. induction d as [|[k' v'] d IH]; simpl; [done|].
  destruct (decide (k = k')); subst; simpl.
  - by case_decide.
  - by rewrite IH.
Qed.
End dict_facts.

Lemma dict_set_fresh {V} k (v : V) d :
  k ∉ dict_keys d -> dict_set k v d = d ++ [(k, v)].
Proof.
  induction d as [|[k' v'] d IH]; simpl; [done|].
  intros Hk. apply not_elem_of_cons in Hk as [Hne Hk].
  rewrite decide_False by done. by rewrite IH.
Qed.

(** ** Features and their links *)

Lemma core_set_transcripts v f :
  core (StructuredFeature.set_transcripts v f) = core f.
Proof. by destruct f. Qed.

Lemma fully_overlaps_core f g :
  StructuredFeature.fully_overlaps (core f) (core g) =
  StructuredFeature.fully_overlaps f g.
Proof. by destruct f, g. Qed.

Lemma fully_overlaps_sym f g :
  StructuredFeature.fully_overlaps f g = StructuredFeature.fully_overlaps g f.
Proof.
  unfold StructuredFeature.fully_overlaps.
  repeat (f_equal; [|apply bool_decide_ext; split; congruence]).
  apply bool_decide_ext; split; congruence.
Qed.

Lemma ov_sym d a b : ov d a b = ov d b a.
Proof.
  unfold ov. destruct (dict_get a d), (dict_get b d); try done.
  apply fully_overlaps_sym.
Qed.

Lemma ov_get d a b fa fb :
  dict_get a d = Some fa -> dict_get b d = Some fb ->
  ov d a b = StructuredFeature.fully_overlaps fa fb.
Proof. unfold ov. by intros -> ->. Qed.

Lemma ov_core d d' a b :
  core <$> dict_get a d' = core <$> dict_get a d ->
  core <$> dict_get b d' = core <$> dict_get b d ->
  ov d' a b = ov d a b.
Proof.
  unfold ov. intros Ha Hb.
  destruct (dict_get a d') as [fa'|], (dict_get a d) as [fa|];
    simpl in Ha; try discriminate; [|done].
  destruct (dict_get b d') as [fb'|], (dict_get b d) as [fb|];
    simpl in Hb; try discriminate; [|done].
  assert (core fa' = core fa) as Ea by congruence.
  assert (core fb' = core fb) as Eb by congruence.
  rewrite <- (fully_overlaps_core fa' fb'), <- (fully_overlaps_core fa fb).
  by rewrite Ea, Eb.
Qed.

Lemma link_to_transcript_and_back_frame tid f w u f' w' :
  link_to_transcript_and_back tid (f, w) = (Ok u, (f', w')) ->
  core f' = core f /\ feats w' = feats w /\ feature_ider w' = feature_ider w.
Proof.
  unfold link_to_transcript_and_back. unfold_monad. simpl.
  intros H. repeat case_match; simplify_eq; simpl.
  by rewrite core_set_transcripts.
Qed.

Lemma link_to_transcript_and_back_Ok tid f w u f' w' :
  link_to_transcript_and_back tid (f, w) = (Ok u, (f', w')) ->
  core f' = core f /\ feats w' = feats w.
Proof.
  unfold link_to_transcript_and_back. unfold_monad. simpl.
  intros H. repeat case_match; simplify_eq; simpl.
  by rewrite core_set_transcripts.
Qed.

Lemma de_link_from_transcript_Ok tid f w u f' w' :
  de_link_from_transcript tid (f, w) = (Ok u, (f', w')) ->
  core f' = core f /\ feats w' = feats w.
Proof.
  unfold de_link_from_transcript. unfold_monad. simpl.
  intros H. repeat case_match; simplify_eq; simpl.
  by rewrite core_set_transcripts.
Qed.

Lemma for_each_link_frame ts : forall f w u f' w',
  for_each ts (fun t => link_to_transcript_and_back (Some t)) (f, w)
    = (Ok u, (f', w')) ->
  core f' = core f /\ feats w' = feats w /\ feature_ider w' = feature_ider w.
Proof.
  induction ts as [|t ts IH]; intros f w u f' w'; simpl.
  - unfold mret, M_ret. by intros [= <- <- <-].
  - intros H. bind_inv H as u1 s Hlink. destruct s as [f1 w1].
    apply link_to_transcript_and_back_frame in Hlink as (Hc1 & Hf1 & Hi1).
    apply IH in H as (Hc & Hf & Hi). by rewrite Hc, Hf, Hi.
Qed.

(** ** How a dictionary of features evolves *)

Lemma evolves_refl d : evolves [] d d.
Proof.
  split; [|done]. symmetry. apply filter_all, Forall_forall.
  intros x _. apply not_elem_of_nil.
Qed.

Lemma evolves_app R1 R2 d1 d2 d3 :
  evolves R1 d1 d2 -> evolves R2 d2 d3 -> evolves (R1 ++ R2) d1 d3.
Proof.
  intros [Hk1 Hc1] [Hk2 Hc2]. split.
  - rewrite Hk2, Hk1, list_filter_filter. apply filter_ext_in.
    intros x _. rewrite not_elem_of_app. tauto.
  - intros x Hx. apply not_elem_of_app in Hx as [H1 H2].
    by rewrite Hc2, Hc1.
Qed.

Lemma evolves_set k f f' d :
  dict_get k d = Some f -> core f' = core f -> evolves [] d (dict_set k f' d).
Proof.
  intros Hk Hc. split.
  - rewrite dict_keys_set_present by (by eapply dict_get_Some_keys).
    symmetry. apply filter_all, Forall_forall. intros x _. apply not_elem_of_nil.
  - intros x _. rewrite dict_get_set. case_decide; subst; [|done].
    rewrite Hk. simpl. by rewrite Hc.
Qed.

Lemma evolves_pop k d :
  NoDup (dict_keys d) -> evolves [k] d (dict_pop k d).
Proof.
  intros Hnd. split.
  - by apply dict_keys_pop.
  - intros x Hx. rewrite dict_get_pop_ne; [done|].
    intros ->. apply Hx, list_elem_of_here.
Qed.

Lemma evolves_NoDup R d d' :
  evolves R d d' -> NoDup (dict_keys d) -> NoDup (dict_keys d').
Proof. intros [-> _] ?. by apply NoDup_filter. Qed.

Lemma evolves_get_removed R d d' x :
  evolves R d d' -> x ∈ R -> dict_get x d' = None.
Proof.
  intros [Hk _] Hx. apply dict_get_None_keys. rewrite Hk.
  intros Hin. apply list_elem_of_filter in Hin as [Hn _]. done.
Qed.

(** A run of the inner loop never adds a feature. *)
Lemma evolves_length R d d' : evolves R d d' -> (length d' <= length d)%nat.
Proof.
  intros [Hk _]. unfold dict_keys in Hk.
  rewrite <- (length_fmap fst d'), Hk, <- (length_fmap fst d).
  apply length_filter.
Qed.

Lemma with_feature_Ok {A} k (m : M St A) w a w' :
  (forall f w0 u f' w1, m (f, w0) = (Ok u, (f', w1)) ->
     core f' = core f /\ feats w1 = feats w0) ->
  with_feature k m w = (Ok a, w') ->
  evolves [] (feats w) (feats w').
Proof.
  intros Hm. unfold with_feature.
  destruct (dict_get k (feats w)) as [f|] eqn:Hk; [|done].
  destruct (m (f, w)) as [r [f' w1]] eqn:Hrun. simpl.
  intros ?; simplify_eq. simpl.
  apply Hm in Hrun as [Hc Hf]. rewrite Hf. by eapply evolves_set.
Qed.

Lemma for_each_evolves {A} (xs : list A) (body : A -> M World unit) w w' :
  (forall x w0 w1, body x w0 = (Ok tt, w1) -> evolves [] (feats w0) (feats w1)) ->
  for_each xs body w = (Ok tt, w') ->
  evolves [] (feats w) (feats w').
Proof.
  intros Hbody. revert w. induction xs as [|x xs IH]; intros w; simpl.
  - unfold mret, M_ret. intros ?; simplify_eq. apply evolves_refl.
  - intros H. bind_inv H as u s Hx. destruct u.
    apply (evolves_app [] [] _ (feats s)); eauto.
Qed.

Lemma merge_Ok k o w w' :
  merge k o w = (Ok tt, w') -> evolves [] (feats w) (feats w').
Proof.
  unfold merge. intros H.
  bind_inv H as u1 w1 Hassert. bind_inv H as w2 w3 Hget.
  bind_inv H as other w4 Hother.
  assert (w1 = w) as ->.
  { destruct (decide (k = o)); unfold_monad; by simplify_eq. }
  assert (w3 = w) as -> by (unfold_monad; by simplify_eq).
  apply of_option_Ok_inv in Hother as [_ ->].
  eapply for_each_evolves; [|done].
  intros x w0 w1 Hx. bind_inv Hx as u2 w5 Hlink.
  apply (evolves_app [] [] _ (feats w5)).
  - eapply with_feature_Ok; [|done].
    intros ?????. apply link_to_transcript_and_back_Ok.
  - eapply with_feature_Ok; [|done].
    intros ?????. apply de_link_from_transcript_Ok.
Qed.

(** ** collapse_identical_features *)

(** One pass of the inner loop removes from the dictionary exactly the keys
    of [o_keys] whose features fully overlap the feature under
    [feature_key], and changes nothing but links otherwise. *)
Lemma collapse_against_Ok k js : forall w w',
  NoDup js -> k ∉ js -> NoDup (dict_keys (feats w)) ->
  collapse_against k js w = (Ok tt, w') ->
  evolves (filter (fun o => ov (feats w) k o = true) js) (feats w) (feats w').
Proof.
  induction js as [|o js IH]; intros w w' Hjs Hk Hnd; simpl.
  - unfold mret, M_ret. intros ?; simplify_eq. apply evolves_refl.
  - apply NoDup_cons in Hjs as [Ho Hjs].
    apply not_elem_of_cons in Hk as [Hko Hk].
    intros H. bind_inv H as w1 w2 Hget. bind_inv H as feature w3 Hfk.
    bind_inv H as other w4 Hfo. bind_inv H as u w5 Hstep.
    assert (w2 = w) as -> by (unfold_monad; by simplify_eq).
    assert (w1 = w) as -> by (unfold_monad; by simplify_eq).
    apply of_option_Ok_inv in Hfk as [Hfk ->].
    apply of_option_Ok_inv in Hfo as [Hfo ->].
    rewrite <- (ov_get _ _ _ _ _ Hfk Hfo) in Hstep.
    destruct (ov (feats w) k o) eqn:Hov.
    + rewrite filter_cons_True by done.
      assert (evolves [o] (feats w) (feats w5)) as Hev.
      { bind_inv Hstep as u1 w6 Hmerge. bind_inv Hstep as w8 w9 Hget'.
        bind_inv Hstep as u2 w7 Hpop.
        assert (w9 = w6) as -> by (unfold_monad; by simplify_eq).
        assert (w8 = w6) as -> by (unfold_monad; by simplify_eq).
        destruct u1. apply merge_Ok in Hmerge.
        assert (feats w5 = feats w7) as ->.
        { unfold_monad. by simplify_eq. }
        assert (feats w7 = dict_pop o (feats w6)) as ->.
        { destruct (dict_get o (feats w6)); unfold_monad; by simplify_eq. }
        apply (evolves_app [] [o] _ (feats w6)); [done|].
        apply evolves_pop. by eapply evolves_NoDup. }
      assert (filter (fun x => ov (feats w) k x = true) js =
              filter (fun x => ov (feats w5) k x = true) js) as ->.
      { apply filter_ext_in. intros x Hx.
        destruct Hev as [_ Hc].
        rewrite (ov_core (feats w) (feats w5) k x); [done| |].
        - apply Hc. intros Hin. apply list_elem_of_singleton in Hin. done.
        - apply Hc. intros Hin. apply list_elem_of_singleton in Hin.
          by subst. }
      apply (evolves_app [o] _ _ (feats w5)); [done|].
      apply IH; [done..| |done]. by eapply evolves_NoDup.
    + rewrite filter_cons_False by (by rewrite Hov).
      assert (w5 = w) as -> by (unfold_monad; by simplify_eq).
      by apply IH.
Qed.

Lemma merge_sort_filter (P : string -> Prop) `{forall x, Decision (P x)}
    (l : list string) :
  merge_sort String.le (filter P l) = filter P (merge_sort String.le l).
Proof.
  apply (StronglySorted_unique String.le).
  - apply StronglySorted_merge_sort; apply _.
  - apply StronglySorted_filter, StronglySorted_merge_sort; apply _.
  - by rewrite !merge_sort_Permutation.
Qed.

Lemma sorted_keys_Permutation w : sorted_keys w ≡ₚ dict_keys (feats w).
Proof. apply merge_sort_Permutation. Qed.

Lemma sorted_keys_length w :
  length (sorted_keys w) = length (feats w).
Proof.
  rewrite sorted_keys_Permutation. unfold dict_keys. by rewrite length_fmap.
Qed.

Lemma sorted_keys_evolves R w w' :
  evolves R (feats w) (feats w') ->
  sorted_keys w' = filter (fun x => x ∉ R) (sorted_keys w).
Proof.
  intros [Hk _]. unfold sorted_keys. rewrite Hk. apply merge_sort_filter.
Qed.

(** One round of the outer loop settles the key it works on and keeps the
    keys before it in place. *)
Lemma collapse_round l1 k l2 w w' :
  sorted_keys w = l1 ++ k :: l2 ->
  NoDup (dict_keys (feats w)) ->
  settled (feats w) l1 ->
  collapse_against k l2 w = (Ok tt, w') ->
  NoDup (dict_keys (feats w')) /\
  (exists l2', sorted_keys w' = l1 ++ k :: l2') /\
  settled (feats w') (l1 ++ [k]).
Proof.
  intros HS Hnd Hset Hrun.
  assert (NoDup (l1 ++ k :: l2)) as HndS.
  { rewrite <- HS, sorted_keys_Permutation. done. }
  apply NoDup_app in HndS as (Hnd1 & Hdisj & Hnd2).
  apply NoDup_cons in Hnd2 as [Hk2 Hnd2].
  assert (forall x, x ∈ l1 -> x <> k) as Hl1k.
  { intros x Hx ->. apply (Hdisj k Hx), list_elem_of_here. }
  assert (forall x, x ∈ l1 -> x ∉ l2) as Hl1l2.
  { intros x Hx Hin. by apply (Hdisj x Hx), list_elem_of_further. }
  apply collapse_against_Ok in Hrun; [|done..].
  set (R := filter (fun o => ov (feats w) k o = true) l2) in *.
  assert (forall x, x ∈ R -> x ∈ l2) as HR.
  { intros x Hx. by apply list_elem_of_filter in Hx as [_ ?]. }
  split; [by eapply evolves_NoDup|]. split.
  - exists (filter (fun x => x ∉ R) l2).
    rewrite (sorted_keys_evolves R w w' Hrun), HS.
    rewrite filter_app, filter_cons_True by (intros Hin; by apply HR in Hin).
    f_equal. apply filter_all, Forall_forall.
    intros x Hx Hin. by apply (Hl1l2 x Hx), HR.
  - assert (forall x, (x ∈ l1 \/ x = k) -> x ∉ R) as Hkeep.
    { intros x [Hx| ->] Hin; apply HR in Hin; [by apply (Hl1l2 x)|done]. }
    assert (forall ka kb, (ka ∈ l1 \/ ka = k) -> kb <> ka ->
              ov (feats w) ka kb = false -> ov (feats w') ka kb = false)
      as Hcarry.
    { intros ka kb Hka Hne Hov.
      destruct (decide (kb ∈ R)) as [HkbR|HkbR].
      - unfold ov. rewrite (evolves_get_removed _ _ _ kb Hrun HkbR).
        by destruct (dict_get ka (feats w')).
      - destruct Hrun as [_ Hc].
        rewrite (ov_core (feats w) (feats w')); [done| |]; apply Hc; auto. }
    intros ka kb Hka Hne. apply elem_of_app in Hka as [Hka|Hka].
    + apply Hcarry; [by left | done | by apply Hset].
    + apply list_elem_of_singleton in Hka as ->.
      destruct (decide (kb ∈ R)) as [HkbR|HkbR].
      { unfold ov. rewrite (evolves_get_removed _ _ _ kb Hrun HkbR).
        by destruct (dict_get k (feats w')). }
      apply Hcarry; [by right | done |].
      destruct (dict_get kb (feats w)) as [fb|] eqn:Hfb.
      * assert (kb ∈ l1 ++ k :: l2) as Hin.
        { rewrite <- HS, sorted_keys_Permutation.
          by eapply dict_get_Some_keys. }
        apply elem_of_app in Hin as [Hin|Hin].
        -- rewrite ov_sym. apply Hset; [done|]. by apply not_eq_sym.
        -- apply elem_of_cons in Hin as [?|Hin]; [done|].
           destruct (ov (feats w) k kb) eqn:Hov; [|done].
           exfalso. apply HkbR. by apply list_elem_of_filter.
      * unfold ov. rewrite Hfb. by destruct (dict_get k (feats w)).
Qed.

Lemma settled_all d (keys : list string) i :
  (forall x, is_Some (dict_get x d) -> x ∈ keys) ->
  (length keys <= i + 1)%nat ->
  settled d (take i keys) -> overlap_free d.
Proof.
  intros Hkeys Hlen Hset a b Hab.
  destruct (dict_get a d) as [fa|] eqn:Ha;
    [|unfold ov; by rewrite Ha].
  destruct (dict_get b d) as [fb|] eqn:Hb;
    [|unfold ov; rewrite Ha, Hb; done].
  assert (a ∈ take i keys ++ drop i keys) as Hina.
  { rewrite take_drop. apply Hkeys. by rewrite Ha. }
  assert (b ∈ take i keys ++ drop i keys) as Hinb.
  { rewrite take_drop. apply Hkeys. by rewrite Hb. }
  apply elem_of_app in Hina as [Hina|Hina].
  { apply Hset; [done|]. by apply not_eq_sym. }
  apply elem_of_app in Hinb as [Hinb|Hinb].
  { rewrite ov_sym. by apply Hset. }
  exfalso. apply Hab.
  assert (length (drop i keys) <= 1)%nat as Hd by (rewrite length_drop; lia).
  destruct (drop i keys) as [|x [|y rest]]; simpl in Hd; [| |lia].
  - by apply elem_of_nil in Hina.
  - apply list_elem_of_singleton in Hina, Hinb. congruence.
Qed.

(** When the outer loop ends normally, no two features of the locus fully
    overlap. *)
Lemma collapse_loop_Ok fuel : forall i w w',
  NoDup (dict_keys (feats w)) ->
  settled (feats w) (take i (sorted_keys w)) ->
  collapse_loop fuel i w = (Ok tt, w') ->
  NoDup (dict_keys (feats w')) /\ overlap_free (feats w').
Proof.
  assert (forall i w, NoDup (dict_keys (feats w)) ->
            settled (feats w) (take i (sorted_keys w)) ->
            ~ Z.of_nat i < Z.of_nat (length (feats w)) - 1 ->
            overlap_free (feats w)) as Hend.
  { intros i w Hnd Hset Hguard.
    apply (settled_all _ (sorted_keys w) i); [| |done].
    - intros x [f Hx]. rewrite sorted_keys_Permutation.
      by eapply dict_get_Some_keys.
    - rewrite sorted_keys_length. lia. }
  induction fuel as [|fuel IH]; intros i w w' Hnd Hset; simpl;
    (destruct (decide (Z.of_nat i < Z.of_nat (length (feats w)) - 1))
       as [Hguard|Hguard];
     [|intros ?; simplify_eq; split; [done|by eapply Hend]]).
  - done.
  - intros H. bind_inv H as k w1 Hk. bind_inv H as f w2 Hf.
    bind_inv H as u w3 Hrun.
    apply of_option_Ok_inv in Hk as [Hk ->].
    apply of_option_Ok_inv in Hf as [_ ->].
    destruct u.
    pose proof (take_drop_middle _ _ _ Hk) as Hmid.
    destruct (collapse_round (take i (sorted_keys w)) k
                (drop (S i) (sorted_keys w)) w w3)
      as (Hnd3 & [l2' HS3] & Hset3); [done..|].
    apply (IH (S i) w3 w'); [done| |done].
    rewrite HS3.
    assert (length (take i (sorted_keys w)) = i) as Hlen.
    { apply length_take_le. apply lookup_lt_Some in Hk. lia. }
    replace (take i (sorted_keys w) ++ k :: l2')
      with ((take i (sorted_keys w) ++ [k]) ++ l2')
      by (by rewrite <- app_assoc).
    rewrite take_app_length'; [done|].
    rewrite length_app. simpl. lia.
Qed.

Lemma collapse_against_noop k js : forall w,
  overlap_free (feats w) -> k ∉ js ->
  is_Some (dict_get k (feats w)) ->
  Forall (fun o => is_Some (dict_get o (feats w))) js ->
  collapse_against k js w = (Ok tt, w).
Proof.
  induction js as [|o js IH]; intros w Hfree Hk [fk Hfk] Hjs; simpl; [done|].
  apply not_elem_of_cons in Hk as [Hko Hk].
  apply Forall_cons in Hjs as [[fo Hfo] Hjs].
  pose proof (Hfree k o Hko) as Hov.
  rewrite (ov_get _ _ _ _ _ Hfk Hfo) in Hov.
  unfold_monad. rewrite Hfk, Hfo, Hov.
  apply IH; eauto.
Qed.

(** On a locus without fully overlapping features the loop changes
    nothing. *)
Lemma collapse_loop_noop fuel : forall i w,
  overlap_free (feats w) -> NoDup (dict_keys (feats w)) ->
  (length (feats w) <= fuel + i + 1)%nat ->
  collapse_loop fuel i w = (Ok tt, w).
Proof.
  induction fuel as [|fuel IH]; intros i w Hfree Hnd Hlen; simpl;
    (destruct (decide (Z.of_nat i < Z.of_nat (length (feats w)) - 1))
       as [Hguard|Hguard]; [|done]).
  - lia.
  - assert (i < length (sorted_keys w))%nat as Hi
      by (rewrite sorted_keys_length; lia).
    apply lookup_lt_is_Some in Hi as [k Hk].
    pose proof (take_drop_middle _ _ _ Hk) as Hmid.
    assert (NoDup (sorted_keys w)) as HndS
      by (by rewrite sorted_keys_Permutation).
    rewrite <- Hmid in HndS.
    apply NoDup_app in HndS as (_ & _ & HndS).
    apply NoDup_cons in HndS as [Hkjs _].
    assert (forall x, x ∈ sorted_keys w -> is_Some (dict_get x (feats w)))
      as Hsome.
    { intros x Hx. apply dict_keys_is_Some.
      by rewrite <- sorted_keys_Permutation. }
    destruct (Hsome k) as [fk Hfk].
    { eapply list_elem_of_lookup_2. done. }
    unfold_monad. rewrite Hk, Hfk.
    rewrite collapse_against_noop; [| done | done | by rewrite Hfk |].
    + apply IH; [done..|lia].
    + apply Forall_forall. intros x Hx. apply Hsome.
      rewrite <- Hmid. apply elem_of_app. right. by apply list_elem_of_further.
Qed.

(** C8: [collapse_identical_features] is idempotent.  When a first run on a
    locus ends normally, a second run on the resulting locus ends normally
    too and leaves everything as the first run left it: the feature map,
    the links between transcripts and features, and the rest of the
    state. *)
Theorem collapse_identical_features_idempotent w w' :
  NoDup (dict_keys (SuperLoci.features (locus w))) ->
  collapse_identical_features w = (Ok tt, w') ->
  collapse_identical_features w' = (Ok tt, w').
Proof.
  unfold collapse_identical_features. intros Hnd Hrun.
  apply collapse_loop_Ok in Hrun as [Hnd' Hfree]; [|done|].
  - apply collapse_loop_noop; [done..|lia].
  - intros ka kb Hka. by apply elem_of_nil in Hka.
Qed.

Lemma collapse_identical_features_idempotent_witness :
  collapse_identical_features (collapse_identical_features duplicated_world).2
  = (Ok tt, (collapse_identical_features duplicated_world).2).
Proof.
  apply (collapse_identical_features_idempotent duplicated_world).
  - apply (bool_decide_unpack _). vm_compute. exact I.
  - vm_compute. reflexivity.
Defined.

(** ** The fuel of the outer loop is never used up *)

Lemma fuel_free_ret {S A} (a : A) : fuel_free (mret a : M S A).
Proof. intros s. done. Qed.

Lemma fuel_free_raise {S A} e : e <> OutOfFuel -> fuel_free (raise e : M S A).
Proof. intros He s. simpl. congruence. Qed.

Lemma fuel_free_bind {S A B} (m : M S A) (k : A -> M S B) :
  fuel_free m -> (forall a, fuel_free (k a)) -> fuel_free (m ≫= k).
Proof.
  intros Hm Hk s. unfold mbind, M_bind.
  specialize (Hm s). destruct (m s) as [[a|e] s1]; simpl in *; [apply Hk|].
  intros [= ->]. by apply Hm.
Qed.

Lemma fuel_free_of_option {S A} e (o : option A) :
  e <> OutOfFuel -> fuel_free (of_option e o : M S A).
Proof.
  intros He. destruct o; [apply fuel_free_ret | by apply fuel_free_raise].
Qed.

Lemma fuel_free_world {A} (m : M World A) : fuel_free m -> fuel_free (world m).
Proof.
  intros Hm [f w]. unfold world. simpl. specialize (Hm w).
  by destruct (m w).
Qed.

Lemma fuel_free_with_feature {A} k (m : M St A) :
  fuel_free m -> fuel_free (with_feature k m).
Proof.
  intros Hm w. unfold with_feature.
  destruct (dict_get k (feats w)) as [f|]; [|done].
  specialize (Hm (f, w)). by destruct (m (f, w)).
Qed.

Lemma fuel_free_for_each {S A} (xs : list A) (body : A -> M S unit) :
  (forall x, fuel_free (body x)) -> fuel_free (for_each xs body).
Proof.
  intros Hbody. induction xs as [|x xs IH]; simpl.
  - apply fuel_free_ret.
  - apply fuel_free_bind; auto.
Qed.

Lemma fuel_free_deref r : fuel_free (deref r).
Proof. intros w. unfold deref. by repeat case_match. Qed.

Lemma fuel_free_link tid : fuel_free (link_to_transcript_and_back tid).
Proof.
  unfold link_to_transcript_and_back.
  apply fuel_free_bind; [done|]. intros self.
  apply fuel_free_bind; [apply fuel_free_world, fuel_free_deref|]. intros sl.
  destruct tid as [k|]; [|by apply fuel_free_raise].
  apply fuel_free_bind; [by apply fuel_free_of_option|]. intros tr.
  apply fuel_free_bind; [by apply fuel_free_world|]. done.
Qed.

Lemma fuel_free_de_link tid : fuel_free (de_link_from_transcript tid).
Proof.
  unfold de_link_from_transcript.
  apply fuel_free_bind; [done|]. intros self.
  apply fuel_free_bind; [apply fuel_free_world, fuel_free_deref|]. intros sl.
  apply fuel_free_bind; [by apply fuel_free_of_option|]. intros tr.
  apply fuel_free_bind.
  { intros s. unfold of_result, Transcribed.remove_feature. simpl.
    by case_match. }
  intros tr'. apply fuel_free_bind; [by apply fuel_free_world|]. intros _.
  apply fuel_free_bind; [by apply fuel_free_of_option|]. done.
Qed.

Lemma fuel_free_merge k o : fuel_free (merge k o).
Proof.
  unfold merge. apply fuel_free_bind.
  { case_decide; [by apply fuel_free_raise | apply fuel_free_ret]. }
  intros _. apply fuel_free_bind; [done|]. intros w.
  apply fuel_free_bind; [by apply fuel_free_of_option|]. intros other.
  apply fuel_free_for_each. intros tid.
  apply fuel_free_bind; [apply fuel_free_with_feature, fuel_free_link|].
  intros _. apply fuel_free_with_feature, fuel_free_de_link.
Qed.

Lemma fuel_free_collapse_against k js : fuel_free (collapse_against k js).
Proof.
  induction js as [|o js IH]; simpl; [apply fuel_free_ret|].
  apply fuel_free_bind; [done|]. intros w.
  apply fuel_free_bind; [by apply fuel_free_of_option|]. intros feature.
  apply fuel_free_bind; [by apply fuel_free_of_option|]. intros other.
  apply fuel_free_bind; [|done].
  case_match; [|apply fuel_free_ret].
  apply fuel_free_bind; [apply fuel_free_merge|]. intros _.
  apply fuel_free_bind; [done|]. intros w1.
  apply fuel_free_bind; [|done].
  case_match; [done | by apply fuel_free_raise].
Qed.

Lemma bind_fuel_inv {S A B} (m : M S A) (k : A -> M S B) s :
  fuel_free m -> ((m ≫= k) s).1 = Raise OutOfFuel ->
  exists a s1, m s = (Ok a, s1) /\ (k a s1).1 = Raise OutOfFuel.
Proof.
  intros Hm. unfold mbind, M_bind. specialize (Hm s).
  destruct (m s) as [[a|e] s1]; simpl in *; [eauto|].
  intros [= ->]. done.
Qed.

Lemma collapse_loop_fuel fuel : forall i w,
  NoDup (dict_keys (feats w)) ->
  (length (feats w) <= fuel + i)%nat ->
  (collapse_loop fuel i w).1 <> Raise OutOfFuel.
Proof.
  induction fuel as [|fuel IH]; intros i w Hnd Hlen; simpl;
    (destruct (decide (Z.of_nat i < Z.of_nat (length (feats w)) - 1))
       as [Hguard|Hguard]; [|done]).
  - lia.
  - intros Habs.
    apply bind_fuel_inv in Habs as (k & w1 & Hk & Habs);
      [|by apply fuel_free_of_option].
    apply bind_fuel_inv in Habs as (f & w2 & Hf & Habs);
      [|by apply fuel_free_of_option].
    apply bind_fuel_inv in Habs as ([] & w3 & Hrun & Habs);
      [|apply fuel_free_collapse_against].
    apply of_option_Ok_inv in Hk as [Hk ->].
    apply of_option_Ok_inv in Hf as [Hf ->].
    pose proof (take_drop_middle _ _ _ Hk) as Hmid.
    assert (NoDup (sorted_keys w)) as HndS
      by (by rewrite sorted_keys_Permutation).
    rewrite <- Hmid in HndS.
    apply NoDup_app in HndS as (_ & _ & HndS).
    apply NoDup_cons in HndS as [Hkjs Hjs].
    apply collapse_against_Ok in Hrun; [|done..].
    revert Habs. apply IH.
    + by eapply evolves_NoDup.
    + apply evolves_length in Hrun. lia.
Qed.

(** [collapse_identical_features] ends, normally or with a Python
    exception, within the rounds the model grants the loop. *)
Lemma collapse_identical_features_terminates w :
  NoDup (dict_keys (feats w)) ->
  (collapse_identical_features w).1 <> Raise OutOfFuel.
Proof.
  intros Hnd. unfold collapse_identical_features.
  apply collapse_loop_fuel; [done|lia].
Qed.

(** ** maybe_reconstruct_exons *)

Lemma clone_Ok f w e w' :
  clone f true w = (Ok e, w') ->
  feats w' = feats w /\
  feature_ider w' = (_new_id (feature_ider w)).2 /\
  core e = core (StructuredFeature.set_id (_fmt_id (feature_ider w)) f).
Proof.
  unfold clone. intros H.
  bind_inv H as sl w1 Hderef. bind_inv H as new_id w2 Hid.
  bind_inv H as linked w3 Hlink.
  assert (w1 = w) as ->.
  { unfold deref in Hderef. repeat case_match; by simplify_eq. }
  unfold feature_next_unique_id in Hid. simpl in Hid.
  injection Hid as <- <-.
  unfold with_object in Hlink.
  destruct (for_each _ _ _) as [[[]|] [f3 w4]] eqn:Hrun in Hlink;
    simplify_eq/=.
  apply for_each_link_frame in Hrun as (Hc & Hf & Hi). simpl in *.
  unfold mret, M_ret in H. injection H as <- <-.
  split; [done|]. split; [done|].
  destruct f, f3. unfold core in *. simpl in *. by simplify_eq.
Qed.

(** A feature lies within the exon that [reconstruct_exon] makes of it. *)
Lemma is_contained_in_reconstructed f e i :
  core e = core (StructuredFeature.set_type FeatureDecoder.exon
                   (StructuredFeature.set_id i f)) ->
  StructuredFeature.is_contained_in f e = true /\
  StructuredFeature.type e = FeatureDecoder.exon /\
  StructuredFeature.id e = i.
Proof.
  destruct f, e. unfold core, StructuredFeature.is_contained_in. simpl.
  intros [= -> -> -> -> -> -> -> -> -> -> -> -> ->]. simpl.
  rewrite !bool_decide_eq_true_2 by (done || lia). done.
Qed.

Lemma reconstruct_exon_Ok f w e w' :
  reconstruct_exon f w = (Ok e, w') ->
  feats w' = feats w /\
  feature_ider w' = (_new_id (feature_ider w)).2 /\
  StructuredFeature.is_contained_in f e = true /\
  StructuredFeature.type e = FeatureDecoder.exon /\
  StructuredFeature.id e = _fmt_id (feature_ider w).
Proof.
  unfold reconstruct_exon. intros H. bind_inv H as e0 w1 Hclone.
  unfold mret, M_ret in H. injection H as <- <-.
  apply clone_Ok in Hclone as (Hf & Hi & Hc).
  split; [done|]. split; [done|].
  apply is_contained_in_reconstructed.
  destruct e0, f. unfold core in *. simpl in *. by simplify_eq.
Qed.

(** The new exons: each is an exon with an id still to come, the ids
    differ from each other, and every coding-info feature lies within an
    old or a new exon. *)
Lemma collect_new_exons_Ok exons coding_info : forall w new_exons w',
  collect_new_exons exons coding_info w = (Ok new_exons, w') ->
  feats w' = feats w /\
  Forall (fun e => StructuredFeature.type e = FeatureDecoder.exon) new_exons /\
  Forall (ids_to_come (feature_ider w)) (StructuredFeature.id <$> new_exons) /\
  NoDup (StructuredFeature.id <$> new_exons) /\
  Forall (fun f =>
            existsb (fun exon => StructuredFeature.is_contained_in f exon)
                    (exons ++ new_exons) = true) coding_info.
Proof.
  induction coding_info as [|f coding_info IH]; intros w new_exons w'; simpl.
  - unfold mret, M_ret. intros [= <- <-]. repeat split; constructor.
  - destruct (existsb _ exons) eqn:Hcovered.
    + intros H. apply IH in H as (Hf & Hty & Hids & Hnd & Hcov).
      repeat split; try done. constructor; [|done].
      rewrite existsb_app, Hcovered. done.
    + intros H. bind_inv H as e w1 Hrec. bind_inv H as rest w2 Hrest.
      unfold mret, M_ret in H. injection H as <- <-.
      apply reconstruct_exon_Ok in Hrec as (Hf1 & Hi1 & Hin & Hty1 & Hid1).
      apply IH in Hrest as (Hf & Hty & Hids & Hnd & Hcov).
      rewrite Hi1 in Hids.
      split; [congruence|]. split; [by constructor|]. split; [|split].
      * simpl. constructor; [rewrite Hid1; apply ids_to_come_now|].
        eapply Forall_impl; [done|]. intros x Hx.
        by apply ids_to_come_next in Hx as [? _].
      * simpl. constructor; [|done]. rewrite Hid1. intros Hx.
        rewrite Forall_forall in Hids.
        by apply Hids, ids_to_come_next in Hx as [_ ?].
      * constructor.
        -- rewrite existsb_app. simpl. rewrite Hin. by rewrite orb_true_r.
        -- eapply Forall_impl; [done|]. intros x. simpl.
           rewrite !existsb_app. simpl.
           destruct (existsb
                       (fun exon => StructuredFeature.is_contained_in x exon)
                       exons); [done|]. simpl.
           intros ->. by rewrite orb_true_r.
Qed.

(** Storing exons whose ids are new to the dictionary and differ from each
    other puts them after the features that are there, which stay. *)
Lemma store_new_exons new_exons : forall w,
  NoDup (StructuredFeature.id <$> new_exons) ->
  Forall (fun x => x ∉ dict_keys (feats w)) (StructuredFeature.id <$> new_exons) ->
  exists w',
    for_each new_exons (fun e =>
      w ← get;
      store_features
        (dict_set (StructuredFeature.id e) e (SuperLoci.features (locus w)))) w
      = (Ok tt, w') /\
    feats w' = feats w ++ ((fun e => (StructuredFeature.id e, e)) <$> new_exons).
Proof.
  induction new_exons as [|e new_exons IH]; intros w Hnd Hfresh; simpl.
  - exists w. by rewrite app_nil_r.
  - apply NoDup_cons in Hnd as [He Hnd].
    apply Forall_cons in Hfresh as [Hfe Hfresh].
    unfold_monad. simpl.
    rewrite (dict_set_fresh _ _ _ Hfe).
    edestruct (IH (set_locus
                     (SuperLoci.set_features
                        (feats w ++ [(StructuredFeature.id e, e)]) (locus w)) w))
      as (w' & Hrun & Hfeats); [done| |].
    + simpl. eapply Forall_impl; [apply Forall_and; split;
        [exact Hfresh | apply Forall_forall; intros x Hx; exact Hx]|].
      simpl. intros x [Hx Hin]. unfold dict_keys. rewrite fmap_app. simpl.
      rewrite not_elem_of_app. split; [done|].
      intros Heq. apply list_elem_of_singleton in Heq. by subst.
    + exists w'. split; [done|]. rewrite Hfeats. simpl.
      by rewrite <- app_assoc.
Qed.

(** Short of the defect of the id maker, [maybe_reconstruct_exons] does what
    it is meant to: when none of the ids the feature id maker can still
    synthesize is a key of the feature map, a run that ends normally leaves
    every coding-info feature within an exon of the locus. *)
Lemma maybe_reconstruct_exons_covers w w' :
  (forall x, ids_to_come (feature_ider w) x -> x ∉ dict_keys (feats w)) ->
  maybe_reconstruct_exons w = (Ok tt, w') ->
  exons_cover_coding_info (locus w') = true.
Proof.
  intros Hfresh. unfold maybe_reconstruct_exons. intros H.
  bind_inv H as w0 w1 Hget. injection Hget as <- <-.
  bind_inv H as new_exons w2 Hcollect.
  apply collect_new_exons_Ok in Hcollect as (Hf & Hty & Hids & Hnd & Hcov).
  destruct (store_new_exons new_exons w2 Hnd) as (w3 & Hrun & Hfeats).
  { rewrite Hf. eapply Forall_impl; [done|]. apply Hfresh. }
  rewrite Hrun in H. injection H as <-.
  assert (((fun e => (StructuredFeature.id e, e)) <$> new_exons).*2
          = new_exons) as Hsnd.
  { clear. induction new_exons as [|e l IH]; csimpl; [done|]. by f_equal. }
  unfold exons_cover_coding_info, SuperLoci.exons,
    SuperLoci.coding_info_features, dict_values.
  rewrite Hfeats, Hf, fmap_app, Hsnd, !filter_app.
  assert (filter (fun f => StructuredFeature.type f = FeatureDecoder.exon)
                 new_exons = new_exons) as ->
    by (by apply filter_all).
  assert (filter (fun f => StructuredFeature.type f ∈ FeatureDecoder.coding_info)
                 new_exons = []) as ->.
  { clear -Hty. induction Hty as [|e l He _ IH]; [done|].
    rewrite filter_cons_False; [done|].
    rewrite He. intros Hin. revert Hin. apply (bool_decide_unpack _).
    vm_compute. exact I. }
  rewrite app_nil_r. apply forallb_forall. intros f Hin.
  apply list_elem_of_In in Hin.
  rewrite Forall_forall in Hcov. by apply Hcov.
Qed.

(** C5: the exon of [clashing_group] carries the id [ftr000000].  When the
    locus is built, the CDS lies in no exon, and the exon reconstructed for
    it is given the id [ftr000000] once more, so that it takes the place of
    the exon of the file.  The run ends normally, and the 5'UTR on bases
    10-20, which lay within the exon of the file, lies within no exon of the
    locus any more. *)
Theorem maybe_reconstruct_exons_uncovers_utr :
  let r := add_gff_entry_group clashing_group (World_init "sp" 0) in
  r.1 = Ok tt /\
  ((fun f => (StructuredFeature.id f, StructuredFeature.type f,
              StructuredFeature.start f, StructuredFeature.end_ f))
     <$> dict_values (SuperLoci.features (locus r.2))) =
    [("ftr000000", "exon", 200, 300); ("u1", "five_prime_UTR", 10, 20);
     ("c1", "CDS", 200, 300)] /\
  exons_cover_coding_info (locus r.2) = false.
Proof. vm_compute. repeat split; reflexivity. Qed.

(** ** Splitting a tree of intervals *)

Lemma boundaries_sorted tree : StronglySorted Z.le (boundaries tree).
Proof. apply StronglySorted_merge_sort; apply _. Qed.

Lemma elem_of_boundaries tree x :
  x ∈ boundaries tree <-> x ∈ (begin <$> tree) ++ (end_ <$> tree).
Proof.
  unfold boundaries. by rewrite merge_sort_Permutation, elem_of_remove_dups.
Qed.

(** Two pairs of neighbours in an ascending list are the same pair, or one
    ends where or before the other starts. *)
Lemma neighbours_apart (bounds : list Z) p q :
  StronglySorted Z.le bounds ->
  p ∈ zip bounds (tail bounds) -> q ∈ zip bounds (tail bounds) ->
  p = q \/ p.2 <= q.1 \/ q.2 <= p.1.
Proof.
  induction 1 as [|x bounds Hsorted IH Hx]; simpl; [by intros ?%elem_of_nil|].
  destruct bounds as [|y rest]; simpl; [by intros ?%elem_of_nil|].
  assert (forall r, r ∈ zip (y :: rest) rest -> y <= r.1) as Hlater.
  { intros [r1 r2] Hr. apply elem_of_zip_l in Hr.
    apply elem_of_cons in Hr as [->|Hr]; simpl; [lia|].
    apply StronglySorted_inv in Hsorted as [_ Hy].
    rewrite Forall_forall in Hy. by apply Hy. }
  intros Hp Hq.
  apply elem_of_cons in Hp as [->|Hp], Hq as [->|Hq]; simpl.
  - by left.
  - right; left. by apply Hlater.
  - right; right. by apply Hlater.
  - by apply IH.
Qed.

Lemma elem_of_split_pieces tree (bounds : list Z) a :
  a ∈ flat_map
        (fun b : Z * Z =>
           (fun iv => mkInterval b.1 b.2 (data iv)) <$> tree_at b.1 tree)
        (zip bounds (tail bounds)) ->
  (begin a, end_ a) ∈ zip bounds (tail bounds).
Proof.
  rewrite list_elem_of_In, in_flat_map. intros ([b1 b2] & Hb & Ha).
  apply list_elem_of_In in Hb, Ha. simpl in Ha.
  apply list_elem_of_fmap in Ha as (iv & -> & _). done.
Qed.

(** After [split_overlaps], two intervals of the tree never overlap in
    part, provided the tree held no null interval. *)
Lemma split_overlaps_same_or_disjoint tree a b :
  Forall (fun iv => begin iv < end_ iv) tree ->
  a ∈ split_overlaps tree -> b ∈ split_overlaps tree ->
  same_or_disjoint a b.
Proof.
  intros Hvalid. unfold split_overlaps.
  destruct tree as [|iv0 tree0] eqn:Htree; [by intros ?%elem_of_nil|].
  rewrite <- Htree in *. clear Htree iv0 tree0.
  destruct (decide (length (boundaries tree) = 2%nat)) as [Hlen|Hlen].
  - intros Ha Hb.
    pose proof (boundaries_sorted tree) as Hsorted.
    destruct (boundaries tree) as [|x [|y [|z rest]]] eqn:Hbounds;
      try discriminate.
    apply StronglySorted_inv in Hsorted as [_ Hxy].
    apply Forall_cons in Hxy as [Hxy _].
    assert (forall iv, iv ∈ tree -> begin iv = x /\ end_ iv = y) as Hextent.
    { intros iv Hiv.
      assert (begin iv ∈ [x; y]) as Hbi.
      { rewrite <- Hbounds, elem_of_boundaries, elem_of_app. left.
        by apply list_elem_of_fmap_2. }
      assert (end_ iv ∈ [x; y]) as Hei.
      { rewrite <- Hbounds, elem_of_boundaries, elem_of_app. right.
        by apply list_elem_of_fmap_2. }
      rewrite Forall_forall in Hvalid. specialize (Hvalid iv Hiv).
      rewrite !elem_of_cons, !elem_of_nil in Hbi, Hei. lia. }
    left. destruct (Hextent a Ha), (Hextent b Hb). lia.
  - rewrite !elem_of_remove_dups. intros Ha Hb.
    apply elem_of_split_pieces in Ha, Hb.
    destruct (neighbours_apart _ _ _ (boundaries_sorted tree) Ha Hb)
      as [Heq|[Hd|Hd]]; simpl in *.
    + left. by simplify_eq.
    + right; by left.
    + right; by right.
Qed.

Lemma tree_add_valid iv tree tree' :
  tree_add iv tree = Ok tree' ->
  Forall (fun iv => begin iv < end_ iv) tree ->
  Forall (fun iv => begin iv < end_ iv) tree'.
Proof.
  unfold tree_add, is_null. intros Hadd Hvalid.
  destruct (decide (iv ∈ tree)); [by simplify_eq|].
  case_bool_decide; [done|]. simplify_eq.
  apply Forall_app. split; [done|]. apply Forall_singleton. lia.
Qed.

Lemma fill_tree_valid features : forall tree tree',
  fill_tree features tree = Ok tree' ->
  Forall (fun iv => begin iv < end_ iv) tree ->
  Forall (fun iv => begin iv < end_ iv) tree'.
Proof.
  induction features as [|f features IH]; intros tree tree'; simpl.
  - by intros [= ->].
  - destruct (tree_add _ tree) as [tree1|] eqn:Hadd; [|done].
    intros Hfill Hvalid. eapply IH; [done|]. by eapply tree_add_valid.
Qed.

Lemma split_tree_same_or_disjoint sl features tree a b :
  split_tree sl features = Ok tree ->
  a ∈ tree -> b ∈ tree -> same_or_disjoint a b.
Proof.
  unfold split_tree.
  destruct (lookup_features _ features) as [fs|]; [|done].
  destruct (fill_tree fs []) as [tree0|] eqn:Hfill; [|done].
  intros [= <-]. apply split_overlaps_same_or_disjoint.
  eapply fill_tree_valid; [done|]. constructor.
Qed.

Lemma split_tree_two_features sl k1 k2 f1 f2 :
  dict_get k1 (SuperLoci.features sl) = Some f1 ->
  dict_get k2 (SuperLoci.features sl) = Some f2 ->
  f1 <> f2 ->
  StructuredFeature.start f1 = 1 -> StructuredFeature.end_ f1 = 100 ->
  StructuredFeature.start f2 = 50 -> StructuredFeature.end_ f2 = 150 ->
  split_tree sl [k1; k2] =
    Ok [mkInterval 0 49 f1; mkInterval 49 100 f1; mkInterval 49 100 f2;
        mkInterval 100 150 f2].
Proof.
  intros H1 H2 Hne Hs1 He1 Hs2 He2.
  unfold split_tree. simpl. rewrite H1, H2.
  unfold fill_tree, tree_add, StructuredFeature.py_start,
    StructuredFeature.py_end.
  rewrite Hs1, He1, Hs2, He2. simpl.
  case_decide as Hin; [|reflexivity].
  exfalso. apply elem_of_cons in Hin as [Hin|Hin].
  - apply Hne. congruence.
  - apply list_elem_of_singleton in Hin. discriminate.
Qed.

(** The partition itself, on an interpreter whose [features] attribute has
    been set to the ids of two distinct features spanning the bases 1-100
    and 50-150: [organize_and_split_features] yields clusters, and whatever
    the order in which the tree hands out its intervals, they are exactly
    three, in ascending order: bases 1-49 with the first feature only, bases
    50-100 with both features, bases 101-150 with the second feature only.
    (The types, sequence ids and strands of the features play no part.)
    Moreover, after the split no two intervals of any tree overlap in part:
    they have the same extent or no position in common. *)
Theorem organize_and_split_features_two_overlapping sl k1 k2 f1 f2 :
  dict_get k1 (SuperLoci.features sl) = Some f1 ->
  dict_get k2 (SuperLoci.features sl) = Some f2 ->
  f1 <> f2 ->
  StructuredFeature.start f1 = 1 -> StructuredFeature.end_ f1 = 100 ->
  StructuredFeature.start f2 = 50 -> StructuredFeature.end_ f2 = 150 ->
  (exists o, organize_and_split_features sl [k1; k2] o) /\
  (forall o, organize_and_split_features sl [k1; k2] o ->
     exists c1 c2 c3,
       o = Ok [c1; c2; c3] /\
       (bases <$> c1 = [(1, 49)] /\ data <$> c1 = [f1]) /\
       (Forall (fun iv => bases iv = (50, 100)) c2 /\
        data <$> c2 ≡ₚ [f1; f2]) /\
       (bases <$> c3 = [(101, 150)] /\ data <$> c3 = [f2])) /\
  (forall sl' features tree a b,
     split_tree sl' features = Ok tree ->
     a ∈ tree -> b ∈ tree -> same_or_disjoint a b).
Proof.
  intros H1 H2 Hne Hs1 He1 Hs2 He2.
  pose proof (split_tree_two_features sl k1 k2 f1 f2 H1 H2 Hne Hs1 He1 Hs2 He2)
    as Htree.
  split; [|split].
  - unfold organize_and_split_features. rewrite Htree. eauto.
  - intros o. unfold organize_and_split_features. rewrite Htree.
    intros (enumeration & Hperm & ->).
    symmetry in Hperm. apply permutations_Permutation in Hperm.
    vm_compute in Hperm.
    repeat (apply elem_of_cons in Hperm as [->|Hperm]);
      [..|by apply elem_of_nil in Hperm];
      (eexists _, _, _; split; [vm_compute; reflexivity|];
       split; [split; reflexivity|];
       split; [|split; reflexivity];
       split; [repeat constructor | first [reflexivity | apply perm_swap]]).
  - apply split_tree_same_or_disjoint.
Qed.

Lemma organize_and_split_features_two_overlapping_witness :
  (exists o, organize_and_split_features
               (sample_locus [cds_1_100; cds_50_150]) ["c1"; "c2"] o) /\
  (forall o, organize_and_split_features
               (sample_locus [cds_1_100; cds_50_150]) ["c1"; "c2"] o ->
     exists c1 c2 c3,
       o = Ok [c1; c2; c3] /\
       (bases <$> c1 = [(1, 49)] /\ data <$> c1 = [cds_1_100]) /\
       (Forall (fun iv => bases iv = (50, 100)) c2 /\
        data <$> c2 ≡ₚ [cds_1_100; cds_50_150]) /\
       (bases <$> c3 = [(101, 150)] /\ data <$> c3 = [cds_50_150])) /\
  (forall sl' features tree a b,
     split_tree sl' features = Ok tree ->
     a ∈ tree -> b ∈ tree -> same_or_disjoint a b).
Proof.
  apply (organize_and_split_features_two_overlapping
           (sample_locus [cds_1_100; cds_50_150]) "c1" "c2");
    [reflexivity | reflexivity | discriminate | reflexivity..].
Defined.

(** ** Transitions of the status machine *)

Lemma get_status_Ok_or_ValueError last_seen pre_intron :
  (exists st, get_status last_seen pre_intron = Ok st) \/
  get_status last_seen pre_intron = Raise ValueError.
Proof. unfold get_status. repeat case_decide; eauto. Qed.

Lemma possible_types_Ok_or_ValueError intervals :
  (exists ts, possible_types intervals = Ok ts) \/
  possible_types intervals = Raise ValueError.
Proof. unfold possible_types. repeat case_decide; eauto. Qed.

(** The status test of [interpret_transition] compares a pair with a
    string, so the branch behind it is never taken: whatever the arguments,
    the method synthesizes no feature, changes nothing, and fails only with
    the [ValueError] of [get_status] or [possible_types]. *)
Lemma interpret_transition_synthesizes_nothing
    last_feature pre_intron_status ivals_before ivals_after plus_strand w :
  interpret_transition last_feature pre_intron_status ivals_before ivals_after
                       plus_strand w = (Ok [], w) \/
  interpret_transition last_feature pre_intron_status ivals_before ivals_after
                       plus_strand w = (Raise ValueError, w).
Proof.
  unfold interpret_transition. unfold_monad.
  destruct (get_status_Ok_or_ValueError
              (StructuredFeature.type last_feature) pre_intron_status)
    as [[st ->]| ->]; [|by right].
  destruct (possible_types_Ok_or_ValueError ivals_before)
    as [[bt ->]| ->]; [|by right].
  destruct (possible_types_Ok_or_ValueError ivals_after)
    as [[at' ->]| ->]; [|by right].
  by left.
Qed.

(** C6: with a TSS emitted last, a 5'UTR cluster before and a CDS cluster
    after, [interpret_transition] neither fails when a gap lies between the
    two features nor synthesizes a start codon when they are adjacent: it
    returns an empty list and leaves the world as it is.  The same happens
    when the status comes out as the very string [five_prime_UTR].  The
    branch meant for this case, were it entered, would stop with
    [AttributeError]. *)
Theorem interpret_transition_no_start_codon :
  get_status (StructuredFeature.type tss_1)
             FeatureDecoder.status_five_prime_UTR =
    Ok (FeatureDecoder.status_five_prime_UTR,
        FeatureDecoder.status_five_prime_UTR) /\
  get_status (StructuredFeature.type acceptor_10)
             FeatureDecoder.five_prime_UTR =
    Ok (FeatureDecoder.five_prime_UTR, FeatureDecoder.five_prime_UTR) /\
  possible_types [interval_of utr_1_10] = Ok [FeatureDecoder.five_prime_UTR] /\
  possible_types [interval_of cds_21_30] = Ok [FeatureDecoder.cds] /\
  possible_types [interval_of cds_11_30] = Ok [FeatureDecoder.cds] /\
  interpret_transition tss_1 FeatureDecoder.status_five_prime_UTR
    [interval_of utr_1_10] [interval_of cds_21_30] true start_world
    = (Ok [], start_world) /\
  interpret_transition tss_1 FeatureDecoder.status_five_prime_UTR
    [interval_of utr_1_10] [interval_of cds_11_30] true start_world
    = (Ok [], start_world) /\
  interpret_transition acceptor_10 FeatureDecoder.five_prime_UTR
    [interval_of utr_1_10] [interval_of cds_11_30] true start_world
    = (Ok [], start_world) /\
  (five_prime_transition [FeatureDecoder.five_prime_UTR] [FeatureDecoder.cds]
     [interval_of utr_1_10] [interval_of cds_11_30] 1 start_world).1
    = Raise AttributeError.
Proof. vm_compute. repeat split; reflexivity. Qed.

(** C7: with a TSS emitted last and a 5'UTR cluster on either side,
    [interpret_transition] neither fails when the two features are
    contiguous nor synthesizes splice sites when a gap lies between them: it
    returns an empty list and leaves the world as it is.  The branch meant
    for this case, were it entered, would accept the contiguous features
    too, and would leave the type of the template on both clones. *)
Theorem interpret_transition_no_splice_sites :
  possible_types [interval_of utr_1_10] = Ok [FeatureDecoder.five_prime_UTR] /\
  possible_types [interval_of utr_11_20] = Ok [FeatureDecoder.five_prime_UTR] /\
  possible_types [interval_of utr_21_30] = Ok [FeatureDecoder.five_prime_UTR] /\
  interpret_transition tss_1 FeatureDecoder.status_five_prime_UTR
    [interval_of utr_1_10] [interval_of utr_11_20] true start_world
    = (Ok [], start_world) /\
  interpret_transition tss_1 FeatureDecoder.status_five_prime_UTR
    [interval_of utr_1_10] [interval_of utr_21_30] true start_world
    = (Ok [], start_world) /\
  interpret_transition acceptor_10 FeatureDecoder.five_prime_UTR
    [interval_of utr_1_10] [interval_of utr_21_30] true start_world
    = (Ok [], start_world) /\
  summary
    (five_prime_transition
       [FeatureDecoder.five_prime_UTR] [FeatureDecoder.five_prime_UTR]
       [interval_of utr_1_10] [interval_of utr_11_20] 1 start_world).1
    = Ok [("five_prime_UTR", 11, 11); ("five_prime_UTR", 10, 10)] /\
  summary
    (five_prime_transition
       [FeatureDecoder.five_prime_UTR] [FeatureDecoder.five_prime_UTR]
       [interval_of utr_1_10] [interval_of utr_21_30] 1 start_world).1
    = Ok [("five_prime_UTR", 11, 11); ("five_prime_UTR", 20, 20)].
Proof. vm_compute. repeat split; reflexivity. Qed.

(** ** The interpreter as its constructor builds it *)

(** Without ids in the [features] attribute the tree stays empty, and the
    generator stops at [next(intervals)]. *)
Lemma organize_and_split_features_no_features sl o :
  organize_and_split_features sl [] o <-> o = Raise RuntimeError.
Proof.
  unfold organize_and_split_features. simpl. split.
  - intros (enumeration & Hperm & ->).
    apply Permutation_nil_r in Hperm. by subst.
  - intros ->. by exists [].
Qed.

(** C4: the locus [sample_locus [cds_1_100; cds_50_150]] holds two CDS of one
    sequence and strand, spanning the bases 1-100 and 50-150, both linked to
    the transcript [t1].  The interpreter made for that transcript has an
    empty [features] attribute, as every interpreter has, so that
    [organize_and_split_features] yields no cluster at all: the one thing
    it can do is to stop with [RuntimeError].  The three clusters come out
    only when the attribute is set by hand. *)
Theorem organize_and_split_features_interpreter_has_no_features :
  let sl := sample_locus [cds_1_100; cds_50_150] in
  exists transcript self,
    SuperLoci.transcripts sl !! "t1" = Some transcript /\
    Transcribed.features transcript = ["c1"; "c2"] /\
    dict_get "c1" (SuperLoci.features sl) = Some cds_1_100 /\
    dict_get "c2" (SuperLoci.features sl) = Some cds_50_150 /\
    TranscriptInterpreter.init transcript = Ok self /\
    TranscriptInterpreter.features self = [] /\
    (forall o,
       organize_and_split_features sl (TranscriptInterpreter.features self) o
       <-> o = Raise RuntimeError) /\
    (forall transcript' self',
       TranscriptInterpreter.init transcript' = Ok self' ->
       TranscriptInterpreter.features self' = []) /\
    (forall o,
       organize_and_split_features sl ["c1"; "c2"] o ->
       exists c1 c2 c3, o = Ok [c1; c2; c3]).
Proof.
  simpl. eexists _, _.
  split; [vm_compute; reflexivity|].
  split; [reflexivity|]. split; [reflexivity|]. split; [reflexivity|].
  split; [reflexivity|]. split; [reflexivity|]. split; [|split].
  - intros o. apply organize_and_split_features_no_features.
  - intros transcript' self'. unfold TranscriptInterpreter.init.
    destruct (Transcribed.super_loci transcript'); [|done].
    by intros [= <-].
  - intros o Hrun.
    assert (split_tree (sample_locus [cds_1_100; cds_50_150]) ["c1"; "c2"] =
            Ok [mkInterval 0 49 cds_1_100; mkInterval 49 100 cds_1_100;
                mkInterval 49 100 cds_50_150; mkInterval 100 150 cds_50_150])
      as Htree.
    { apply split_tree_two_features; (reflexivity || discriminate). }
    unfold organize_and_split_features in Hrun. rewrite Htree in Hrun.
    destruct Hrun as (enumeration & Hperm & ->).
    symmetry in Hperm. apply permutations_Permutation in Hperm.
    vm_compute in Hperm.
    repeat (apply elem_of_cons in Hperm as [->|Hperm]);
      [..|by apply elem_of_nil in Hperm];
      (eexists _, _, _; vm_compute; reflexivity).
Qed.

(** * Further properties of the code *)

(** ** IDMaker: which ids can repeat *)

Lemma next_unique_id_cases suggestion m :
  (exists s, suggestion = Some s /\ (s ∉ _seen m) /\
             (next_unique_id suggestion m =
                (s, {| _counter := _counter m; prefix := prefix m;
                       _seen := {[ s ]} ∪ _seen m; _width := _width m |}))) \/
  next_unique_id suggestion m = _new_id m.
Proof.
  unfold next_unique_id. destruct suggestion as [s|]; [|by right].
  case_decide; [by right|]. left. eauto.
Qed.

(** An id that is issued was a suggestion not seen before, or is one of the
    ids the maker could still synthesize. *)
Lemma issue_elem calls : forall m x,
  x ∈ issue calls m ->
  (Some x ∈ calls /\ x ∉ _seen m) \/ ids_to_come m x.
Proof.
  induction calls as [|c calls IH]; intros m x; simpl;
    [by intros ?%elem_of_nil|].
  destruct (next_unique_id_cases c m) as [(s & -> & Hs & ->)| ->].
  - intros Hx. apply elem_of_cons in Hx as [->|Hx].
    + left. split; [apply list_elem_of_here|done].
    + apply IH in Hx as [[Hin Hseen]|Hcome].
      * left. split; [by apply list_elem_of_further|]. simpl in Hseen.
        set_solver.
      * right. exact Hcome.
  - unfold _new_id. simpl. intros Hx.
    apply elem_of_cons in Hx as [->|Hx].
    + right. apply ids_to_come_now.
    + apply IH in Hx as [[Hin Hseen]|Hcome].
      * left. split; [by apply list_elem_of_further|]. simpl in Hseen.
        set_solver.
      * right. by apply ids_to_come_next in Hcome as [? _].
Qed.

(** X1: the ids issued by one id maker over any sequence of calls are
    pairwise distinct, provided no suggestion has the form of an id the
    maker can still synthesize (its prefix followed by the padded numeral of
    a number from its counter on). *)
Theorem issue_NoDup calls : forall m,
  (forall s, Some s ∈ calls -> ~ ids_to_come m s) ->
  NoDup (issue calls m).
Proof.
  induction calls as [|c calls IH]; intros m Hsafe; simpl; [constructor|].
  assert (forall s, Some s ∈ calls -> ~ ids_to_come m s) as Hsafe'.
  { intros s Hs. apply Hsafe. by apply list_elem_of_further. }
  destruct (next_unique_id_cases c m) as [(s & -> & Hs & ->)| ->].
  - constructor; [|by apply IH].
    intros Hin. apply issue_elem in Hin as [[_ Hseen]|Hcome].
    + simpl in Hseen. set_solver.
    + apply (Hsafe s); [apply list_elem_of_here|]. exact Hcome.
  - unfold _new_id. simpl. constructor.
    + intros Hin. apply issue_elem in Hin as [[_ Hseen]|Hcome].
      * simpl in Hseen. set_solver.
      * by apply ids_to_come_next in Hcome as [_ ?].
    + apply IH. intros s Hs Hcome.
      apply (Hsafe' s Hs). by apply ids_to_come_next in Hcome as [? _].
Qed.

Lemma issue_NoDup_witness :
  NoDup (issue [Some "e1"; None; Some "e1"; None] (IDMaker_init "ftr" 6)).
Proof.
  apply issue_NoDup. intros s Hs (j & _ & Hj).
  repeat (apply elem_of_cons in Hs as [Hs|Hs]; [by simplify_eq|]).
  by apply elem_of_nil in Hs.
Defined.

(** X2: the set [_seen] of an id maker holds, after any sequence of calls,
    the ids it held before and the ids issued by these calls, and nothing
    else. *)
Theorem run_calls_seen calls : forall m,
  _seen (run_calls calls m) = list_to_set (issue calls m) ∪ _seen m.
Proof.
  induction calls as [|c calls IH]; intros m; simpl; [set_solver|].
  destruct (next_unique_id c m) as [new_id m'] eqn:Hcall. simpl.
  rewrite IH.
  assert (_seen m' = {[ new_id ]} ∪ _seen m) as ->; [|set_solver].
  destruct (next_unique_id_cases c m) as [(s & -> & Hs & Heq)|Heq];
    rewrite Heq in Hcall.
  - by simplify_eq.
  - unfold _new_id in Hcall. by simplify_eq.
Qed.

(** ** Reading and grouping the records of a file *)

(** The records [useful_gff_entries] lets through. *)
Local Abbreviation useful :=
  (fun entry : GFFObject.t =>
     GFFObject.type entry ∉ FeatureDecoder.regions ++ FeatureDecoder.ignorable).

Lemma useful_gff_entries_filter reader :
  Forall (fun entry => GFFObject.type entry ∈ FeatureDecoder.known) reader ->
  useful_gff_entries reader = (filter useful reader, Finished).
Proof.
  induction 1 as [|entry reader Hknown _ IH]; simpl; [done|].
  rewrite decide_True by done.
  destruct (decide (GFFObject.type entry ∈ _)) as [Hskip|Hskip].
  - rewrite IH. by rewrite filter_cons_False by (by intros []).
  - rewrite IH. by rewrite filter_cons_True.
Qed.

Lemma useful_gff_entries_stop pre bad post :
  Forall (fun entry => GFFObject.type entry ∈ FeatureDecoder.known) pre ->
  GFFObject.type bad ∉ FeatureDecoder.known ->
  useful_gff_entries (pre ++ bad :: post) =
    (filter useful pre, Failed ValueError).
Proof.
  intros Hpre Hbad.
  induction Hpre as [|entry pre Hknown _ IH]; simpl.
  - by rewrite decide_False.
  - rewrite decide_True by done.
    destruct (decide (GFFObject.type entry ∈ _)) as [Hskip|Hskip].
    + rewrite IH. by rewrite filter_cons_False by (by intros []).
    + rewrite IH. by rewrite filter_cons_True.
Qed.

(** X3: [useful_gff_entries] yields, in the order of the file, the records
    in front of the first record of an unknown type that are neither regions
    nor ignorable, and then stops with [ValueError]: nothing behind that
    record is read, and an unknown type is an error even where a record of
    a skipped type would have been dropped. *)
Theorem useful_gff_entries_stops_at_unknown_type pre bad post :
  Forall (fun entry => GFFObject.type entry ∈ FeatureDecoder.known) pre ->
  GFFObject.type bad ∉ FeatureDecoder.known ->
  useful_gff_entries (pre ++ bad :: post) =
    ((useful_gff_entries pre).1, Failed ValueError) /\
  (useful_gff_entries pre).1 = filter useful pre.
Proof.
  intros Hpre Hbad. rewrite useful_gff_entries_stop by done.
  by rewrite useful_gff_entries_filter.
Qed.

Lemma useful_gff_entries_stops_at_unknown_type_witness :
  useful_gff_entries
    ([gff_record "region" None [] 1 5000 "."; gff_record "gene" (Some "g") [] 1 9 "."]
     ++ gff_record "chromosome_band" None [] 1 9 "."
     :: [gff_record "mRNA" (Some "t") ["g"] 1 9 "."]) =
    ((useful_gff_entries
        [gff_record "region" None [] 1 5000 ".";
         gff_record "gene" (Some "g") [] 1 9 "."]).1, Failed ValueError) /\
  (useful_gff_entries
     [gff_record "region" None [] 1 5000 ".";
      gff_record "gene" (Some "g") [] 1 9 "."]).1 =
    filter useful [gff_record "region" None [] 1 5000 ".";
                   gff_record "gene" (Some "g") [] 1 9 "."].
Proof.
  apply useful_gff_entries_stops_at_unknown_type.
  - repeat constructor; apply (bool_decide_unpack _); vm_compute; exact I.
  - apply (bool_decide_unpack _); vm_compute; exact I.
Defined.

(** The loop of [group_gff_by_gene] on a reader that fails: the groups
    completed so far are yielded, the group under construction is not. *)
Lemma group_loop_Failed e entries : forall gene_group,
  group_loop gene_group entries (Failed e) =
    (removelast (group_loop gene_group entries Finished).1, Failed e).
Proof.
  induction entries as [|entry entries IH]; intros gene_group; simpl; [done|].
  case_decide.
  - rewrite IH.
    destruct (group_loop_cuts entries [entry]) as (groups & Hrun & _ & (rest & Hhead & _) & _).
    rewrite Hrun. simpl. by rewrite Hhead.
  - apply IH.
Qed.

(** X4: a record of an unknown type anywhere in the file makes
    [group_gff_by_gene] stop with [ValueError] when it is reached, and the
    group under construction at that point is never yielded: the groups
    that come out are those of the records in front of it, less the last
    one. *)
Theorem group_gff_by_gene_unknown_type_drops_group pre bad post :
  Forall (fun entry => GFFObject.type entry ∈ FeatureDecoder.known) pre ->
  GFFObject.type bad ∉ FeatureDecoder.known ->
  group_gff_by_gene (pre ++ bad :: post) =
    (removelast (group_gff_by_gene pre).1, Failed ValueError).
Proof.
  intros Hpre Hbad. unfold group_gff_by_gene.
  rewrite useful_gff_entries_stop, useful_gff_entries_filter by done.
  destruct (filter useful pre) as [|first entries]; [done|].
  apply group_loop_Failed.
Qed.

Lemma group_gff_by_gene_unknown_type_drops_group_witness :
  group_gff_by_gene
    ([gff_record "gene" (Some "g") [] 1 9 "."; gff_record "mRNA" (Some "t") ["g"] 1 9 "."]
     ++ gff_record "chromosome_band" None [] 1 9 "." :: []) =
    (removelast
       (group_gff_by_gene
          [gff_record "gene" (Some "g") [] 1 9 ".";
           gff_record "mRNA" (Some "t") ["g"] 1 9 "."]).1, Failed ValueError).
Proof.
  apply group_gff_by_gene_unknown_type_drops_group.
  - repeat constructor; apply (bool_decide_unpack _); vm_compute; exact I.
  - apply (bool_decide_unpack _); vm_compute; exact I.
Defined.

(** X5: on a file whose records all have known types, and one of them at
    least is useful, [group_gff_by_gene] ends normally; its groups make up
    the useful records of the file in their order; the first group starts
    with the first useful record whatever its type; every later group
    starts with a record of type [gene], and no other record of a group has
    that type. *)
Theorem group_gff_by_gene_groups gff_file first entries :
  Forall (fun entry => GFFObject.type entry ∈ FeatureDecoder.known) gff_file ->
  filter useful gff_file = first :: entries ->
  exists groups,
    group_gff_by_gene gff_file = (groups, Finished) /\
    concat groups = filter useful gff_file /\
    (exists rest, groups = (first :: rest) :: tail groups /\
       Forall (fun entry => GFFObject.type entry <> "gene") rest) /\
    Forall (fun g => exists entry rest,
              g = entry :: rest /\ GFFObject.type entry = "gene" /\
              Forall (fun entry => GFFObject.type entry <> "gene") rest)
           (tail groups).
Proof.
  intros Hknown Huseful. unfold group_gff_by_gene.
  rewrite useful_gff_entries_filter, Huseful by done.
  apply (group_loop_cuts entries [first]).
Qed.

Lemma group_gff_by_gene_groups_witness :
  exists groups,
    group_gff_by_gene
      [gff_record "region" None [] 1 5000 ".";
       gff_record "mRNA" (Some "t0") ["g0"] 1 90 ".";
       gff_record "match" None [] 7 9 ".";
       gff_record "gene" (Some "g1") [] 100 300 ".";
       gff_record "mRNA" (Some "t1") ["g1"] 100 300 "."]
      = (groups, Finished) /\
    concat groups =
      filter useful
        [gff_record "region" None [] 1 5000 ".";
         gff_record "mRNA" (Some "t0") ["g0"] 1 90 ".";
         gff_record "match" None [] 7 9 ".";
         gff_record "gene" (Some "g1") [] 100 300 ".";
         gff_record "mRNA" (Some "t1") ["g1"] 100 300 "."] /\
    (exists rest,
       groups = (gff_record "mRNA" (Some "t0") ["g0"] 1 90 "." :: rest)
                  :: tail groups /\
       Forall (fun entry => GFFObject.type entry <> "gene") rest) /\
    Forall (fun g => exists entry rest,
              g = entry :: rest /\ GFFObject.type entry = "gene" /\
              Forall (fun entry => GFFObject.type entry <> "gene") rest)
           (tail groups).
Proof.
  apply (group_gff_by_gene_groups _ _
           [gff_record "gene" (Some "g1") [] 100 300 ".";
            gff_record "mRNA" (Some "t1") ["g1"] 100 300 "."]).
  - repeat constructor; apply (bool_decide_unpack _); vm_compute; exact I.
  - vm_compute. reflexivity.
Defined.

(** ** Adding a record to a feature: the parents *)

(** X6: a record without parents is added normally, but as an error: the
    feature takes the id, the span, the strand and the sequence of the
    record and the type [error], gets no link, and the locus is left as it
    was; the one trace is a [WARNING] in the log. *)
Theorem add_data_no_parents self w gff_entry :
  GFFObject.Parent gff_entry = [] ->
  exists self' w' msg,
    add_data gff_entry (self, w) = (Ok tt, (self', w')) /\
    StructuredFeature.id self' =
      (next_unique_id (GFFObject.ID gff_entry) (feature_ider w)).1 /\
    StructuredFeature.type self' = FeatureDecoder.error /\
    (StructuredFeature.start self', StructuredFeature.end_ self') =
      (GFFObject.start gff_entry, GFFObject.end_ gff_entry) /\
    StructuredFeature.transcripts self' = StructuredFeature.transcripts self /\
    locus w' = locus w /\
    log w' = log w ++ [("WARNING", msg)].
Proof.
  intros Hparent. unfold add_data. rewrite Hparent.
  unfold feature_next_unique_id. simpl. unfold_monad. simpl.
  destruct (next_unique_id (GFFObject.ID gff_entry) (feature_ider w))
    as [new_id m] eqn:Hid. simpl.
  eexists _, _, _. split; [reflexivity|]. done.
Qed.

Lemma add_data_no_parents_witness :
  exists self' w' msg,
    add_data (gff_record "exon" (Some "e1") [] 1 100 ".")
             (StructuredFeature.init, one_transcript_world)
      = (Ok tt, (self', w')) /\
    StructuredFeature.id self' =
      (next_unique_id (Some "e1") (feature_ider one_transcript_world)).1 /\
    StructuredFeature.type self' = FeatureDecoder.error /\
    (StructuredFeature.start self', StructuredFeature.end_ self') = (1, 100) /\
    StructuredFeature.transcripts self' = [] /\
    locus w' = locus one_transcript_world /\
    log w' = log one_transcript_world ++ [("WARNING", msg)].
Proof.
  apply (add_data_no_parents StructuredFeature.init one_transcript_world
           (gff_record "exon" (Some "e1") [] 1 100 ".")).
  reflexivity.
Defined.

(** X7: a first parent that is neither a transcript of the locus nor the
    locus itself stops [add_data] with [KeyError], whatever parents follow.
    By then the feature is marked as an error and a [WARNING] is logged;
    no transcript has been touched, and the feature has no link. *)
Theorem add_data_unknown_parent self w gff_entry parent parents :
  GFFObject.Parent gff_entry = parent :: parents ->
  SuperLoci.transcripts (locus w) !! parent = None ->
  parent <> SuperLoci.id (locus w) ->
  exists self' w' msg,
    add_data gff_entry (self, w) = (Raise KeyError, (self', w')) /\
    StructuredFeature.type self' = FeatureDecoder.error /\
    StructuredFeature.transcripts self' = StructuredFeature.transcripts self /\
    locus w' = locus w /\
    log w' = log w ++ [("WARNING", msg)].
Proof.
  intros Hparent Htr Hid. unfold add_data. rewrite Hparent.
  unfold feature_next_unique_id, link_to_transcript_and_back. simpl.
  unfold_monad. simpl.
  destruct (next_unique_id (GFFObject.ID gff_entry) (feature_ider w))
    as [new_id m] eqn:Hnew. simpl.
  rewrite Htr. simpl.
  rewrite decide_False by done. simpl.
  rewrite decide_True by done. simpl.
  eexists _, _, _. split; [reflexivity|]. done.
Qed.

Lemma add_data_unknown_parent_witness :
  exists self' w' msg,
    add_data (gff_record "exon" (Some "e1") ["t9"; "t1"] 1 100 ".")
             (StructuredFeature.init, one_transcript_world)
      = (Raise KeyError, (self', w')) /\
    StructuredFeature.type self' = FeatureDecoder.error /\
    StructuredFeature.transcripts self' = [] /\
    locus w' = locus one_transcript_world /\
    log w' = log one_transcript_world ++ [("WARNING", msg)].
Proof.
  apply (add_data_unknown_parent StructuredFeature.init one_transcript_world
           (gff_record "exon" (Some "e1") ["t9"; "t1"] 1 100 ".") "t9" ["t1"]).
  - reflexivity.
  - vm_compute. reflexivity.
  - vm_compute. discriminate.
Defined.

(** X8: a record whose one parent is the gene itself, in a locus that has
    no dummy transcript yet: [add_data] ends normally, a dummy transcript
    is made under the next synthesized transcript id and kept by the locus,
    the id of the feature is put twice on the feature list of the dummy,
    and its id once at the end of the transcript list of the feature. *)
Theorem add_data_parent_is_gene self w gff_entry :
  GFFObject.Parent gff_entry = [SuperLoci.id (locus w)] ->
  SuperLoci.transcripts (locus w) !! SuperLoci.id (locus w) = None ->
  SuperLoci._dummy_transcript (locus w) = None ->
  exists self' w',
    add_data gff_entry (self, w) = (Ok tt, (self', w')) /\
    SuperLoci._dummy_transcript (locus w') =
      Some (_fmt_id (transcript_ider w)) /\
    Transcribed.features <$>
      SuperLoci.transcripts (locus w') !! _fmt_id (transcript_ider w) =
      Some [StructuredFeature.id self'; StructuredFeature.id self'] /\
    StructuredFeature.transcripts self' =
      StructuredFeature.transcripts self ++ [_fmt_id (transcript_ider w)] /\
    StructuredFeature.type self' = GFFObject.type gff_entry.
Proof.
  intros Hparent Htr Hdummy. unfold add_data. rewrite Hparent.
  unfold feature_next_unique_id, link_to_transcript_and_back,
    dummy_transcript, transcript_next_unique_id. simpl.
  unfold_monad. simpl.
  destruct (next_unique_id (GFFObject.ID gff_entry) (feature_ider w))
    as [new_id m] eqn:Hid. simpl.
  rewrite Htr. simpl.
  rewrite decide_True by done. simpl.
  rewrite Hdummy. simpl.
  rewrite lookup_insert_eq. simpl.
  rewrite decide_True by done. simpl.
  rewrite lookup_insert_eq. simpl.
  eexists _, _. split; [reflexivity|]. simpl.
  rewrite lookup_insert_eq. done.
Qed.

Lemma add_data_parent_is_gene_witness :
  exists self' w',
    add_data (gff_record "exon" (Some "e1") ["g1"] 1 100 ".")
             (StructuredFeature.init, one_transcript_world)
      = (Ok tt, (self', w')) /\
    SuperLoci._dummy_transcript (locus w') =
      Some (_fmt_id (transcript_ider one_transcript_world)) /\
    Transcribed.features <$>
      SuperLoci.transcripts (locus w')
        !! _fmt_id (transcript_ider one_transcript_world) =
      Some [StructuredFeature.id self'; StructuredFeature.id self'] /\
    StructuredFeature.transcripts self' =
      [] ++ [_fmt_id (transcript_ider one_transcript_world)] /\
    StructuredFeature.type self' = "exon".
Proof.
  apply (add_data_parent_is_gene StructuredFeature.init one_transcript_world
           (gff_record "exon" (Some "e1") ["g1"] 1 100 "."));
    vm_compute; reflexivity.
Defined.

(** X9: [dummy_transcript] always returns, and a second call returns the
    same transcript and changes nothing; the first call on a locus without
    dummy stores a blank transcript under the id it returns. *)
Theorem dummy_transcript_idempotent w :
  exists d w',
    dummy_transcript w = (Ok d, w') /\
    dummy_transcript w' = (Ok d, w') /\
    SuperLoci._dummy_transcript (locus w') = Some d /\
    (SuperLoci._dummy_transcript (locus w) = None ->
     SuperLoci.transcripts (locus w') !! d =
       Some (Transcribed.set_id d Transcribed.init)).
Proof.
  unfold dummy_transcript, transcript_next_unique_id. unfold_monad. simpl.
  destruct (SuperLoci._dummy_transcript (locus w)) as [d|] eqn:Hdummy.
  - exists d, w. rewrite Hdummy. done.
  - simpl. eexists _, _. split; [reflexivity|]. simpl.
    split; [done|]. split; [done|]. intros _.
    by rewrite lookup_insert_eq.
Qed.

(** ** A locus without features *)

(** X10: [check_and_fix_structure] on a locus that has no feature.  With a
    first record of a gene-level type it ends normally and the locus holds
    exactly one feature: an error feature over the span of that record,
    under the next synthesized feature id, with a [WARNING] in the log.
    With a first record of another type it stops with [AssertionError], and
    without any record with [IndexError]; the locus is then left empty. *)
Theorem check_and_fix_structure_no_features w entries :
  SuperLoci.features (locus w) = [] ->
  match entries with
  | [] => check_and_fix_structure entries w = (Raise IndexError, w)
  | entry :: _ =>
      if decide (GFFObject.type entry ∈ FeatureDecoder.gene_level) then
        exists w' msg,
          check_and_fix_structure entries w = (Ok tt, w') /\
          SuperLoci.features (locus w') =
            [(_fmt_id (feature_ider w),
              StructuredFeature.set_id (_fmt_id (feature_ider w))
                (StructuredFeature.set_type FeatureDecoder.error
                   (StructuredFeature.set_span (GFFObject.start entry)
                      (GFFObject.end_ entry) StructuredFeature.init)))] /\
          SuperLoci.transcripts (locus w') = SuperLoci.transcripts (locus w) /\
          log w' = log w ++ [("WARNING", msg)]
      else check_and_fix_structure entries w = (Raise AssertionError, w)
  end.
Proof.
  intros Hempty. unfold check_and_fix_structure.
  destruct entries as [|entry entries].
  - unfold_monad. simpl. by rewrite Hempty.
  - unfold _mark_erroneous, feature_next_unique_id. unfold_monad. simpl.
    rewrite Hempty. simpl.
    destruct (decide (GFFObject.type entry ∈ FeatureDecoder.gene_level));
      [|done].
    simpl. unfold collapse_identical_features, maybe_reconstruct_exons.
    unfold_monad. simpl. rewrite !Hempty. simpl.
    eexists _, _. split; [reflexivity|]. done.
Qed.

Lemma check_and_fix_structure_no_features_witness :
  exists w' msg,
    check_and_fix_structure [gff_record "gene" (Some "g1") [] 1 300 "."]
                            (World_init "sp" 0) = (Ok tt, w') /\
    SuperLoci.features (locus w') =
      [(_fmt_id (feature_ider (World_init "sp" 0)),
        StructuredFeature.set_id (_fmt_id (feature_ider (World_init "sp" 0)))
          (StructuredFeature.set_type FeatureDecoder.error
             (StructuredFeature.set_span 1 300 StructuredFeature.init)))] /\
    SuperLoci.transcripts (locus w') =
      SuperLoci.transcripts (locus (World_init "sp" 0)) /\
    log w' = log (World_init "sp" 0) ++ [("WARNING", msg)].
Proof.
  apply (check_and_fix_structure_no_features (World_init "sp" 0)
           [gff_record "gene" (Some "g1") [] 1 300 "."]).
  reflexivity.
Defined.

(** ** What [collapse_identical_features] removes *)

(** The features the outer loop removes: each of them fully overlaps a
    feature that stays. *)
Lemma collapse_loop_removed fuel : forall i w w',
  NoDup (dict_keys (feats w)) ->
  settled (feats w) (take i (sorted_keys w)) ->
  collapse_loop fuel i w = (Ok tt, w') ->
  exists removed,
    evolves removed (feats w) (feats w') /\
    forall o, o ∈ removed ->
      exists k, (k ∉ removed) /\ ov (feats w) k o = true.
Proof.
  induction fuel as [|fuel IH]; intros i w w' Hnd Hset; simpl;
    (destruct (decide (Z.of_nat i < Z.of_nat (length (feats w)) - 1))
       as [Hguard|Hguard];
     [|intros ?; simplify_eq; exists []; split;
       [apply evolves_refl|by intros o ?%elem_of_nil]]).
  - done.
  - intros H. bind_inv H as k w1 Hk. bind_inv H as f w2 Hf.
    bind_inv H as u w3 Hrun.
    apply of_option_Ok_inv in Hk as [Hk ->].
    apply of_option_Ok_inv in Hf as [_ ->].
    destruct u.
    pose proof (take_drop_middle _ _ _ Hk) as Hmid.
    destruct (collapse_round (take i (sorted_keys w)) k
                (drop (S i) (sorted_keys w)) w w3)
      as (Hnd3 & [l2' HS3] & Hset3); [done..|].
    assert (NoDup (sorted_keys w)) as HndS
      by (by rewrite sorted_keys_Permutation).
    rewrite <- Hmid in HndS.
    apply NoDup_app in HndS as (_ & _ & HndS).
    apply NoDup_cons in HndS as [Hkjs Hndjs].
    pose proof (collapse_against_Ok _ _ _ _ Hndjs Hkjs Hnd Hrun) as Hev1.
    set (R1 := filter (fun o => ov (feats w) k o = true)
                      (drop (S i) (sorted_keys w))) in *.
    assert (length (take i (sorted_keys w)) = i) as Hlen.
    { apply length_take_le. apply lookup_lt_Some in Hk. lia. }
    destruct (IH (S i) w3 w') as (R2 & Hev2 & Htwin); [done| |done|].
    { rewrite HS3.
      replace (take i (sorted_keys w) ++ k :: l2')
        with ((take i (sorted_keys w) ++ [k]) ++ l2')
        by (by rewrite <- app_assoc).
      rewrite take_app_length'; [done|].
      rewrite length_app. simpl. lia. }
    assert (k ∉ R1) as HkR1.
    { intros Hin. by apply list_elem_of_filter in Hin as [_ ?]. }
    assert (k ∉ R2) as HkR2.
    { intros Hin. destruct (Htwin k Hin) as (k2 & Hk2 & Hov).
      rewrite ov_sym in Hov.
      rewrite (Hset3 k k2) in Hov; [done| |].
      - apply elem_of_app. right. apply list_elem_of_here.
      - intros ->. done. }
    exists (R1 ++ R2). split; [by eapply evolves_app|].
    intros o Ho. apply elem_of_app in Ho as [Ho|Ho].
    + exists k. split; [by apply not_elem_of_app|].
      by apply list_elem_of_filter in Ho as [? _].
    + destruct (Htwin o Ho) as (k2 & Hk2 & Hov).
      assert (forall x y, ov (feats w3) x y = true -> x ∉ R1) as Hstay.
      { intros x y Hxy Hin. unfold ov in Hxy.
        by rewrite (evolves_get_removed _ _ _ x Hev1 Hin) in Hxy. }
      assert (k2 ∉ R1) as Hk2R1 by (by eapply Hstay).
      assert (o ∉ R1) as HoR1.
      { rewrite ov_sym in Hov. by eapply Hstay. }
      exists k2. split; [by apply not_elem_of_app|].
      destruct Hev1 as [_ Hc].
      rewrite <- (ov_core (feats w) (feats w3)); [done| |]; by apply Hc.
Qed.

(** X11: when [collapse_identical_features] ends normally, no two features
    that are left fully overlap; the features that are left are features of
    before, in their order and unchanged but for their links; and every
    feature that was removed fully overlapped a feature that is left. *)
Theorem collapse_identical_features_keeps_a_twin w w' :
  NoDup (dict_keys (SuperLoci.features (locus w))) ->
  collapse_identical_features w = (Ok tt, w') ->
  overlap_free (SuperLoci.features (locus w')) /\
  exists removed,
    evolves removed (SuperLoci.features (locus w))
                    (SuperLoci.features (locus w')) /\
    forall o, o ∈ removed ->
      exists k, (k ∉ removed) /\ ov (SuperLoci.features (locus w)) k o = true.
Proof.
  intros Hnd Hrun. unfold collapse_identical_features in Hrun.
  assert (settled (feats w) (take 0 (sorted_keys w))) as Hset.
  { intros ka kb Hka. by apply elem_of_nil in Hka. }
  split.
  - by apply collapse_loop_Ok in Hrun as [_ ?].
  - by apply collapse_loop_removed in Hrun.
Qed.

Lemma collapse_identical_features_keeps_a_twin_witness :
  overlap_free
    (SuperLoci.features (locus (collapse_identical_features duplicated_world).2)) /\
  exists removed,
    evolves removed
      (SuperLoci.features (locus duplicated_world))
      (SuperLoci.features
         (locus (collapse_identical_features duplicated_world).2)) /\
    forall o, o ∈ removed ->
      exists k, (k ∉ removed) /\
                ov (SuperLoci.features (locus duplicated_world)) k o = true.
Proof.
  apply (collapse_identical_features_keeps_a_twin duplicated_world).
  - apply (bool_decide_unpack _). vm_compute. exact I.
  - vm_compute. reflexivity.
Defined.

(** [overlap_free] is decided on the keys of the dictionary. *)
Lemma overlap_free_keys d :
  forallb (fun a => forallb (fun b => bool_decide (a = b) || negb (ov d a b))
                            (dict_keys d)) (dict_keys d) = true ->
  overlap_free d.
Proof.
  intros Hall a b Hab.
  destruct (dict_get a d) as [fa|] eqn:Ha; [|unfold ov; by rewrite Ha].
  destruct (dict_get b d) as [fb|] eqn:Hb; [|unfold ov; by rewrite Ha, Hb].
  apply dict_get_Some_keys in Ha, Hb.
  rewrite forallb_forall in Hall.
  apply list_elem_of_In, Hall in Ha. rewrite forallb_forall in Ha.
  apply list_elem_of_In, Ha in Hb.
  rewrite bool_decide_eq_false_2 in Hb by done. simpl in Hb.
  by apply negb_true_iff in Hb.
Qed.

(** X12: on a locus in which no two features fully overlap,
    [collapse_identical_features] ends normally and changes nothing,
    neither the features nor the transcripts nor the log. *)
Theorem collapse_identical_features_overlap_free w :
  NoDup (dict_keys (SuperLoci.features (locus w))) ->
  overlap_free (SuperLoci.features (locus w)) ->
  collapse_identical_features w = (Ok tt, w).
Proof.
  intros Hnd Hfree. unfold collapse_identical_features.
  apply collapse_loop_noop; [done..|lia].
Qed.

Lemma collapse_identical_features_overlap_free_witness :
  collapse_identical_features (sample_world [cds_1_100; cds_50_150]) =
    (Ok tt, sample_world [cds_1_100; cds_50_150]).
Proof.
  apply collapse_identical_features_overlap_free.
  - apply (bool_decide_unpack _). vm_compute. exact I.
  - apply overlap_free_keys. vm_compute. reflexivity.
Defined.

(** ** Moving and copying the links of a feature *)

Lemma set_transcripts_same f :
  StructuredFeature.set_transcripts (StructuredFeature.transcripts f) f = f.
Proof. by destruct f. Qed.

Lemma link_to_transcript_and_back_inv t f w u f' w' :
  link_to_transcript_and_back (Some t) (f, w) = (Ok u, (f', w')) ->
  f' = StructuredFeature.set_transcripts
         (StructuredFeature.transcripts f ++ [t]) f /\
  feats w' = feats w.
Proof.
  unfold link_to_transcript_and_back. unfold_monad. simpl.
  intros H. repeat case_match; simplify_eq; done.
Qed.

Lemma de_link_from_transcript_inv t f w u f' w' :
  de_link_from_transcript t (f, w) = (Ok u, (f', w')) ->
  exists j,
    Transcribed.index t (StructuredFeature.transcripts f) = Some j /\
    f' = StructuredFeature.set_transcripts
           (delete j (StructuredFeature.transcripts f)) f /\
    feats w' = feats w.
Proof.
  unfold de_link_from_transcript. unfold_monad. simpl.
  intros H. repeat case_match; simplify_eq; eauto.
Qed.

Lemma with_feature_inv {A} k (m : M St A) w a w' :
  with_feature k m w = (Ok a, w') ->
  exists f f' w1,
    dict_get k (feats w) = Some f /\
    m (f, w) = (Ok a, (f', w1)) /\
    feats w' = dict_set k f' (feats w1).
Proof.
  unfold with_feature. destruct (dict_get k (feats w)) as [f|]; [|done].
  destruct (m (f, w)) as [r [f' w1]] eqn:Hm. intros ?; simplify_eq.
  by exists f, f', w1.
Qed.

(** The loop of [merge]: the links still to move are the links [other]
    still has. *)
Lemma merge_loop k o l : forall w w' fk fo,
  k <> o ->
  dict_get k (feats w) = Some fk -> dict_get o (feats w) = Some fo ->
  StructuredFeature.transcripts fo = l ->
  for_each l (fun transcript_id =>
    with_feature k (link_to_transcript_and_back (Some transcript_id));;
    with_feature o (de_link_from_transcript transcript_id)) w = (Ok tt, w') ->
  dict_get k (feats w') =
    Some (StructuredFeature.set_transcripts
            (StructuredFeature.transcripts fk ++ l) fk) /\
  dict_get o (feats w') = Some (StructuredFeature.set_transcripts [] fo).
Proof.
  induction l as [|t l IH]; intros w w' fk fo Hko Hk Ho Hl; simpl.
  - unfold mret, M_ret. intros ?; simplify_eq.
    rewrite app_nil_r, set_transcripts_same, <- Hl, set_transcripts_same.
    done.
  - intros H. bind_inv H as u w3 Hstep. bind_inv Hstep as u1 w1 Hlink.
    apply with_feature_inv in Hlink as (f & f' & w0 & Hf & Hlink & Hw1).
    apply link_to_transcript_and_back_inv in Hlink as [-> Hw0].
    rewrite Hw0 in Hw1. assert (f = fk) as -> by congruence.
    apply with_feature_inv in Hstep as (g & g' & w2 & Hg & Hde & Hw3).
    apply de_link_from_transcript_inv in Hde as (j & Hj & -> & Hw2).
    rewrite Hw2 in Hw3.
    assert (g = fo) as ->.
    { rewrite Hw1, dict_get_set in Hg.
      rewrite decide_False in Hg by (by apply not_eq_sym). congruence. }
    rewrite Hl in Hj. simpl in Hj. rewrite decide_True in Hj by done.
    simplify_eq. rewrite Hl in Hw3. simpl in Hw3.
    apply (IH w3 w'
             (StructuredFeature.set_transcripts
                (StructuredFeature.transcripts fk ++ [t]) fk)
             (StructuredFeature.set_transcripts l fo)) in H;
      [| done | | | reflexivity].
    + destruct H as [-> ->]. simpl. by rewrite <- app_assoc.
    + rewrite Hw3, dict_get_set, decide_False by done.
      rewrite Hw1, dict_get_set, decide_True by done. done.
    + rewrite Hw3, dict_get_set, decide_True by done. done.
Qed.

(** X13: when [merge] ends normally, the feature merged into has its own
    links followed by the links of the other feature, in their order, the
    other feature has no link left, both are otherwise unchanged, and the
    locus has the same features as before. *)
Theorem merge_moves_links k o w w' fk fo :
  dict_get k (SuperLoci.features (locus w)) = Some fk ->
  dict_get o (SuperLoci.features (locus w)) = Some fo ->
  merge k o w = (Ok tt, w') ->
  dict_get k (SuperLoci.features (locus w')) =
    Some (StructuredFeature.set_transcripts
            (StructuredFeature.transcripts fk ++
             StructuredFeature.transcripts fo) fk) /\
  dict_get o (SuperLoci.features (locus w')) =
    Some (StructuredFeature.set_transcripts [] fo) /\
  dict_keys (SuperLoci.features (locus w')) =
    dict_keys (SuperLoci.features (locus w)).
Proof.
  intros Hk Ho Hrun.
  pose proof (merge_Ok _ _ _ _ Hrun) as [Hkeys _].
  rewrite filter_all in Hkeys
    by (apply Forall_forall; intros x _; apply not_elem_of_nil).
  unfold merge in Hrun.
  destruct (decide (k = o)) as [|Hko]; [done|].
  bind_inv Hrun as u w1 Hassert. bind_inv Hrun as w2 w3 Hget.
  bind_inv Hrun as other w4 Hother.
  assert (w1 = w) as -> by (unfold_monad; by simplify_eq).
  assert (w3 = w) as -> by (unfold_monad; by simplify_eq).
  assert (w2 = w) as -> by (unfold_monad; by simplify_eq).
  apply of_option_Ok_inv in Hother as [Hother ->].
  assert (other = fo) as -> by congruence.
  eapply merge_loop in Hrun; [|done..].
  destruct Hrun as [-> ->]. done.
Qed.

Lemma merge_moves_links_witness :
  let w' := (merge "c1" "c2" (sample_world [cds_1_100; cds_50_150])).2 in
  dict_get "c1" (SuperLoci.features (locus w')) =
    Some (StructuredFeature.set_transcripts
            (StructuredFeature.transcripts cds_1_100 ++
             StructuredFeature.transcripts cds_50_150) cds_1_100) /\
  dict_get "c2" (SuperLoci.features (locus w')) =
    Some (StructuredFeature.set_transcripts [] cds_50_150) /\
  dict_keys (SuperLoci.features (locus w')) =
    dict_keys (SuperLoci.features (locus (sample_world [cds_1_100; cds_50_150]))).
Proof.
  apply (merge_moves_links "c1" "c2" (sample_world [cds_1_100; cds_50_150]));
    vm_compute; reflexivity.
Defined.

(** A feature linked to transcripts of the locus one after the other. *)
Lemma for_each_link_run ts : forall f w,
  StructuredFeature.super_loci f = Some (SuperLoci.addr (locus w)) ->
  Forall (fun t => is_Some (SuperLoci.transcripts (locus w) !! t)) ts ->
  exists w',
    for_each ts (fun t => link_to_transcript_and_back (Some t)) (f, w) =
      (Ok tt, (StructuredFeature.set_transcripts
                 (StructuredFeature.transcripts f ++ ts) f, w')) /\
    feats w' = feats w /\
    feature_ider w' = feature_ider w /\
    SuperLoci.transcripts (locus w') =
      foldl (fun m t =>
               alter (Transcribed.link_to_feature (StructuredFeature.id f)) t m)
            (SuperLoci.transcripts (locus w)) ts.
Proof.
  induction ts as [|t ts IH]; intros f w Hsl Hts; simpl.
  - exists w. by rewrite app_nil_r, set_transcripts_same.
  - apply Forall_cons in Hts as [[tr Htr] Hts].
    set (f1 := StructuredFeature.set_transcripts
                 (StructuredFeature.transcripts f ++ [t]) f).
    set (w1 := set_locus
                 (SuperLoci.set_transcripts
                    (<[t := Transcribed.link_to_feature
                              (StructuredFeature.id f) tr]>
                       (SuperLoci.transcripts (locus w))) (locus w)) w).
    assert (link_to_transcript_and_back (Some t) (f, w) = (Ok tt, (f1, w1)))
      as Hlink.
    { unfold link_to_transcript_and_back. unfold_monad. simpl.
      rewrite Hsl. rewrite decide_True by done. by rewrite Htr. }
    destruct (IH f1 w1) as (w' & Hrun & Hf & Hi & Htrs); [done| |].
    { eapply Forall_impl; [exact Hts|]. intros x [y Hy]. simpl.
      destruct (decide (x = t)) as [->|Hne].
      - rewrite lookup_insert_eq. eauto.
      - rewrite lookup_insert_ne by done. eauto. }
    exists w'. unfold mbind, M_bind at 1. rewrite Hlink, Hrun.
    split; [|split; [done|split; [done|]]].
    + subst f1. simpl. by rewrite <- app_assoc.
    + rewrite Htrs. subst f1 w1. simpl. f_equal.
      apply map_eq. intros i. destruct (decide (i = t)) as [->|Hne].
      * by rewrite lookup_insert_eq, lookup_alter_eq, Htr.
      * by rewrite lookup_insert_ne, lookup_alter_ne.
Qed.

(** The run of [clone] on a feature of the locus whose transcripts are all
    transcripts of the locus. *)
Lemma clone_run f w :
  StructuredFeature.super_loci f = Some (SuperLoci.addr (locus w)) ->
  Forall (fun t => is_Some (SuperLoci.transcripts (locus w) !! t))
         (StructuredFeature.transcripts f) ->
  exists w',
    clone f true w =
      (Ok (StructuredFeature.set_id (_fmt_id (feature_ider w)) f), w') /\
    SuperLoci.features (locus w') = SuperLoci.features (locus w) /\
    feature_ider w' = (_new_id (feature_ider w)).2 /\
    SuperLoci.transcripts (locus w') =
      foldl (fun m t =>
               alter (Transcribed.link_to_feature (_fmt_id (feature_ider w))) t m)
            (SuperLoci.transcripts (locus w))
            (StructuredFeature.transcripts f).
Proof.
  intros Hsl Hts.
  set (new := StructuredFeature.set_id (_fmt_id (feature_ider w))
                (StructuredFeature.set_super_loci
                   (StructuredFeature.super_loci f) StructuredFeature.init)).
  destruct (for_each_link_run (StructuredFeature.transcripts f) new
              (set_feature_ider (_new_id (feature_ider w)).2 w))
    as (w' & Hrun & Hf & Hi & Htrs); [done..|].
  exists w'. split; [|done].
  unfold clone, feature_next_unique_id, with_object. unfold_monad. simpl.
  rewrite Hsl. rewrite decide_True by done. simpl.
  subst new. rewrite Hsl in Hrun. simpl in Hrun. rewrite Hrun. simpl.
  destruct f. simpl in *. by subst.
Qed.

(** X14: [reconstruct_exon] on a feature of the locus whose transcripts are
    all transcripts of the locus ends normally.  The exon is a clone of the
    feature under the next synthesized feature id and with the type [exon]:
    every other attribute is the same, the span and the links included.
    Each transcript of the feature gets the id of the exon at the end of
    its feature list, once for each time the feature lists it; the exon
    itself is not stored among the features of the locus. *)
Theorem reconstruct_exon_copies_feature_and_links f w :
  StructuredFeature.super_loci f = Some (SuperLoci.addr (locus w)) ->
  Forall (fun t => is_Some (SuperLoci.transcripts (locus w) !! t))
         (StructuredFeature.transcripts f) ->
  exists w',
    reconstruct_exon f w =
      (Ok (StructuredFeature.set_type FeatureDecoder.exon
             (StructuredFeature.set_id (_fmt_id (feature_ider w)) f)), w') /\
    SuperLoci.features (locus w') = SuperLoci.features (locus w) /\
    feature_ider w' = (_new_id (feature_ider w)).2 /\
    SuperLoci.transcripts (locus w') =
      foldl (fun m t =>
               alter (Transcribed.link_to_feature (_fmt_id (feature_ider w))) t m)
            (SuperLoci.transcripts (locus w))
            (StructuredFeature.transcripts f).
Proof.
  intros Hsl Hts.
  destruct (clone_run f w Hsl Hts) as (w' & Hrun & Hrest).
  exists w'. split; [|done].
  unfold reconstruct_exon, mbind, M_bind. by rewrite Hrun.
Qed.

Lemma reconstruct_exon_copies_feature_and_links_witness :
  exists w',
    reconstruct_exon cds_1_100 (sample_world [cds_1_100]) =
      (Ok (StructuredFeature.set_type FeatureDecoder.exon
             (StructuredFeature.set_id
                (_fmt_id (feature_ider (sample_world [cds_1_100])))
                cds_1_100)), w') /\
    SuperLoci.features (locus w') =
      SuperLoci.features (locus (sample_world [cds_1_100])) /\
    feature_ider w' = (_new_id (feature_ider (sample_world [cds_1_100]))).2 /\
    SuperLoci.transcripts (locus w') =
      foldl (fun m t =>
               alter (Transcribed.link_to_feature
                        (_fmt_id (feature_ider (sample_world [cds_1_100])))) t m)
            (SuperLoci.transcripts (locus (sample_world [cds_1_100])))
            (StructuredFeature.transcripts cds_1_100).
Proof.
  apply (reconstruct_exon_copies_feature_and_links cds_1_100
           (sample_world [cds_1_100])).
  - reflexivity.
  - repeat constructor. vm_compute. eauto.
Defined.

(** ** Reconstructing exons *)

Lemma collect_new_exons_covered exons coding_info w :
  forallb
    (fun f => existsb (fun exon => StructuredFeature.is_contained_in f exon)
                      exons) coding_info = true ->
  collect_new_exons exons coding_info w = (Ok [], w).
Proof.
  induction coding_info as [|f coding_info IH]; simpl; [done|].
  intros [Hf Hrest]%andb_true_iff. rewrite Hf. by apply IH.
Qed.

(** X15: on a locus in which every coding-info feature lies within an exon,
    [maybe_reconstruct_exons] ends normally, makes no exon, takes no id and
    changes nothing. *)
Theorem maybe_reconstruct_exons_nothing_to_do w :
  exons_cover_coding_info (locus w) = true ->
  maybe_reconstruct_exons w = (Ok tt, w).
Proof.
  intros Hcov. unfold maybe_reconstruct_exons.
  unfold mbind, M_bind, get at 1.
  by rewrite collect_new_exons_covered.
Qed.

Lemma maybe_reconstruct_exons_nothing_to_do_witness :
  maybe_reconstruct_exons
    (sample_world [sample_feature "e1" FeatureDecoder.exon 1 150 "0";
                   cds_1_100; cds_50_150]) =
  (Ok tt, sample_world [sample_feature "e1" FeatureDecoder.exon 1 150 "0";
                        cds_1_100; cds_50_150]).
Proof.
  apply maybe_reconstruct_exons_nothing_to_do. vm_compute. reflexivity.
Defined.

(** X16: when none of the ids the feature id maker can still synthesize is
    a key of the feature map, a run of [maybe_reconstruct_exons] that ends
    normally keeps the features of the locus as they are and in their
    order, puts new features behind them, all of them exons, and leaves
    every coding-info feature within an exon. *)
Theorem maybe_reconstruct_exons_appends_exons w w' :
  (forall x, ids_to_come (feature_ider w) x ->
             x ∉ dict_keys (SuperLoci.features (locus w))) ->
  maybe_reconstruct_exons w = (Ok tt, w') ->
  exists new_exons,
    SuperLoci.features (locus w') =
      SuperLoci.features (locus w) ++
      ((fun e => (StructuredFeature.id e, e)) <$> new_exons) /\
    Forall (fun e => StructuredFeature.type e = FeatureDecoder.exon)
           new_exons /\
    exons_cover_coding_info (locus w') = true.
Proof.
  intros Hfresh Hrun.
  pose proof (maybe_reconstruct_exons_covers w w' Hfresh Hrun) as Hcov.
  unfold maybe_reconstruct_exons in Hrun.
  bind_inv Hrun as w0 w1 Hget. injection Hget as <- <-.
  bind_inv Hrun as new_exons w2 Hcollect.
  apply collect_new_exons_Ok in Hcollect as (Hf & Hty & Hids & Hnd & _).
  destruct (store_new_exons new_exons w2 Hnd) as (w3 & Hstore & Hfeats).
  { rewrite Hf. eapply Forall_impl; [done|]. apply Hfresh. }
  rewrite Hstore in Hrun. injection Hrun as <-.
  exists new_exons. by rewrite Hfeats, Hf.
Qed.

Lemma maybe_reconstruct_exons_appends_exons_witness :
  exists new_exons,
    SuperLoci.features
      (locus (maybe_reconstruct_exons (sample_world [cds_1_100])).2) =
      SuperLoci.features (locus (sample_world [cds_1_100])) ++
      ((fun e => (StructuredFeature.id e, e)) <$> new_exons) /\
    Forall (fun e => StructuredFeature.type e = FeatureDecoder.exon)
           new_exons /\
    exons_cover_coding_info
      (locus (maybe_reconstruct_exons (sample_world [cds_1_100])).2) = true.
Proof.
  apply (maybe_reconstruct_exons_appends_exons (sample_world [cds_1_100])).
  - intros x (j & _ & ->) Hin.
    apply list_elem_of_singleton in Hin. discriminate Hin.
  - vm_compute. reflexivity.
Defined.

(** ** The status machine of the interpreter *)

(** X17: the status a transcript is in after a feature stays within the
    five statuses.  With a status before the intron, [get_status] returns
    a pair of statuses for every status and for every one of the six point
    features it knows; for every other type it stops with [ValueError]. *)
Theorem get_status_closed last_seen pre_intron :
  pre_intron ∈ FeatureDecoder.statuses ->
  match get_status last_seen pre_intron with
  | Ok (current, pre_intron') =>
      current ∈ FeatureDecoder.statuses /\
      pre_intron' ∈ FeatureDecoder.statuses /\
      last_seen ∈ FeatureDecoder.statuses ++
        [FeatureDecoder.TSS; FeatureDecoder.start_codon;
         FeatureDecoder.stop_codon; FeatureDecoder.TTS;
         FeatureDecoder.donor_splice_site;
         FeatureDecoder.acceptor_splice_site]
  | Raise e =>
      e = ValueError /\
      last_seen ∉ FeatureDecoder.statuses ++
        [FeatureDecoder.TSS; FeatureDecoder.start_codon;
         FeatureDecoder.stop_codon; FeatureDecoder.TTS;
         FeatureDecoder.donor_splice_site;
         FeatureDecoder.acceptor_splice_site]
  end.
Proof.
  intros Hpre. unfold get_status.
  assert (forall s, bool_decide (s ∈ FeatureDecoder.statuses) = true ->
                    s ∈ FeatureDecoder.statuses) as Hin
    by (intros s; apply bool_decide_eq_true_1).
  repeat case_decide; subst;
    try (split; [by (done || apply Hin)|
         split; [by (done || apply Hin)|
                 rewrite elem_of_app, !elem_of_cons; tauto]]).
  split; [done|]. rewrite elem_of_app, !elem_of_cons, elem_of_nil. tauto.
Qed.

Lemma get_status_closed_witness :
  match get_status FeatureDecoder.acceptor_splice_site
                   FeatureDecoder.status_coding with
  | Ok (current, pre_intron') =>
      current ∈ FeatureDecoder.statuses /\
      pre_intron' ∈ FeatureDecoder.statuses /\
      FeatureDecoder.acceptor_splice_site ∈ FeatureDecoder.statuses ++
        [FeatureDecoder.TSS; FeatureDecoder.start_codon;
         FeatureDecoder.stop_codon; FeatureDecoder.TTS;
         FeatureDecoder.donor_splice_site;
         FeatureDecoder.acceptor_splice_site]
  | Raise e =>
      e = ValueError /\
      FeatureDecoder.acceptor_splice_site ∉ FeatureDecoder.statuses ++
        [FeatureDecoder.TSS; FeatureDecoder.start_codon;
         FeatureDecoder.stop_codon; FeatureDecoder.TTS;
         FeatureDecoder.donor_splice_site;
         FeatureDecoder.acceptor_splice_site]
  end.
Proof.
  apply (get_status_closed FeatureDecoder.acceptor_splice_site
           FeatureDecoder.status_coding).
  apply (bool_decide_unpack _). vm_compute. exact I.
Defined.

(** X18: [possible_types] looks at the set of the types only: it gives the
    same answer for the same intervals in another order. *)
Theorem possible_types_Permutation intervals intervals' :
  intervals ≡ₚ intervals' ->
  possible_types intervals = possible_types intervals'.
Proof.
  intros Hperm. unfold possible_types.
  rewrite (Permutation_length Hperm).
  assert ((list_to_set ((fun x => StructuredFeature.type (data x))
                          <$> intervals) : gset string) =
          list_to_set ((fun x => StructuredFeature.type (data x))
                         <$> intervals')) as ->; [|done].
  apply list_to_set_perm_L. by apply fmap_Permutation.
Qed.

Lemma possible_types_Permutation_witness :
  possible_types [interval_of utr_1_10; interval_of cds_11_30] =
  possible_types [interval_of cds_11_30; interval_of utr_1_10].
Proof.
  apply possible_types_Permutation. apply Permutation_swap.
Defined.

(** X19: when [possible_types] answers, there are one or two intervals,
    each of them an exon, a CDS or a UTR, and the answer names one type, or
    the two UTR types for exons alone; never none. *)
Theorem possible_types_Ok intervals ts :
  possible_types intervals = Ok ts ->
  (length intervals = 1 \/ length intervals = 2)%nat /\
  Forall (fun x => StructuredFeature.type (data x) ∈
                     [FeatureDecoder.exon; FeatureDecoder.cds;
                      FeatureDecoder.five_prime_UTR;
                      FeatureDecoder.three_prime_UTR]) intervals /\
  ts ∈ [[FeatureDecoder.five_prime_UTR]; [FeatureDecoder.three_prime_UTR];
        [FeatureDecoder.five_prime_UTR; FeatureDecoder.three_prime_UTR];
        [FeatureDecoder.cds]].
Proof.
  unfold possible_types.
  destruct (decide (length intervals ∉ [1%nat; 2%nat])) as [|Hlen]; [done|].
  intros Hts. split.
  { apply dec_stable in Hlen. rewrite !elem_of_cons, elem_of_nil in Hlen.
    tauto. }
  assert (forall S : gset string,
            list_to_set ((fun x => StructuredFeature.type (data x))
                           <$> intervals) = S ->
            (forall t, t ∈ S ->
               t ∈ [FeatureDecoder.exon; FeatureDecoder.cds;
                    FeatureDecoder.five_prime_UTR;
                    FeatureDecoder.three_prime_UTR]) ->
            Forall (fun x => StructuredFeature.type (data x) ∈
                     [FeatureDecoder.exon; FeatureDecoder.cds;
                      FeatureDecoder.five_prime_UTR;
                      FeatureDecoder.three_prime_UTR]) intervals) as Hall.
  { intros S HS Hsub. apply Forall_forall. intros x Hx. apply Hsub.
    rewrite <- HS. apply elem_of_list_to_set.
    apply list_elem_of_fmap. eauto. }
  repeat case_decide; simplify_eq;
    (split;
     [ repeat match goal with H : _ \/ _ |- _ => destruct H end;
       (eapply Hall; [done|]); intros t Ht;
       rewrite ?elem_of_union, ?elem_of_singleton in Ht;
       rewrite !elem_of_cons; tauto
     | rewrite !elem_of_cons; tauto ]).
Qed.

Lemma possible_types_Ok_witness :
  (length [interval_of utr_1_10] = 1 \/
   length [interval_of utr_1_10] = 2)%nat /\
  Forall (fun x => StructuredFeature.type (data x) ∈
                     [FeatureDecoder.exon; FeatureDecoder.cds;
                      FeatureDecoder.five_prime_UTR;
                      FeatureDecoder.three_prime_UTR]) [interval_of utr_1_10] /\
  [FeatureDecoder.five_prime_UTR] ∈
    [[FeatureDecoder.five_prime_UTR]; [FeatureDecoder.three_prime_UTR];
     [FeatureDecoder.five_prime_UTR; FeatureDecoder.three_prime_UTR];
     [FeatureDecoder.cds]].
Proof.
  apply (possible_types_Ok [interval_of utr_1_10]
           [FeatureDecoder.five_prime_UTR]).
  vm_compute. reflexivity.
Defined.

(** X20: [interpret_transition] never enters its branch for the 5'UTR.  It
    ends normally exactly when [get_status] and the two calls of
    [possible_types] do, and then it returns no feature; otherwise it stops
    with [ValueError]; in both cases nothing is changed, and no id is
    taken. *)
Theorem interpret_transition_dead_branch
    last_feature pre_intron_status ivals_before ivals_after plus_strand w :
  interpret_transition last_feature pre_intron_status ivals_before ivals_after
                       plus_strand w =
  (match get_status (StructuredFeature.type last_feature) pre_intron_status,
         possible_types ivals_before, possible_types ivals_after with
   | Ok _, Ok _, Ok _ => Ok []
   | _, _, _ => Raise ValueError
   end, w).
Proof.
  unfold interpret_transition. unfold_monad.
  destruct (get_status_Ok_or_ValueError
              (StructuredFeature.type last_feature) pre_intron_status)
    as [[st ->]| ->]; [|done].
  destruct (possible_types_Ok_or_ValueError ivals_before)
    as [[bt ->]| ->]; [|done].
  destruct (possible_types_Ok_or_ValueError ivals_after)
    as [[at' ->]| ->]; done.
Qed.

(** ** The first position of a transcript *)

(** X21: a transcript that starts with a 5'UTR, or with an exon alone.
    When the first feature belongs to the locus and its transcripts are
    transcripts of the locus, [interpret_first_pos] ends normally with
    exactly one new feature: a clone of the first feature, of type [TSS], on
    the single base at the upstream end of the first interval.  The status
    it returns is the feature type [five_prime_UTR], which is none of the
    statuses, and the argument [plus_strand] plays no part. *)
Theorem interpret_first_pos_five_prime i0 intervals plus_strand w ts at_ :
  possible_types (i0 :: intervals) = Ok ts ->
  FeatureDecoder.five_prime_UTR ∈ ts ->
  upstream_from_interval (data i0) i0 = Ok at_ ->
  StructuredFeature.super_loci (data i0) = Some (SuperLoci.addr (locus w)) ->
  Forall (fun t => is_Some (SuperLoci.transcripts (locus w) !! t))
         (StructuredFeature.transcripts (data i0)) ->
  exists w',
    interpret_first_pos (i0 :: intervals) plus_strand w =
      (Ok ([StructuredFeature.set_span at_ at_
              (StructuredFeature.set_type FeatureDecoder.TSS
                 (StructuredFeature.set_id (_fmt_id (feature_ider w))
                    (data i0)))],
           FeatureDecoder.five_prime_UTR), w') /\
    (FeatureDecoder.five_prime_UTR ∉ FeatureDecoder.statuses) /\
    SuperLoci.features (locus w') = SuperLoci.features (locus w).
Proof.
  intros Hts Hfive Hat Hsl Htrs.
  set (w1 := {| feature_ider := feature_ider w;
                transcript_ider := transcript_ider w;
                species := species w; locus := locus w;
                log := log w ++ [("stdout", "at " +:+ pretty at_)] |}).
  destruct (clone_run (data i0) w1 Hsl Htrs) as (w' & Hrun & Hf & _).
  exists w'. split; [|split; [|done]].
  - unfold interpret_first_pos, print. unfold_monad. simpl.
    rewrite Hat, Hts. rewrite decide_True by done.
    fold w1. by rewrite Hrun.
  - apply (bool_decide_unpack _). vm_compute. exact I.
Qed.

Lemma interpret_first_pos_five_prime_witness :
  exists w',
    interpret_first_pos [interval_of utr_1_10] true start_world =
      (Ok ([StructuredFeature.set_span 1 1
              (StructuredFeature.set_type FeatureDecoder.TSS
                 (StructuredFeature.set_id (_fmt_id (feature_ider start_world))
                    (data (interval_of utr_1_10))))],
           FeatureDecoder.five_prime_UTR), w') /\
    (FeatureDecoder.five_prime_UTR ∉ FeatureDecoder.statuses) /\
    SuperLoci.features (locus w') = SuperLoci.features (locus start_world).
Proof.
  apply (interpret_first_pos_five_prime (interval_of utr_1_10) [] true
           start_world [FeatureDecoder.five_prime_UTR] 1).
  - vm_compute. reflexivity.
  - apply list_elem_of_here.
  - vm_compute. reflexivity.
  - vm_compute. reflexivity.
  - repeat constructor. vm_compute. eauto.
Defined.

(** X22: a transcript that starts with a CDS.  [interpret_first_pos] never
    gets past it: having printed the position, it calls [clone] on an
    interval of the tree, which has no such method, and stops with
    [AttributeError]; no feature is made and no id is taken. *)
Theorem interpret_first_pos_cds_start i0 intervals plus_strand w :
  possible_types (i0 :: intervals) = Ok [FeatureDecoder.cds] ->
  StructuredFeature.strand (data i0) ∈ ["+"; "-"] ->
  exists line,
    interpret_first_pos (i0 :: intervals) plus_strand w =
      (Raise AttributeError,
       {| feature_ider := feature_ider w;
          transcript_ider := transcript_ider w;
          species := species w; locus := locus w;
          log := log w ++ [("stdout", line)] |}).
Proof.
  intros Hts Hstrand.
  assert (exists at_, upstream_from_interval (data i0) i0 = Ok at_)
    as [at_ Hat].
  { unfold upstream_from_interval, StructuredFeature.is_plus_strand.
    rewrite !elem_of_cons, elem_of_nil in Hstrand.
    repeat case_decide; eauto. tauto. }
  assert (exists x rest,
            filter (fun x => StructuredFeature.type (data x) =
                               FeatureDecoder.cds) (i0 :: intervals)
            = x :: rest) as (x & rest & Hcds).
  { assert (FeatureDecoder.cds ∈
              (list_to_set ((fun x => StructuredFeature.type (data x))
                              <$> (i0 :: intervals)) : gset string)) as Hin.
    { unfold possible_types in Hts.
      repeat case_decide; simplify_eq.
      match goal with H : _ \/ _ |- _ => destruct H as [-> | ->] end;
        set_solver. }
    apply elem_of_list_to_set, list_elem_of_fmap in Hin as (y & Hy & Hin).
    assert (y ∈ filter (fun x => StructuredFeature.type (data x) =
                                   FeatureDecoder.cds) (i0 :: intervals))
      as Hyin by (by apply list_elem_of_filter).
    destruct (filter _ (i0 :: intervals)) as [|x rest]; [|by eauto].
    by apply elem_of_nil in Hyin. }
  exists ("at " +:+ pretty at_).
  unfold interpret_first_pos, print. unfold_monad.
  change (head (i0 :: intervals)) with (Some i0). cbv iota beta.
  rewrite Hat, Hts.
  rewrite decide_False
    by (intros Hin; apply list_elem_of_singleton in Hin; discriminate Hin).
  rewrite decide_True by apply list_elem_of_here.
  by rewrite Hcds.
Qed.

Lemma interpret_first_pos_cds_start_witness :
  exists line,
    interpret_first_pos [interval_of cds_11_30] true start_world =
      (Raise AttributeError,
       {| feature_ider := feature_ider start_world;
          transcript_ider := transcript_ider start_world;
          species := species start_world; locus := locus start_world;
          log := log start_world ++ [("stdout", line)] |}).
Proof.
  apply (interpret_first_pos_cds_start (interval_of cds_11_30) [] true
           start_world).
  - vm_compute. reflexivity.
  - apply list_elem_of_here.
Defined.

(** ** Coordinates and comparisons of features *)

(** X23: the interval a feature is stored under in the tree, from
    [py_start] to [py_end], gives back the ends of the feature:
    [upstream_from_interval] and [downstream_from_interval] on it agree
    with [upstream] and [downstream], on both strands and in the failure
    for any other strand. *)
Theorem own_interval_gives_ends f :
  let interval := mkInterval (StructuredFeature.py_start f)
                             (StructuredFeature.py_end f) f in
  upstream_from_interval f interval = StructuredFeature.upstream f /\
  downstream_from_interval f interval = StructuredFeature.downstream f.
Proof.
  unfold upstream_from_interval, downstream_from_interval,
    StructuredFeature.upstream, StructuredFeature.downstream,
    StructuredFeature.py_start, StructuredFeature.py_end.
  destruct (StructuredFeature.is_plus_strand f) as [[]|]; simpl;
    split; try done; f_equal; lia.
Qed.

Lemma fully_overlaps_spec f g :
  StructuredFeature.fully_overlaps f g = true <->
  StructuredFeature.type f = StructuredFeature.type g /\
  StructuredFeature.start f = StructuredFeature.start g /\
  StructuredFeature.end_ f = StructuredFeature.end_ g /\
  StructuredFeature.seqid f = StructuredFeature.seqid g /\
  StructuredFeature.strand f = StructuredFeature.strand g /\
  StructuredFeature.frame f = StructuredFeature.frame g /\
  StructuredFeature.super_loci f = StructuredFeature.super_loci g.
Proof.
  unfold StructuredFeature.fully_overlaps.
  rewrite !andb_true_iff, !bool_decide_eq_true. tauto.
Qed.

Lemma is_contained_in_spec f g :
  StructuredFeature.is_contained_in f g = true <->
  StructuredFeature.seqid f = StructuredFeature.seqid g /\
  StructuredFeature.strand f = StructuredFeature.strand g /\
  StructuredFeature.frame f = StructuredFeature.frame g /\
  StructuredFeature.start g <= StructuredFeature.start f /\
  StructuredFeature.end_ f <= StructuredFeature.end_ g /\
  StructuredFeature.super_loci f = StructuredFeature.super_loci g.
Proof.
  unfold StructuredFeature.is_contained_in.
  rewrite !andb_true_iff, !bool_decide_eq_true. tauto.
Qed.

(** X24: [fully_overlaps] is an equivalence between features, and two
    features fully overlap exactly when they have the same type and each
    is contained in the other. *)
Theorem fully_overlaps_equivalence f g h :
  StructuredFeature.fully_overlaps f f = true /\
  StructuredFeature.fully_overlaps f g = StructuredFeature.fully_overlaps g f /\
  (StructuredFeature.fully_overlaps f g = true ->
   StructuredFeature.fully_overlaps g h = true ->
   StructuredFeature.fully_overlaps f h = true) /\
  (StructuredFeature.fully_overlaps f g = true <->
   StructuredFeature.type f = StructuredFeature.type g /\
   StructuredFeature.is_contained_in f g = true /\
   StructuredFeature.is_contained_in g f = true).
Proof.
  split; [by apply fully_overlaps_spec|].
  split; [apply fully_overlaps_sym|]. split.
  - rewrite !fully_overlaps_spec. intros (?&?&?&?&?&?&?) (?&?&?&?&?&?&?).
    repeat split; congruence.
  - rewrite fully_overlaps_spec, !is_contained_in_spec. split.
    + intros (?&?&?&?&?&?&?). repeat split; (congruence || lia).
    + intros (?&(?&?&?&?&?&?)&(?&?&?&?&?&?)). repeat split; (congruence || lia).
Qed.

(** X25: containment of features is reflexive and transitive, and two
    features contained in each other have the same span. *)
Theorem is_contained_in_preorder f g h :
  StructuredFeature.is_contained_in f f = true /\
  (StructuredFeature.is_contained_in f g = true ->
   StructuredFeature.is_contained_in g h = true ->
   StructuredFeature.is_contained_in f h = true) /\
  (StructuredFeature.is_contained_in f g = true ->
   StructuredFeature.is_contained_in g f = true ->
   StructuredFeature.start f = StructuredFeature.start g /\
   StructuredFeature.end_ f = StructuredFeature.end_ g).
Proof.
  rewrite !is_contained_in_spec. split; [|split].
  - repeat split; lia.
  - intros (?&?&?&?&?&?) (?&?&?&?&?&?). repeat split; (congruence || lia).
  - intros (?&?&?&?&?&?) (?&?&?&?&?&?). lia.
Qed.

(** ** The feature list of a transcript *)

Lemma index_None x l : Transcribed.index x l = None <-> x ∉ l.
Proof.
  induction l as [|y l IH]; simpl.
  - split; [intros _; apply not_elem_of_nil|done].
  - rewrite not_elem_of_cons. case_decide.
    + split; [done|]. intros [? _]. done.
    + destruct (Transcribed.index x l); simpl.
      * split; [done|]. intros [_ Hin]. by apply IH in Hin.
      * split; [|done]. intros _. split; [done|]. by apply IH.
Qed.

Lemma index_app_fresh x l :
  x ∉ l -> Transcribed.index x (l ++ [x]) = Some (length l).
Proof.
  induction l as [|y l IH]; simpl.
  - intros _. by rewrite decide_True.
  - intros [Hxy Hx]%not_elem_of_cons. rewrite decide_False by done.
    by rewrite IH.
Qed.

Lemma delete_last {A} (l : list A) x : delete (length l) (l ++ [x]) = l.
Proof. induction l as [|y l IH]; simpl; [done|]. by f_equal. Qed.

(** X26: [remove_feature] undoes [link_to_feature] for an id the transcript
    does not list yet, and stops with [ValueError] on such an id; it
    answers normally for every id the transcript lists. *)
Theorem remove_feature_undoes_link feature_id transcript :
  (feature_id ∉ Transcribed.features transcript ->
   Transcribed.remove_feature feature_id
     (Transcribed.link_to_feature feature_id transcript) = Ok transcript) /\
  (Transcribed.remove_feature feature_id transcript = Raise ValueError <->
   feature_id ∉ Transcribed.features transcript).
Proof.
  split.
  - intros Hfresh. unfold Transcribed.remove_feature, Transcribed.link_to_feature.
    simpl. rewrite index_app_fresh by done. rewrite delete_last.
    by destruct transcript.
  - unfold Transcribed.remove_feature. rewrite <- index_None.
    destruct (Transcribed.index _ _); split; done.
Qed.

(** ** The clusters of [organize_and_split_features] *)

Lemma extent_le_trans a b c : extent_le a b -> extent_le b c -> extent_le a c.
Proof. unfold extent_le. lia. Qed.

Lemma extent_le_total a b : ~ extent_le a b -> extent_le b a.
Proof. unfold extent_le. lia. Qed.

Lemma sorted_insert_Permutation a l : sorted_insert a l ≡ₚ a :: l.
Proof.
  induction l as [|b l IH]; simpl; [done|].
  case_decide; [done|]. rewrite IH. apply Permutation_swap.
Qed.

Lemma sorted_intervals_Permutation l : sorted_intervals l ≡ₚ l.
Proof.
  induction l as [|a l IH]; simpl; [done|].
  by rewrite sorted_insert_Permutation, IH.
Qed.

Lemma sorted_insert_sorted a l :
  StronglySorted extent_le l -> StronglySorted extent_le (sorted_insert a l).
Proof.
  induction 1 as [|b l Hl IH Hb]; simpl.
  - repeat constructor.
  - case_decide as Hab.
    + constructor; [by constructor|]. constructor; [done|].
      eapply Forall_impl; [exact Hb|]. intros c. by apply extent_le_trans.
    + constructor; [done|]. rewrite sorted_insert_Permutation.
      constructor; [by apply extent_le_total|done].
Qed.

Lemma sorted_intervals_sorted l : StronglySorted extent_le (sorted_intervals l).
Proof.
  induction l as [|a l IH]; simpl; [constructor|].
  by apply sorted_insert_sorted.
Qed.

(** The loop over the sorted intervals closes a cluster exactly where the
    begin changes. *)
Lemma cluster_loop_clusters intervals : forall out b,
  out <> [] ->
  Forall (fun iv => begin iv = b) out ->
  StronglySorted extent_le (out ++ intervals) ->
  exists clusters,
    cluster_loop out intervals = Ok clusters /\
    concat clusters = out ++ intervals /\
    Forall (fun c => c <> [] /\ exists b, Forall (fun iv => begin iv = b) c)
           clusters /\
    StronglySorted
      (fun c1 c2 => forall x y, x ∈ c1 -> y ∈ c2 -> begin x < begin y)
      clusters.
Proof.
  induction intervals as [|interval intervals IH]; intros out b Hne Hb Hsorted;
    simpl.
  - exists [out]. simpl. split; [done|]. split; [done|]. split.
    + constructor; [|constructor]. eauto.
    + repeat constructor.
  - destruct (last out) as [out_last|] eqn:Hlast;
      [|by apply last_None in Hlast].
    assert (out_last ∈ out) as Hin.
    { apply last_Some in Hlast as [l' ->]. apply elem_of_app. right.
      apply list_elem_of_here. }
    assert (begin out_last = b) as Hbl.
    { rewrite Forall_forall in Hb. by apply Hb. }
    destruct (decide (begin out_last = begin interval)) as [Heq|Hneq].
    + destruct (IH (out ++ [interval]) b) as (clusters & -> & Hcat & Hrest).
      * by destruct out.
      * apply Forall_app. split; [done|]. constructor; [congruence|done].
      * by rewrite <- app_assoc.
      * exists clusters. split; [done|]. split; [|done].
        by rewrite Hcat, <- app_assoc.
    + assert (StronglySorted extent_le (interval :: intervals)) as Hsorted'.
      { clear -Hsorted. induction out as [|x out IHo]; simpl in *; [done|].
        apply IHo. by apply StronglySorted_inv in Hsorted as [? _]. }
      assert (forall x y, x ∈ out -> y ∈ interval :: intervals ->
                begin x < begin y) as Hlt.
      { intros x y Hx Hy.
        assert (begin x = b) as Hbx
          by (rewrite Forall_forall in Hb; by apply Hb).
        assert (extent_le out_last interval) as Hle1.
        { clear -Hsorted Hin. induction out as [|z out IHo]; simpl in *.
          - by apply elem_of_nil in Hin.
          - apply StronglySorted_inv in Hsorted as [Hs Hz].
            apply elem_of_cons in Hin as [->|Hin]; [|by apply IHo].
            rewrite Forall_forall in Hz. apply Hz.
            apply elem_of_app. right. apply list_elem_of_here. }
        assert (begin interval <= begin y) as Hle2.
        { apply elem_of_cons in Hy as [->|Hy]; [lia|].
          apply StronglySorted_inv in Hsorted' as [_ Hall].
          rewrite Forall_forall in Hall. apply Hall in Hy.
          unfold extent_le in Hy. lia. }
        unfold extent_le in Hle1. lia. }
      destruct (IH [interval] (begin interval))
        as (clusters & -> & Hcat & Hshape & Hasc); [done|by constructor|done|].
      exists (out :: clusters). simpl. split; [done|].
      split; [by rewrite Hcat|]. split.
      * constructor; [|done]. eauto.
      * constructor; [done|]. apply Forall_forall. intros c Hc x y Hx Hy.
        apply Hlt; [done|]. change (y ∈ [interval] ++ intervals).
        rewrite <- Hcat. apply list_elem_of_In, in_concat.
        exists c. split; by apply list_elem_of_In.
Qed.

(** X27: what [organize_and_split_features] yields.  Without any interval
    in the tree, which is the case of an interpreter without features, the
    generator stops at its first step with [RuntimeError].  Otherwise it
    ends normally, whatever the order in which the tree is iterated: the
    clusters hold the intervals of the split tree, none is empty, the
    intervals of a cluster begin at the same position, and from one cluster
    to the next the begins ascend strictly. *)
Theorem organize_and_split_features_clusters sl features tree o :
  split_tree sl features = Ok tree ->
  organize_and_split_features sl features o ->
  match tree with
  | [] => o = Raise RuntimeError
  | _ :: _ =>
      exists clusters,
        o = Ok clusters /\
        concat clusters ≡ₚ tree /\
        StronglySorted extent_le (concat clusters) /\
        Forall (fun c => c <> [] /\
                         exists b, Forall (fun iv => begin iv = b) c)
               clusters /\
        StronglySorted
          (fun c1 c2 => forall x y, x ∈ c1 -> y ∈ c2 -> begin x < begin y)
          clusters
  end.
Proof.
  intros Hsplit Hrun. unfold organize_and_split_features in Hrun.
  rewrite Hsplit in Hrun. destruct Hrun as (enumeration & Hperm & ->).
  unfold clusters_of.
  pose proof (sorted_intervals_Permutation enumeration) as Hp.
  pose proof (sorted_intervals_sorted enumeration) as Hs.
  destruct (sorted_intervals enumeration) as [|first intervals].
  - apply Permutation_nil_l in Hp. subst. apply Permutation_nil_l in Hperm.
    by subst.
  - destruct tree as [|iv tree].
    { rewrite Hperm in Hp. by apply Permutation_nil_r in Hp. }
    destruct (cluster_loop_clusters intervals [first] (begin first))
      as (clusters & -> & Hcat & Hshape & Hasc);
      [done|by constructor|done|].
    exists clusters. split; [done|]. rewrite Hcat. simpl.
    split; [by rewrite Hp|]. done.
Qed.

Lemma organize_and_split_features_clusters_witness :
  exists clusters,
    clusters_of [mkInterval 0 49 cds_1_100; mkInterval 49 100 cds_1_100;
                 mkInterval 49 100 cds_50_150; mkInterval 100 150 cds_50_150]
      = Ok clusters /\
    concat clusters ≡ₚ
      [mkInterval 0 49 cds_1_100; mkInterval 49 100 cds_1_100;
       mkInterval 49 100 cds_50_150; mkInterval 100 150 cds_50_150] /\
    StronglySorted extent_le (concat clusters) /\
    Forall (fun c => c <> [] /\
                     exists b, Forall (fun iv => begin iv = b) c)
           clusters /\
    StronglySorted
      (fun c1 c2 => forall x y, x ∈ c1 -> y ∈ c2 -> begin x < begin y)
      clusters.
Proof.
  apply (organize_and_split_features_clusters
           (sample_locus [cds_1_100; cds_50_150]) ["c1"; "c2"]
           [mkInterval 0 49 cds_1_100; mkInterval 49 100 cds_1_100;
            mkInterval 49 100 cds_50_150; mkInterval 100 150 cds_50_150]).
  - vm_compute. reflexivity.
  - unfold organize_and_split_features.
    replace (split_tree (sample_locus [cds_1_100; cds_50_150]) ["c1"; "c2"])
      with (Ok [mkInterval 0 49 cds_1_100; mkInterval 49 100 cds_1_100;
                mkInterval 49 100 cds_50_150; mkInterval 100 150 cds_50_150])
      by (vm_compute; reflexivity).
    eexists. split; [reflexivity|reflexivity].
Defined.

(** ** The k-mers of a sequence *)

(** X28: for a sequence of length [n] and [k] from 0 on, [gen_mers] yields
    the windows of [k] characters that start at the positions [0] to
    [n - k - 1], in this order: [n - k] mers, each of length [k].  The
    window at position [n - k], the last one of the sequence, is not
    yielded. *)
Theorem gen_mers_windows {A} (sequence : list A) (k : nat) :
  gen_mers sequence (Z.of_nat k) =
    (fun i => take k (drop i sequence)) <$> seq 0 (length sequence - k) /\
  Forall (fun mer => length mer = k) (gen_mers sequence (Z.of_nat k)) /\
  length (gen_mers sequence (Z.of_nat k)) = (length sequence - k)%nat.
Proof.
  assert (gen_mers sequence (Z.of_nat k) =
          (fun i => take k (drop i sequence)) <$> seq 0 (length sequence - k))
    as Heq.
  { unfold gen_mers, py_range, seqZ. rewrite <- list_fmap_compose.
    replace (Z.to_nat (Z.of_nat (length sequence) - Z.of_nat k))
      with (length sequence - k)%nat by lia.
    apply list_fmap_ext. intros j i Hi.
    apply lookup_seq in Hi as [-> Hj]. simpl. unfold py_slice.
    rewrite !decide_False by lia. rewrite !Z.min_l by lia.
    f_equal; [lia|]. f_equal. lia. }
  rewrite Heq. split; [done|]. split.
  - apply Forall_fmap, Forall_forall. intros i Hi.
    apply elem_of_seq in Hi. simpl.
    rewrite length_take, length_drop. lia.
  - by rewrite length_fmap, length_seq.
Qed.

(** ** Counting mers *)







(** ** Adding up nested dictionaries *)

Lemma lookup_set_item x key v d :
  lookup_item x (set_item key v d) =
    if decide (x = key) then Some v else lookup_item x d.
Proof.
  induction d as [|[key' v'] d IH]; simpl.
  - by repeat case_decide.
  - destruct (decide (key = key')) as [->|Hne]; simpl.
    + by repeat case_decide.
    + rewrite IH. repeat case_decide; by simplify_eq.
Qed.

Lemma lookup_item_None key d : (key ∉ d.*1) -> lookup_item key d = None.
Proof.
  induction d as [|[key' v'] d IH]; simpl; [done|].
  intros [Hne Hnot]%not_elem_of_cons. rewrite decide_False by done. auto.
Qed.

Lemma add_paired_cons key v items add_to :
  add_paired (PDict ((key, v) :: items)) add_to =
    match lookup_item key add_to with
    | None => add_paired (PDict items) (set_item key v add_to)
    | Some (PDict sub) =>
        match add_paired v sub with
        | Some merged =>
            add_paired (PDict items) (set_item key (PDict merged) add_to)
        | None => None
        end
    | Some (PInt n) =>
        match v with
        | PInt m => add_paired (PDict items) (set_item key (PInt (n + m)) add_to)
        | PDict _ => None
        end
    end.
Proof. reflexivity. Qed.

(** X30: [add_paired_dictionaries] works key by key.  When it returns, the
    result holds under every key what [paired] makes of the values of the
    two dictionaries under that key: the value of the one that has the
    key, the sum of two integers, the dictionaries added up in the same
    way.  When it fails, some key holds an integer in [add_to] and a
    dictionary in [add_from], or a dictionary in [add_to] and what cannot
    be added to it in [add_from]. *)
Theorem add_paired_dictionaries_keywise add_from : forall add_to,
  NoDup add_from.*1 ->
  match add_paired_dictionaries add_to add_from with
  | Some out =>
      forall key, paired (lookup_item key add_to) (lookup_item key add_from)
                  = Some (lookup_item key out)
  | None =>
      exists key, paired (lookup_item key add_to) (lookup_item key add_from)
                  = None
  end.
Proof.
  unfold add_paired_dictionaries.
  induction add_from as [|[key v] items IH]; intros add_to Hnd.
  - simpl. intros key. by destruct (lookup_item key add_to) as [[]|].
  - apply NoDup_cons in Hnd as [Hkey Hnd]. csimpl in Hkey.
    pose proof (lookup_item_None _ _ Hkey) as Hnone.
    assert (forall add_to1 w,
              lookup_item key add_to1 = Some w ->
              (forall x, x <> key ->
                 lookup_item x add_to1 = lookup_item x add_to) ->
              paired (lookup_item key add_to) (Some v) = Some (Some w) ->
              match add_paired (PDict items) add_to1 with
              | Some out =>
                  forall x, paired (lookup_item x add_to)
                              (lookup_item x ((key, v) :: items))
                            = Some (lookup_item x out)
              | None =>
                  exists x, paired (lookup_item x add_to)
                              (lookup_item x ((key, v) :: items)) = None
              end) as Hstep.
    { intros add_to1 w Hw Hother Hpaired. specialize (IH add_to1 Hnd).
      destruct (add_paired (PDict items) add_to1) as [out|].
      - intros x. specialize (IH x). simpl.
        destruct (decide (x = key)) as [->|Hne].
        + rewrite Hnone, Hw in IH. simpl in IH. rewrite Hpaired.
          by destruct w.
        + by rewrite <- Hother.
      - destruct IH as [x Hx]. exists x. simpl.
        destruct (decide (x = key)) as [->|Hne].
        + rewrite Hnone in Hx. by destruct (lookup_item key add_to1) as [[]|].
        + by rewrite <- Hother. }
    rewrite add_paired_cons.
    destruct (lookup_item key add_to) as [[n|sub]|] eqn:Hto.
    + destruct v as [m|sub'].
      * apply (Hstep _ (PInt (n + m))); [| |done].
        -- rewrite lookup_set_item. by rewrite decide_True.
        -- intros x Hx. rewrite lookup_set_item. by rewrite decide_False.
      * exists key. simpl. rewrite Hto. by rewrite decide_True.
    + destruct (add_paired v sub) as [merged|] eqn:Hsub.
      * apply (Hstep _ (PDict merged)).
        -- rewrite lookup_set_item. by rewrite decide_True.
        -- intros x Hx. rewrite lookup_set_item. by rewrite decide_False.
        -- simpl. by rewrite Hsub.
      * exists key. simpl. rewrite Hto. rewrite decide_True by done.
        simpl. by rewrite Hsub.
    + apply (Hstep _ v); [| |done].
      * rewrite lookup_set_item. by rewrite decide_True.
      * intros x Hx. rewrite lookup_set_item. by rewrite decide_False.
Qed.

Lemma add_paired_dictionaries_keywise_witness :
  match add_paired_dictionaries
          [(KInt 2, PDict [(KStr "at", PInt 3)]); (KStr "n", PInt 1)]
          [(KInt 2, PDict [(KStr "at", PInt 4); (KStr "cg", PInt 1)]);
           (KInt 3, PDict [])] with
  | Some out =>
      forall key,
        paired (lookup_item key
                  [(KInt 2, PDict [(KStr "at", PInt 3)]); (KStr "n", PInt 1)])
               (lookup_item key
                  [(KInt 2, PDict [(KStr "at", PInt 4); (KStr "cg", PInt 1)]);
                   (KInt 3, PDict [])])
        = Some (lookup_item key out)
  | None =>
      exists key,
        paired (lookup_item key
                  [(KInt 2, PDict [(KStr "at", PInt 3)]); (KStr "n", PInt 1)])
               (lookup_item key
                  [(KInt 2, PDict [(KStr "at", PInt 4); (KStr "cg", PInt 1)]);
                   (KInt 3, PDict [])])
        = None
  end.
Proof.
  apply (add_paired_dictionaries_keywise
           [(KInt 2, PDict [(KStr "at", PInt 4); (KStr "cg", PInt 1)]);
            (KInt 3, PDict [])]).
  apply (bool_decide_unpack _). vm_compute. exact I.
Defined.
